(** * A shallow embedding of the drcachesim trace scheduler

    This development models parts of
    [src/clients/drcachesim/scheduler/scheduler.cpp]
    (the class template [scheduler_tmpl_t]) and proves properties of
    them.  Unsigned 64-bit integers are [Z] values with their wrap-around
    written out ([u64_sub]); C++ [double] values are IEEE-754 binary64
    numbers as given by the Standard Library's [SpecFloat] (precision 53,
    maximal exponent 1024), with the conversions between [uint64_t] and
    [double] written out. *)

From Stdlib Require Import ZArith Lia Bool String.
From Stdlib Require Import Floats.SpecFloat.
From stdpp Require Import base list.
From Stdlib Require Import Sorting.Sorted.

Open Scope Z_scope.

(** ** Machine integers and doubles *)

Definition two64 : Z := 2 ^ 64.

(** [a - b] on [uint64_t]. *)
Definition u64_sub (a b : Z) : Z := (a - b) mod two64.

(** [--x] on [uint64_t]. *)
Definition u64_dec (a : Z) : Z := (a - 1) mod two64.

(** C++ [double], the binary64 format. *)
Definition double : Type := spec_float.

Definition prec64 : Z := 53.
Definition emax64 : Z := 1024.

(** [static_cast<double>(n)] for an unsigned 64-bit [n]: rounding to
    nearest, ties to even. *)
Definition double_of_u64 (n : Z) : double :=
  binary_normalize prec64 emax64 n 0 false.

(** Multiplication of two doubles. *)
Definition dmul (x y : double) : double := SFmul prec64 emax64 x y.

(** [static_cast<uint64_t>(d)]: truncation toward zero.  The C++
    conversion is only defined when the truncated value fits in
    [uint64_t]; the model returns the mathematical truncation. *)
Definition u64_of_double (d : double) : Z :=
  match d with
  | S754_finite s m e =>
      let t := if 0 <=? e then Z.shiftl (Zpos m) e else Z.shiftr (Zpos m) (- e) in
      if s then - t else t
  | _ => 0
  end.

(** [d1 > d2] on doubles (false when a NaN is involved). *)
Definition dgt (d1 d2 : double) : bool :=
  match SFcompare d1 d2 with
  | Some Gt => true
  | _ => false
  end.

(** ** Blocking-syscall model: [scale_blocked_time] and
    [syscall_incurs_switch] *)

(** The scheduler options read by the blocking model. *)
Record block_options := {
  block_time_multiplier : double;
  block_time_max_us : Z;
  time_units_per_us : double;
  blocking_switch_threshold : Z;
  syscall_switch_threshold : Z
}.

(** [scheduler_tmpl_t::scale_blocked_time]. *)
Definition scale_blocked_time (o : block_options) (initial_time : Z) : Z :=
  let scaled_us :=
    u64_of_double (dmul (double_of_u64 initial_time) (block_time_multiplier o)) in
  let scaled_us :=
    if block_time_max_us o <? scaled_us then block_time_max_us o else scaled_us in
  u64_of_double (dmul (double_of_u64 scaled_us) (time_units_per_us o)).

(** The fields of [input_info_t] read by [syscall_incurs_switch], with
    the two reader queries it makes ([get_last_timestamp] and
    [get_version]). *)
Record syscall_input := {
  processing_syscall : bool;
  processing_maybe_blocking_syscall : bool;
  pre_syscall_timestamp : Z;
  reader_last_timestamp : Z;
  reader_version : Z
}.

Section SyscallSwitch.

(** [TRACE_ENTRY_VERSION_FREQUENT_TIMESTAMPS], declared in
    [trace_entry.h]. *)
Variable TRACE_ENTRY_VERSION_FREQUENT_TIMESTAMPS : Z.

(** [scheduler_tmpl_t::syscall_incurs_switch]: the boolean result and the
    value written to the [blocked_time] out-parameter. *)
Definition syscall_incurs_switch (o : block_options) (input : syscall_input)
  : bool * Z :=
  let post_time := reader_last_timestamp input in
  if reader_version input <? TRACE_ENTRY_VERSION_FREQUENT_TIMESTAMPS then
    (processing_maybe_blocking_syscall input, blocking_switch_threshold o)
  else
    let latency := u64_sub post_time (pre_syscall_timestamp input) in
    let threshold :=
      if processing_maybe_blocking_syscall input
      then blocking_switch_threshold o else syscall_switch_threshold o in
    let blocked_time := scale_blocked_time o latency in
    (threshold <=? latency, blocked_time).

End SyscallSwitch.

(** ** Records, statuses and the region-of-interest skip *)

(** The marker kinds the modelled code tests for. *)
Inductive trace_marker_type :=
| TRACE_MARKER_TYPE_WINDOW_ID
| TRACE_MARKER_TYPE_SYSCALL
| TRACE_MARKER_TYPE_MAYBE_BLOCKING_SYSCALL
| TRACE_MARKER_TYPE_OTHER.

(** A trace record as the scheduler classifies it: an instruction, an
    instruction encoding, a marker, or any other record. *)
Inductive trace_record :=
| rec_instr (tid : Z)
| rec_encoding (tid : Z)
| rec_marker (tid : Z) (kind : trace_marker_type) (value : Z)
| rec_other (tid : Z).

Definition record_type_is_instr (r : trace_record) : bool :=
  match r with rec_instr _ => true | _ => false end.

Definition record_type_is_encoding (r : trace_record) : bool :=
  match r with rec_encoding _ => true | _ => false end.

(** [create_region_separator_marker]. *)
Definition create_region_separator_marker (tid value : Z) : trace_record :=
  rec_marker tid TRACE_MARKER_TYPE_WINDOW_ID value.

(** [stream_status_t]. *)
Inductive stream_status :=
| STATUS_OK
| STATUS_EOF
| STATUS_WAIT
| STATUS_INVALID
| STATUS_REGION_INVALID
| STATUS_NOT_IMPLEMENTED
| STATUS_SKIPPED
| STATUS_STOLE
| STATUS_IDLE.

Definition stream_status_eqb (a b : stream_status) : bool :=
  match a, b with
  | STATUS_OK, STATUS_OK | STATUS_EOF, STATUS_EOF | STATUS_WAIT, STATUS_WAIT
  | STATUS_INVALID, STATUS_INVALID | STATUS_REGION_INVALID, STATUS_REGION_INVALID
  | STATUS_NOT_IMPLEMENTED, STATUS_NOT_IMPLEMENTED | STATUS_SKIPPED, STATUS_SKIPPED
  | STATUS_STOLE, STATUS_STOLE | STATUS_IDLE, STATUS_IDLE => true
  | _, _ => false
  end.

(** [std::numeric_limits<uint64_t>::max()]. *)
Definition u64_max : Z := two64 - 1.

Module Skip.

Section SkipInstructions.

(** The input's trace reader ([reader_t], not part of this file): its
    state, [init()], [skip_instructions(n)] and the test
    [*reader == *reader_end]. *)
Variable reader : Type.
Variable reader_init : reader -> reader.
Variable reader_skip_instructions : reader -> Z -> reader.
Variable reader_at_end : reader -> bool.

(** The fields of [input_info_t] that [skip_instructions] reads or
    writes. *)
Record input_info := {
  queue : list trace_record;
  rdr : reader;
  needs_init : bool;
  instrs_pre_read : Z;
  at_eof : bool;
  in_cur_region : bool;
  cur_region : Z;
  tid : Z
}.

Definition set_queue (i : input_info) (q : list trace_record) : input_info :=
  {| queue := q; rdr := rdr i; needs_init := needs_init i;
     instrs_pre_read := instrs_pre_read i; at_eof := at_eof i;
     in_cur_region := in_cur_region i; cur_region := cur_region i; tid := tid i |}.

Definition set_rdr (i : input_info) (r : reader) (ni : bool) : input_info :=
  {| queue := queue i; rdr := r; needs_init := ni;
     instrs_pre_read := instrs_pre_read i; at_eof := at_eof i;
     in_cur_region := in_cur_region i; cur_region := cur_region i; tid := tid i |}.

Definition set_instrs_pre_read (i : input_info) (n : Z) : input_info :=
  {| queue := queue i; rdr := rdr i; needs_init := needs_init i;
     instrs_pre_read := n; at_eof := at_eof i;
     in_cur_region := in_cur_region i; cur_region := cur_region i; tid := tid i |}.

Definition set_at_eof (i : input_info) : input_info :=
  {| queue := queue i; rdr := rdr i; needs_init := needs_init i;
     instrs_pre_read := instrs_pre_read i; at_eof := true;
     in_cur_region := in_cur_region i; cur_region := cur_region i; tid := tid i |}.

Definition set_in_cur_region (i : input_info) : input_info :=
  {| queue := queue i; rdr := rdr i; needs_init := needs_init i;
     instrs_pre_read := instrs_pre_read i; at_eof := at_eof i;
     in_cur_region := true; cur_region := cur_region i; tid := tid i |}.

(** [clear_input_queue]: pops every queued record (its assertion that no
    instruction or encoding follows the front record is not modelled). *)
Definition clear_input_queue (i : input_info) : input_info := set_queue i [].

(** [mark_input_eof], with [live_input_count_]. *)
Definition mark_input_eof (i : input_info) (live : Z) : input_info * Z :=
  if at_eof i then (i, live) else (set_at_eof i, live - 1).

(** [scheduler_tmpl_t::skip_instructions]: the status, the updated input
    and the updated [live_input_count_]. *)
Definition skip_instructions (i : input_info) (live : Z) (skip_amount : Z)
  : stream_status * input_info * Z :=
  let i := if needs_init i then set_rdr i (reader_init (rdr i)) false else i in
  let i := clear_input_queue i in
  let i := set_rdr i (reader_skip_instructions (rdr i) skip_amount) (needs_init i) in
  let i := if 0 <? instrs_pre_read i then set_instrs_pre_read i 0 else i in
  if reader_at_end (rdr i) then
    let '(i, live) := mark_input_eof i live in
    if u64_max - 2 <=? skip_amount then (STATUS_SKIPPED, i, live)
    else (STATUS_REGION_INVALID, i, live)
  else
    let i := set_in_cur_region i in
    let i := if 0 <? cur_region i
             then set_queue i (queue i ++ [create_region_separator_marker (tid i) (cur_region i)])
             else i in
    (STATUS_SKIPPED, i, live).

End SkipInstructions.

End Skip.

(** ** Schedule recording: [record_schedule_segment],
    [close_schedule_segment] and [replay_file_checker_t::check] *)

Module Record.

(** [schedule_record_t::record_type_t]. *)
Inductive record_type :=
| DEFAULT | VERSION | FOOTER | SKIP | SYNTHETIC_END | IDLE.

Definition is_idle (t : record_type) : bool :=
  match t with IDLE => true | _ => false end.

(** [schedule_record_t]: [value] holds either [start_instruction] or, for
    an idle record, [idle_duration]. *)
Record schedule_record := {
  type : record_type;
  key_input : Z;
  value : Z;
  stop_instruction : Z;
  timestamp : Z
}.

(** [outputs_[output].record.back()]. *)
Definition back (log : list schedule_record) : option schedule_record := last log.

(** [record_schedule_segment]: [now] is the value of [get_time_micros()]. *)
Definition record_schedule_segment (log : list schedule_record) (now : Z)
  (ty : record_type) (input start_instruction stop_instruction : Z)
  : stream_status * list schedule_record :=
  match back log with
  | Some b => if is_idle ty && is_idle (type b) then (STATUS_OK, log)
              else (STATUS_OK, log ++ [{| type := ty; key_input := input;
                     value := start_instruction; stop_instruction := stop_instruction;
                     timestamp := now |}])
  | None => (STATUS_OK, log ++ [{| type := ty; key_input := input;
                     value := start_instruction; stop_instruction := stop_instruction;
                     timestamp := now |}])
  end.

(** [close_schedule_segment]: [now] is [get_time_micros()] and
    [instr_ord] the exclusive stop ordinal it computes from the input
    (instruction ordinal, end of input and pre-instruction switch). *)
Definition close_schedule_segment (log : list schedule_record) (now instr_ord : Z)
  : stream_status * list schedule_record :=
  match back log with
  | Some b =>
      let init := removelast log in
      match type b with
      | SKIP => (STATUS_OK, log)
      | IDLE => (STATUS_OK, init ++ [{| type := type b; key_input := key_input b;
                   value := u64_sub now (timestamp b);
                   stop_instruction := stop_instruction b; timestamp := timestamp b |}])
      | _ => (STATUS_OK, init ++ [{| type := type b; key_input := key_input b;
                   value := value b; stop_instruction := instr_ord;
                   timestamp := timestamp b |}])
      end
  | None => (STATUS_OK, log)
  end.

(** The two ways the scheduler changes an output's recorded log. *)
Inductive log_op :=
| op_record (now : Z) (ty : record_type) (input start stop : Z)
| op_close (now instr_ord : Z).

Definition apply_op (log : list schedule_record) (op : log_op) : list schedule_record :=
  match op with
  | op_record now ty input start stop =>
      snd (record_schedule_segment log now ty input start stop)
  | op_close now ord => snd (close_schedule_segment log now ord)
  end.

Definition run_ops (log : list schedule_record) (ops : list log_op) : list schedule_record :=
  fold_left apply_op ops log.

(** [replay_file_checker_t::check] over the records read from the file. *)
Fixpoint check_from (prev_was_idle : bool) (recs : list schedule_record) : string :=
  match recs with
  | [] => ""%string
  | r :: rest =>
      if is_idle (type r) then
        if prev_was_idle then "Error: consecutive idle records"%string
        else check_from true rest
      else check_from false rest
  end.

Definition check (recs : list schedule_record) : string := check_from false recs.

(** Two consecutive idle records somewhere in a list. *)
Fixpoint has_consecutive_idle (recs : list schedule_record) : bool :=
  match recs with
  | r1 :: ((r2 :: _) as rest) =>
      (is_idle (type r1) && is_idle (type r2)) || has_consecutive_idle rest
  | _ => false
  end.

End Record.

(** ** The dynamic scheduler ([MAP_TO_ANY_OUTPUT])

    The state below holds the fields of [input_info_t], [output_info_t]
    and [scheduler_tmpl_t] that the modelled functions read or write.
    Inputs and outputs are indexed by their ordinals; the ordinal [-1] is
    [INVALID_INPUT_ORDINAL] and [INVALID_OUTPUT_ORDINAL].  An input's
    trace reader is the list of records it has not yet passed: its head
    is [**reader], [++reader] drops it and [*reader == *reader_end] holds
    when the list is empty. *)

Module Sched.

Definition INVALID_INPUT_ORDINAL : Z := -1.
Definition INVALID_OUTPUT_ORDINAL : Z := -1.

(** [quantum_unit_t]. *)
Inductive quantum_unit_t := QUANTUM_INSTRUCTIONS | QUANTUM_TIME.

(** The scheduler options the modelled functions read. *)
Record options := {
  randomize_next_input : bool;
  verbosity : Z;
  quantum_unit : quantum_unit_t;
  time_units_per_us : double;
  block_time_max_us : Z
}.

(** The [VPRINT] lines of level 1 emitted by the modelled functions. *)
Inductive log_line :=
| log_direct_switch_miss (from target : Z)
| log_flush_unscheduled
| log_invalid_time (output cur_time start : Z)
| log_speculation_failed (output : Z).

(** Indices into an output's [stats] array
    ([memtrace_stream_t::schedule_statistic_t]). *)
Definition SCHED_STAT_SWITCH_INPUT_TO_INPUT : nat := 0.
Definition SCHED_STAT_SWITCH_INPUT_TO_IDLE : nat := 1.
Definition SCHED_STAT_SWITCH_IDLE_TO_INPUT : nat := 2.
Definition SCHED_STAT_SWITCH_NOP : nat := 3.
Definition SCHED_STAT_QUANTUM_PREEMPTS : nat := 4.
Definition SCHED_STAT_DIRECT_SWITCH_ATTEMPTS : nat := 5.
Definition SCHED_STAT_DIRECT_SWITCH_SUCCESSES : nat := 6.
Definition SCHED_STAT_MIGRATIONS : nat := 7.

Record input_info := mk_input {
  index : Z;
  priority : Z;
  order_by_timestamp : bool;
  next_timestamp : Z;
  base_timestamp : Z;
  queue_counter : Z;
  binding : list Z;
  blocked_time : Z;
  blocked_start_time : Z;
  unscheduled : bool;
  skip_next_unscheduled : bool;
  switch_to_input : Z;
  prev_output : Z;
  at_eof : bool;
  reader_records : list trace_record;
  needs_advance : bool;
  queue : list trace_record;
  prev_time_in_quantum : Z;
  time_spent_in_quantum : Z
}.

Definition with_queue_counter (i : input_info) (v : Z) : input_info :=
  {| index := index i; priority := priority i;
     order_by_timestamp := order_by_timestamp i;
     next_timestamp := next_timestamp i; base_timestamp := base_timestamp i;
     queue_counter := v; binding := binding i; blocked_time := blocked_time i;
     blocked_start_time := blocked_start_time i; unscheduled := unscheduled i;
     skip_next_unscheduled := skip_next_unscheduled i;
     switch_to_input := switch_to_input i; prev_output := prev_output i;
     at_eof := at_eof i; reader_records := reader_records i;
     needs_advance := needs_advance i; queue := queue i;
     prev_time_in_quantum := prev_time_in_quantum i;
     time_spent_in_quantum := time_spent_in_quantum i |}.

Definition with_blocked_time (i : input_info) (v : Z) : input_info :=
  {| index := index i; priority := priority i;
     order_by_timestamp := order_by_timestamp i;
     next_timestamp := next_timestamp i; base_timestamp := base_timestamp i;
     queue_counter := queue_counter i; binding := binding i; blocked_time := v;
     blocked_start_time := blocked_start_time i; unscheduled := unscheduled i;
     skip_next_unscheduled := skip_next_unscheduled i;
     switch_to_input := switch_to_input i; prev_output := prev_output i;
     at_eof := at_eof i; reader_records := reader_records i;
     needs_advance := needs_advance i; queue := queue i;
     prev_time_in_quantum := prev_time_in_quantum i;
     time_spent_in_quantum := time_spent_in_quantum i |}.

Definition with_blocked_start_time (i : input_info) (v : Z) : input_info :=
  {| index := index i; priority := priority i;
     order_by_timestamp := order_by_timestamp i;
     next_timestamp := next_timestamp i; base_timestamp := base_timestamp i;
     queue_counter := queue_counter i; binding := binding i;
     blocked_time := blocked_time i; blocked_start_time := v;
     unscheduled := unscheduled i;
     skip_next_unscheduled := skip_next_unscheduled i;
     switch_to_input := switch_to_input i; prev_output := prev_output i;
     at_eof := at_eof i; reader_records := reader_records i;
     needs_advance := needs_advance i; queue := queue i;
     prev_time_in_quantum := prev_time_in_quantum i;
     time_spent_in_quantum := time_spent_in_quantum i |}.

Definition with_unscheduled (i : input_info) (v : bool) : input_info :=
  {| index := index i; priority := priority i;
     order_by_timestamp := order_by_timestamp i;
     next_timestamp := next_timestamp i; base_timestamp := base_timestamp i;
     queue_counter := queue_counter i; binding := binding i;
     blocked_time := blocked_time i; blocked_start_time := blocked_start_time i;
     unscheduled := v; skip_next_unscheduled := skip_next_unscheduled i;
     switch_to_input := switch_to_input i; prev_output := prev_output i;
     at_eof := at_eof i; reader_records := reader_records i;
     needs_advance := needs_advance i; queue := queue i;
     prev_time_in_quantum := prev_time_in_quantum i;
     time_spent_in_quantum := time_spent_in_quantum i |}.

Definition with_skip_next_unscheduled (i : input_info) (v : bool) : input_info :=
  {| index := index i; priority := priority i;
     order_by_timestamp := order_by_timestamp i;
     next_timestamp := next_timestamp i; base_timestamp := base_timestamp i;
     queue_counter := queue_counter i; binding := binding i;
     blocked_time := blocked_time i; blocked_start_time := blocked_start_time i;
     unscheduled := unscheduled i; skip_next_unscheduled := v;
     switch_to_input := switch_to_input i; prev_output := prev_output i;
     at_eof := at_eof i; reader_records := reader_records i;
     needs_advance := needs_advance i; queue := queue i;
     prev_time_in_quantum := prev_time_in_quantum i;
     time_spent_in_quantum := time_spent_in_quantum i |}.

Definition with_switch_to_input (i : input_info) (v : Z) : input_info :=
  {| index := index i; priority := priority i;
     order_by_timestamp := order_by_timestamp i;
     next_timestamp := next_timestamp i; base_timestamp := base_timestamp i;
     queue_counter := queue_counter i; binding := binding i;
     blocked_time := blocked_time i; blocked_start_time := blocked_start_time i;
     unscheduled := unscheduled i;
     skip_next_unscheduled := skip_next_unscheduled i; switch_to_input := v;
     prev_output := prev_output i; at_eof := at_eof i;
     reader_records := reader_records i; needs_advance := needs_advance i;
     queue := queue i; prev_time_in_quantum := prev_time_in_quantum i;
     time_spent_in_quantum := time_spent_in_quantum i |}.

Definition with_prev_output (i : input_info) (v : Z) : input_info :=
  {| index := index i; priority := priority i;
     order_by_timestamp := order_by_timestamp i;
     next_timestamp := next_timestamp i; base_timestamp := base_timestamp i;
     queue_counter := queue_counter i; binding := binding i;
     blocked_time := blocked_time i; blocked_start_time := blocked_start_time i;
     unscheduled := unscheduled i;
     skip_next_unscheduled := skip_next_unscheduled i;
     switch_to_input := switch_to_input i; prev_output := v; at_eof := at_eof i;
     reader_records := reader_records i; needs_advance := needs_advance i;
     queue := queue i; prev_time_in_quantum := prev_time_in_quantum i;
     time_spent_in_quantum := time_spent_in_quantum i |}.

Definition with_at_eof (i : input_info) (v : bool) : input_info :=
  {| index := index i; priority := priority i;
     order_by_timestamp := order_by_timestamp i;
     next_timestamp := next_timestamp i; base_timestamp := base_timestamp i;
     queue_counter := queue_counter i; binding := binding i;
     blocked_time := blocked_time i; blocked_start_time := blocked_start_time i;
     unscheduled := unscheduled i;
     skip_next_unscheduled := skip_next_unscheduled i;
     switch_to_input := switch_to_input i; prev_output := prev_output i;
     at_eof := v; reader_records := reader_records i;
     needs_advance := needs_advance i; queue := queue i;
     prev_time_in_quantum := prev_time_in_quantum i;
     time_spent_in_quantum := time_spent_in_quantum i |}.

Definition with_reader_records (i : input_info) (v : list trace_record) : input_info :=
  {| index := index i; priority := priority i;
     order_by_timestamp := order_by_timestamp i;
     next_timestamp := next_timestamp i; base_timestamp := base_timestamp i;
     queue_counter := queue_counter i; binding := binding i;
     blocked_time := blocked_time i; blocked_start_time := blocked_start_time i;
     unscheduled := unscheduled i;
     skip_next_unscheduled := skip_next_unscheduled i;
     switch_to_input := switch_to_input i; prev_output := prev_output i;
     at_eof := at_eof i; reader_records := v; needs_advance := needs_advance i;
     queue := queue i; prev_time_in_quantum := prev_time_in_quantum i;
     time_spent_in_quantum := time_spent_in_quantum i |}.

Definition with_needs_advance (i : input_info) (v : bool) : input_info :=
  {| index := index i; priority := priority i;
     order_by_timestamp := order_by_timestamp i;
     next_timestamp := next_timestamp i; base_timestamp := base_timestamp i;
     queue_counter := queue_counter i; binding := binding i;
     blocked_time := blocked_time i; blocked_start_time := blocked_start_time i;
     unscheduled := unscheduled i;
     skip_next_unscheduled := skip_next_unscheduled i;
     switch_to_input := switch_to_input i; prev_output := prev_output i;
     at_eof := at_eof i; reader_records := reader_records i; needs_advance := v;
     queue := queue i; prev_time_in_quantum := prev_time_in_quantum i;
     time_spent_in_quantum := time_spent_in_quantum i |}.

Definition with_queue (i : input_info) (v : list trace_record) : input_info :=
  {| index := index i; priority := priority i;
     order_by_timestamp := order_by_timestamp i;
     next_timestamp := next_timestamp i; base_timestamp := base_timestamp i;
     queue_counter := queue_counter i; binding := binding i;
     blocked_time := blocked_time i; blocked_start_time := blocked_start_time i;
     unscheduled := unscheduled i;
     skip_next_unscheduled := skip_next_unscheduled i;
     switch_to_input := switch_to_input i; prev_output := prev_output i;
     at_eof := at_eof i; reader_records := reader_records i;
     needs_advance := needs_advance i; queue := v;
     prev_time_in_quantum := prev_time_in_quantum i;
     time_spent_in_quantum := time_spent_in_quantum i |}.

Definition with_prev_time_in_quantum (i : input_info) (v : Z) : input_info :=
  {| index := index i; priority := priority i;
     order_by_timestamp := order_by_timestamp i;
     next_timestamp := next_timestamp i; base_timestamp := base_timestamp i;
     queue_counter := queue_counter i; binding := binding i;
     blocked_time := blocked_time i; blocked_start_time := blocked_start_time i;
     unscheduled := unscheduled i;
     skip_next_unscheduled := skip_next_unscheduled i;
     switch_to_input := switch_to_input i; prev_output := prev_output i;
     at_eof := at_eof i; reader_records := reader_records i;
     needs_advance := needs_advance i; queue := queue i; prev_time_in_quantum := v;
     time_spent_in_quantum := time_spent_in_quantum i |}.

Record output_info := mk_output {
  cur_input : Z;
  prev_input : Z;
  cur_time : Z;
  active : bool;
  waiting : bool;
  wait_start_time : Z;
  speculating : bool;
  speculation_error : bool;
  hit_switch_code_end : bool;
  in_context_switch_code : bool;
  stats : list Z
}.

Definition with_cur_input (o : output_info) (v : Z) : output_info :=
  {| cur_input := v; prev_input := prev_input o; cur_time := cur_time o;
     active := active o; waiting := waiting o;
     wait_start_time := wait_start_time o; speculating := speculating o;
     speculation_error := speculation_error o;
     hit_switch_code_end := hit_switch_code_end o;
     in_context_switch_code := in_context_switch_code o; stats := stats o |}.

Definition with_prev_input (o : output_info) (v : Z) : output_info :=
  {| cur_input := cur_input o; prev_input := v; cur_time := cur_time o;
     active := active o; waiting := waiting o;
     wait_start_time := wait_start_time o; speculating := speculating o;
     speculation_error := speculation_error o;
     hit_switch_code_end := hit_switch_code_end o;
     in_context_switch_code := in_context_switch_code o; stats := stats o |}.

Definition with_cur_time (o : output_info) (v : Z) : output_info :=
  {| cur_input := cur_input o; prev_input := prev_input o; cur_time := v;
     active := active o; waiting := waiting o;
     wait_start_time := wait_start_time o; speculating := speculating o;
     speculation_error := speculation_error o;
     hit_switch_code_end := hit_switch_code_end o;
     in_context_switch_code := in_context_switch_code o; stats := stats o |}.

Definition with_waiting (o : output_info) (v : bool) : output_info :=
  {| cur_input := cur_input o; prev_input := prev_input o; cur_time := cur_time o;
     active := active o; waiting := v; wait_start_time := wait_start_time o;
     speculating := speculating o; speculation_error := speculation_error o;
     hit_switch_code_end := hit_switch_code_end o;
     in_context_switch_code := in_context_switch_code o; stats := stats o |}.

Definition with_wait_start_time (o : output_info) (v : Z) : output_info :=
  {| cur_input := cur_input o; prev_input := prev_input o; cur_time := cur_time o;
     active := active o; waiting := waiting o; wait_start_time := v;
     speculating := speculating o; speculation_error := speculation_error o;
     hit_switch_code_end := hit_switch_code_end o;
     in_context_switch_code := in_context_switch_code o; stats := stats o |}.

Definition with_hit_switch_code_end (o : output_info) (v : bool) : output_info :=
  {| cur_input := cur_input o; prev_input := prev_input o; cur_time := cur_time o;
     active := active o; waiting := waiting o;
     wait_start_time := wait_start_time o; speculating := speculating o;
     speculation_error := speculation_error o; hit_switch_code_end := v;
     in_context_switch_code := in_context_switch_code o; stats := stats o |}.

Definition with_in_context_switch_code (o : output_info) (v : bool) : output_info :=
  {| cur_input := cur_input o; prev_input := prev_input o; cur_time := cur_time o;
     active := active o; waiting := waiting o;
     wait_start_time := wait_start_time o; speculating := speculating o;
     speculation_error := speculation_error o;
     hit_switch_code_end := hit_switch_code_end o; in_context_switch_code := v;
     stats := stats o |}.

Definition with_stats (o : output_info) (v : list Z) : output_info :=
  {| cur_input := cur_input o; prev_input := prev_input o; cur_time := cur_time o;
     active := active o; waiting := waiting o;
     wait_start_time := wait_start_time o; speculating := speculating o;
     speculation_error := speculation_error o;
     hit_switch_code_end := hit_switch_code_end o;
     in_context_switch_code := in_context_switch_code o; stats := v |}.

Record sched := mk_sched {
  inputs : list input_info;
  outputs : list output_info;
  ready : list Z;
  unsched : list Z;
  ready_counter : Z;
  unscheduled_counter : Z;
  num_blocked : Z;
  live_input_count : Z;
  wall_clock : Z;
  log : list log_line
}.

Definition with_inputs (s : sched) (v : list input_info) : sched :=
  {| inputs := v; outputs := outputs s; ready := ready s; unsched := unsched s;
     ready_counter := ready_counter s;
     unscheduled_counter := unscheduled_counter s; num_blocked := num_blocked s;
     live_input_count := live_input_count s; wall_clock := wall_clock s;
     log := log s |}.

Definition with_outputs (s : sched) (v : list output_info) : sched :=
  {| inputs := inputs s; outputs := v; ready := ready s; unsched := unsched s;
     ready_counter := ready_counter s;
     unscheduled_counter := unscheduled_counter s; num_blocked := num_blocked s;
     live_input_count := live_input_count s; wall_clock := wall_clock s;
     log := log s |}.

Definition with_ready (s : sched) (v : list Z) : sched :=
  {| inputs := inputs s; outputs := outputs s; ready := v; unsched := unsched s;
     ready_counter := ready_counter s;
     unscheduled_counter := unscheduled_counter s; num_blocked := num_blocked s;
     live_input_count := live_input_count s; wall_clock := wall_clock s;
     log := log s |}.

Definition with_unsched (s : sched) (v : list Z) : sched :=
  {| inputs := inputs s; outputs := outputs s; ready := ready s; unsched := v;
     ready_counter := ready_counter s;
     unscheduled_counter := unscheduled_counter s; num_blocked := num_blocked s;
     live_input_count := live_input_count s; wall_clock := wall_clock s;
     log := log s |}.

Definition with_ready_counter (s : sched) (v : Z) : sched :=
  {| inputs := inputs s; outputs := outputs s; ready := ready s;
     unsched := unsched s; ready_counter := v;
     unscheduled_counter := unscheduled_counter s; num_blocked := num_blocked s;
     live_input_count := live_input_count s; wall_clock := wall_clock s;
     log := log s |}.

Definition with_unscheduled_counter (s : sched) (v : Z) : sched :=
  {| inputs := inputs s; outputs := outputs s; ready := ready s;
     unsched := unsched s; ready_counter := ready_counter s;
     unscheduled_counter := v; num_blocked := num_blocked s;
     live_input_count := live_input_count s; wall_clock := wall_clock s;
     log := log s |}.

Definition with_num_blocked (s : sched) (v : Z) : sched :=
  {| inputs := inputs s; outputs := outputs s; ready := ready s;
     unsched := unsched s; ready_counter := ready_counter s;
     unscheduled_counter := unscheduled_counter s; num_blocked := v;
     live_input_count := live_input_count s; wall_clock := wall_clock s;
     log := log s |}.

Definition with_live_input_count (s : sched) (v : Z) : sched :=
  {| inputs := inputs s; outputs := outputs s; ready := ready s;
     unsched := unsched s; ready_counter := ready_counter s;
     unscheduled_counter := unscheduled_counter s; num_blocked := num_blocked s;
     live_input_count := v; wall_clock := wall_clock s; log := log s |}.

Definition with_wall_clock (s : sched) (v : Z) : sched :=
  {| inputs := inputs s; outputs := outputs s; ready := ready s;
     unsched := unsched s; ready_counter := ready_counter s;
     unscheduled_counter := unscheduled_counter s; num_blocked := num_blocked s;
     live_input_count := live_input_count s; wall_clock := v; log := log s |}.

Definition with_log (s : sched) (v : list log_line) : sched :=
  {| inputs := inputs s; outputs := outputs s; ready := ready s;
     unsched := unsched s; ready_counter := ready_counter s;
     unscheduled_counter := unscheduled_counter s; num_blocked := num_blocked s;
     live_input_count := live_input_count s; wall_clock := wall_clock s;
     log := v |}.


Definition empty_list {A} (l : list A) : bool :=
  match l with [] => true | _ => false end.

Definition default_input : input_info :=
  {| index := -1; priority := 0; order_by_timestamp := false; next_timestamp := 0;
     base_timestamp := 0; queue_counter := 0; binding := []; blocked_time := 0;
     blocked_start_time := 0; unscheduled := false; skip_next_unscheduled := false;
     switch_to_input := INVALID_INPUT_ORDINAL; prev_output := INVALID_OUTPUT_ORDINAL;
     at_eof := false; reader_records := []; needs_advance := false; queue := [];
     prev_time_in_quantum := 0; time_spent_in_quantum := 0 |}.

Definition default_output : output_info :=
  {| cur_input := INVALID_INPUT_ORDINAL; prev_input := INVALID_INPUT_ORDINAL;
     cur_time := 0; active := true; waiting := false; wait_start_time := 0;
     speculating := false; speculation_error := false; hit_switch_code_end := false;
     in_context_switch_code := false; stats := [] |}.

(** [inputs_[i]] and [outputs_[o]]. *)
Definition inp (s : sched) (i : Z) : input_info :=
  from_option id default_input (inputs s !! Z.to_nat i).

Definition outp (s : sched) (o : Z) : output_info :=
  from_option id default_output (outputs s !! Z.to_nat o).

Definition upd_input (s : sched) (i : Z) (f : input_info -> input_info) : sched :=
  with_inputs s (<[Z.to_nat i := f (inp s i)]> (inputs s)).

Definition upd_output (s : sched) (o : Z) (f : output_info -> output_info) : sched :=
  with_outputs s (<[Z.to_nat o := f (outp s o)]> (outputs s)).

(** [++outputs_[o].stats[k]]. *)
Definition incr_stat (o : output_info) (k : nat) : output_info :=
  with_stats o (<[k := from_option id 0 (stats o !! k) + 1]> (stats o)).

Definition add_log (s : sched) (vo : options) (line : log_line) : sched :=
  if 1 <=? verbosity vo then with_log s (log s ++ [line]) else s.

(** [get_output_time]. *)
Definition get_output_time (s : sched) (output : Z) : Z := cur_time (outp s output).

(** *** The priority queues *)

(** Modelled from the spec: [ready_priority_] and [unscheduled_priority_]
    are [flexible_queue_t]s ordered by the comparator of [scheduler.h],
    neither of which is in this file.  Following the spec (section 4.2),
    a queue is the list of its input ordinals and its top is the first
    input that is least in the order (priority descending, then
    [next_timestamp - base_timestamp] ascending for inputs ordered by
    timestamp, then [queue_counter] ascending); [push] appends, [pop]
    and [erase] remove one occurrence, [find] tests membership. *)
Definition ts_key (r : input_info) : Z :=
  if order_by_timestamp r then next_timestamp r - base_timestamp r else 0.

(** [before s a b]: input [a] comes out of a queue before input [b]. *)
Definition before (s : sched) (a b : Z) : bool :=
  let x := inp s a in
  let y := inp s b in
  (priority y <? priority x) ||
  ((priority x =? priority y) &&
   ((ts_key x <? ts_key y) ||
    ((ts_key x =? ts_key y) && (queue_counter x <? queue_counter y)))).

Definition pq_top (s : sched) (q : list Z) : option Z :=
  match q with
  | [] => None
  | x :: rest => Some (fold_left (fun best y => if before s y best then y else best) rest x)
  end.

Fixpoint pq_erase (x : Z) (q : list Z) : list Z :=
  match q with
  | [] => []
  | y :: rest => if y =? x then rest else y :: pq_erase x rest
  end.

Definition pq_find (x : Z) (q : list Z) : bool := existsb (Z.eqb x) q.

(** An ordered [std::set] of inputs: [std::set<input_info_t *>] orders
    the pointers into [inputs_], that is the ordinals. *)
Fixpoint set_insert (x : Z) (l : list Z) : list Z :=
  match l with
  | [] => [x]
  | y :: rest => if x =? y then l else if x <? y then x :: l else y :: set_insert x rest
  end.

Section Dispatch.

Variable vo : options.

(** [flexible_queue_t::get_random_entry]: the position of the entry a
    call picks (any value is reduced modulo the queue size). *)
Variable random_index : list Z -> nat.

Definition get_random_entry (q : list Z) : option Z :=
  match q with
  | [] => None
  | _ => nth_error q (random_index q mod length q)
  end.

(** [add_to_unscheduled_queue]. *)
Definition add_to_unscheduled_queue (s : sched) (i : Z) : sched :=
  let c := unscheduled_counter s + 1 in
  let s := with_unscheduled_counter s c in
  let s := upd_input s i (fun r => with_queue_counter r c) in
  with_unsched s (unsched s ++ [i]).

(** [add_to_ready_queue]. *)
Definition add_to_ready_queue (s : sched) (i : Z) : sched :=
  let r := inp s i in
  if unscheduled r && (blocked_time r =? 0) then add_to_unscheduled_queue s i
  else
    let s := if 0 <? blocked_time r then with_num_blocked s (num_blocked s + 1) else s in
    let c := ready_counter s + 1 in
    let s := with_ready_counter s c in
    let s := upd_input s i (fun r => with_queue_counter r c) in
    with_ready s (ready s ++ [i]).

(** The [while] loop of [pop_from_ready_queue], one round per queue
    entry: the state, the entry found, and the [skipped] and [blocked]
    sets. *)
Fixpoint pop_loop (n : nat) (s : sched) (for_output now : Z) (skipped blocked : list Z)
  : sched * option Z * list Z * list Z :=
  match n with
  | O => (s, None, skipped, blocked)
  | S n =>
      let pick := if randomize_next_input vo then get_random_entry (ready s)
                  else pq_top s (ready s) in
      match pick with
      | None => (s, None, skipped, blocked)
      | Some res =>
          let s := with_ready s (pq_erase res (ready s)) in
          let r := inp s res in
          if empty_list (binding r) || pq_find for_output (binding r) then
            let s := if 0 <? blocked_time r then with_num_blocked s (num_blocked s - 1) else s in
            if (0 <? blocked_time r) &&
               (u64_sub now (blocked_start_time r) <? blocked_time r)
            then pop_loop n s for_output now skipped (set_insert res blocked)
            else (s, Some res, skipped, blocked)
          else pop_loop n s for_output now (set_insert res skipped) blocked
      end
  end.

(** [pop_from_ready_queue]: the status and the input handed out
    ([new_input], [None] for [nullptr]). *)
Definition pop_from_ready_queue (s : sched) (for_output : Z)
  : stream_status * sched * option Z :=
  let now := if 0 <? num_blocked s then get_output_time s for_output else 0 in
  let '(s, res, skipped, blocked) := pop_loop (length (ready s)) s for_output now [] [] in
  let status := match res, blocked with
                | None, _ :: _ => STATUS_IDLE
                | _, _ => STATUS_OK
                end in
  let s := fold_left (fun s i => with_ready s (ready s ++ [i])) skipped s in
  let s := fold_left add_to_ready_queue blocked s in
  let s := match res with
           | Some i => upd_input s i (fun r => with_unscheduled (with_blocked_time r 0) false)
           | None => s
           end in
  (status, s, res).

(** [set_cur_input] (schedule recording off: [schedule_record_ostream] is
    null).  The stream header fields, the tid/pid switch records and the
    kernel context-switch sequence it queues for a new input are not
    modelled. *)
Definition set_cur_input (s : sched) (output input : Z) : stream_status * sched :=
  let prev := cur_input (outp s output) in
  let s := if 0 <=? prev then
             if negb (prev =? input) && negb (at_eof (inp s prev))
             then add_to_ready_queue s prev else s
           else s in
  let s := if 0 <=? cur_input (outp s output)
           then upd_output s output (fun o => with_prev_input o (cur_input o)) else s in
  let s := upd_output s output (fun o => with_cur_input o input) in
  if input <? 0 then (STATUS_OK, s)
  else if prev =? input then (STATUS_OK, s)
  else
    let po := prev_output (inp s input) in
    let s := if negb (po =? INVALID_OUTPUT_ORDINAL) && negb (po =? output)
             then upd_output s output (fun o => incr_stat o SCHED_STAT_MIGRATIONS) else s in
    let s := upd_input s input (fun r => with_prev_output r output) in
    let t := cur_time (outp s output) in
    let s := upd_input s input (fun r => with_prev_time_in_quantum r t) in
    (STATUS_OK, s).

(** [mark_input_eof]. *)
Definition mark_input_eof (s : sched) (i : Z) : sched :=
  if at_eof (inp s i) then s
  else with_live_input_count (upd_input s i (fun r => with_at_eof r true))
         (live_input_count s - 1).

(** The loop of [eof_or_idle] moving the whole unscheduled queue to the
    ready queue. *)
Fixpoint flush_unscheduled (n : nat) (s : sched) : sched :=
  match n with
  | O => s
  | S n =>
      match pq_top s (unsched s) with
      | None => s
      | Some t =>
          let s := upd_input s t (fun r => with_unscheduled r false) in
          let s := with_ready s (ready s ++ [t]) in
          let s := with_unsched s (pq_erase t (unsched s)) in
          flush_unscheduled n s
      end
  end.

(** [eof_or_idle] for [MAP_TO_ANY_OUTPUT]. *)
Definition eof_or_idle (s : sched) (output prev_input : Z) : stream_status * sched :=
  if live_input_count s =? 0 then (STATUS_EOF, s)
  else
    let s :=
      if empty_list (ready s) && negb (empty_list (unsched s)) then
        if wait_start_time (outp s output) =? 0 then
          let t := get_output_time s output in
          upd_output s output (fun o => with_wait_start_time o t)
        else
          let now := get_output_time s output in
          let elapsed_micros :=
            dmul (double_of_u64 (u64_sub now (wait_start_time (outp s output))))
                 (time_units_per_us vo) in
          if dgt elapsed_micros (double_of_u64 (block_time_max_us vo)) then
            let s := add_log s vo log_flush_unscheduled in
            let s := flush_unscheduled (length (unsched s)) s in
            upd_output s output (fun o => with_wait_start_time o 0)
          else s
      else upd_output s output (fun o => with_wait_start_time o 0) in
    let s := upd_output s output (fun o => with_waiting o true) in
    let s := if negb (prev_input =? INVALID_INPUT_ORDINAL)
             then upd_output s output (fun o => incr_stat o SCHED_STAT_SWITCH_INPUT_TO_IDLE)
             else s in
    let '(_, s) := set_cur_input s output INVALID_INPUT_ORDINAL in
    (STATUS_IDLE, s).

(** The direct-switch step of [pick_next_input] for a pending
    [switch_to_input] of the previous input [prev_index]: the state and
    the chosen [index] ([-1] when none). *)
Definition direct_switch (s : sched) (output prev_index : Z) : sched * Z :=
  let target := switch_to_input (inp s prev_index) in
  let s := upd_input s prev_index (fun r => with_switch_to_input r INVALID_INPUT_ORDINAL) in
  let count_success (s : sched) :=
    let po := prev_output (inp s target) in
    let s := if negb (po =? INVALID_OUTPUT_ORDINAL) && negb (po =? output)
             then upd_output s output (fun o => incr_stat o SCHED_STAT_MIGRATIONS) else s in
    upd_output s output (fun o => incr_stat o SCHED_STAT_DIRECT_SWITCH_SUCCESSES) in
  if pq_find target (ready s) then
    let s := with_ready s (pq_erase target (ready s)) in
    let s := if 0 <? blocked_time (inp s target) then
               upd_input (with_num_blocked s (num_blocked s - 1)) target
                 (fun r => with_unscheduled (with_blocked_time r 0) false)
             else s in
    (count_success s, target)
  else if pq_find target (unsched s) then
    let s := upd_input s target (fun r => with_unscheduled r false) in
    let s := with_unsched s (pq_erase target (unsched s)) in
    (count_success s, target)
  else
    let s := add_log s vo (log_direct_switch_miss prev_index target) in
    let s := upd_input s target (fun r => with_skip_next_unscheduled r true) in
    (s, INVALID_INPUT_ORDINAL).

(** The end of [pick_next_input] once an input [index] is chosen. *)
Definition pick_finish (s : sched) (output prev_index index : Z) : stream_status * sched :=
  let k := if prev_index =? index then SCHED_STAT_SWITCH_NOP
           else if negb (prev_index =? INVALID_INPUT_ORDINAL) &&
                   negb (index =? INVALID_INPUT_ORDINAL)
           then SCHED_STAT_SWITCH_INPUT_TO_INPUT
           else if index =? INVALID_INPUT_ORDINAL then SCHED_STAT_SWITCH_INPUT_TO_IDLE
           else SCHED_STAT_SWITCH_IDLE_TO_INPUT in
  let s := upd_output s output (fun o => incr_stat o k) in
  let '(_, s) := set_cur_input s output index in
  (STATUS_OK, s).

(** The [while (true)] loop of [pick_next_input] for
    [MAP_TO_ANY_OUTPUT]: one round per candidate.  A round that does not
    return marks an input at EOF that was popped from the ready queue or
    is the previous input, so [pick_next_input] below gives enough rounds;
    running out of them is not a behaviour of the code. *)
Fixpoint pick_loop (n : nat) (s : sched) (output blocked_time prev_index : Z)
  : stream_status * sched :=
  match n with
  | O => (STATUS_INVALID, s)
  | S n =>
      let s :=
        if (0 <? blocked_time) && negb (prev_index =? INVALID_INPUT_ORDINAL) then
          if Sched.blocked_time (inp s prev_index) =? 0 then
            let t := get_output_time s output in
            upd_input s prev_index
              (fun r => with_blocked_start_time (with_blocked_time r blocked_time) t)
          else s
        else s in
      let '(s, index) :=
        if negb (prev_index =? INVALID_INPUT_ORDINAL) &&
           negb (switch_to_input (inp s prev_index) =? INVALID_INPUT_ORDINAL)
        then direct_switch s output prev_index
        else (s, INVALID_INPUT_ORDINAL) in
      let chosen : (stream_status * sched) + (sched * Z) :=
        if negb (index =? INVALID_INPUT_ORDINAL) then inr (s, index)
        else if empty_list (ready s) && (blocked_time =? 0) then
          if prev_index =? INVALID_INPUT_ORDINAL then inl (eof_or_idle s output prev_index)
          else if at_eof (inp s prev_index) then inl (eof_or_idle s output prev_index)
          else inr (s, prev_index)
        else
          let '(_, s) := set_cur_input s output INVALID_INPUT_ORDINAL in
          let '(status, s, queue_next) := pop_from_ready_queue s output in
          if negb (stream_status_eqb status STATUS_OK) then
            if stream_status_eqb status STATUS_IDLE then
              let s := upd_output s output (fun o => with_waiting o true) in
              let s := if negb (prev_index =? INVALID_INPUT_ORDINAL)
                       then upd_output s output
                              (fun o => incr_stat o SCHED_STAT_SWITCH_INPUT_TO_IDLE)
                       else s in
              inl (status, s)
            else inl (status, s)
          else
            match queue_next with
            | None => inl (eof_or_idle s output prev_index)
            | Some i => inr (s, i)
            end in
      match chosen with
      | inl res => res
      | inr (s, index) =>
          if at_eof (inp s index) || empty_list (reader_records (inp s index)) then
            let s := if at_eof (inp s index) then s else mark_input_eof s index in
            pick_loop n s output blocked_time prev_index
          else pick_finish s output prev_index index
      end
  end.

(** [pick_next_input] for [MAP_TO_ANY_OUTPUT]. *)
Definition pick_next_input (s : sched) (output blocked_time : Z) : stream_status * sched :=
  pick_loop (length (ready s) + length (inputs s) + 3) s output blocked_time
    (cur_input (outp s output)).

(** Where [next_record] stands once it has read a candidate record:
    it returned with a status, or the candidate passed the check of the
    time quantum against [prev_time_in_quantum] and [next_record]
    continues with the quantum accounting and the delivery. *)
Inductive nr_result :=
| NR_return (status : stream_status) (s : sched)
| NR_past_time_check (s : sched) (input : Z) (record : trace_record).

(** The part of the [while (true)] loop of [next_record] between the
    reading of a candidate record and the time-quantum check, for
    [QUANTUM_TIME].  The pre-read count, the end-of-syscall handling and
    [process_marker] that come in between neither return nor write
    [prev_time_in_quantum] and are not modelled. *)
Definition time_check (s : sched) (output now input : Z) (record : trace_record)
  : nr_result :=
  let s := if hit_switch_code_end (outp s output) then
             let s := upd_output s output
                        (fun o => with_hit_switch_code_end (with_in_context_switch_code o false) false) in
             upd_input s input (fun r => with_prev_time_in_quantum r now)
           else s in
  let start := prev_time_in_quantum (inp s input) in
  if (now =? 0) || (now <? start) then
    NR_return STATUS_INVALID (add_log s vo (log_invalid_time output now start))
  else NR_past_time_check s input record.

(** The reading part of the [while (true)] loop of [next_record]. *)
Fixpoint read_loop (n : nat) (s : sched) (output now input : Z) : nr_result :=
  match n with
  | O => NR_return STATUS_INVALID s
  | S n =>
      match queue (inp s input) with
      | record :: rest =>
          let s := upd_input s input (fun r => with_queue r rest) in
          time_check s output now input record
      | [] =>
          let r := inp s input in
          let s := if needs_advance r && negb (at_eof r)
                   then upd_input s input (fun r => with_reader_records r (tail (reader_records r)))
                   else upd_input s input (fun r => with_needs_advance r true) in
          let r := inp s input in
          match at_eof r, reader_records r with
          | false, record :: _ => time_check s output now input record
          | _, _ =>
              let s := if at_eof r then s else mark_input_eof s input in
              let '(res, s) := pick_next_input s output 0 in
              if negb (stream_status_eqb res STATUS_OK || stream_status_eqb res STATUS_SKIPPED)
              then NR_return res s
              else
                let input := cur_input (outp s output) in
                let s := if stream_status_eqb res STATUS_SKIPPED
                         then upd_input s input (fun r => with_needs_advance r false) else s in
                read_loop n s output now input
          end
      end
  end.

(** [next_record] for [MAP_TO_ANY_OUTPUT] with [QUANTUM_TIME], up to and
    including the time-quantum check.  [wall_clock] is the value
    [get_time_micros()] returns. *)
Definition next_record_time (s : sched) (output cur_time_arg : Z) : nr_result :=
  let now := if cur_time_arg =? 0 then wall_clock s else cur_time_arg in
  let s := upd_output s output (fun o => with_cur_time o now) in
  if negb (active (outp s output)) then NR_return STATUS_IDLE s
  else
    let w : (stream_status * sched) + sched :=
      if waiting (outp s output) then
        let '(res, s) := pick_next_input s output 0 in
        if negb (stream_status_eqb res STATUS_OK || stream_status_eqb res STATUS_SKIPPED)
        then inl (res, s)
        else inr (upd_output s output (fun o => with_waiting o false))
      else inr s in
    match w with
    | inl (res, s) => NR_return res s
    | inr s =>
        if cur_input (outp s output) <? 0 then
          let '(res, s) := eof_or_idle s output (cur_input (outp s output)) in
          NR_return res s
        else
          let input := cur_input (outp s output) in
          let s := if prev_time_in_quantum (inp s input) =? 0
                   then upd_input s input (fun r => with_prev_time_in_quantum r now) else s in
          if speculating (outp s output) then
            if speculation_error (outp s output)
            then NR_return STATUS_INVALID (add_log s vo (log_speculation_failed output))
            else NR_return STATUS_OK s
          else read_loop (S (length (inputs s))) s output now input
    end.

End Dispatch.

End Sched.

(** * Quantum accounting in instructions *)

Module Quantum.

(** [++] on a [uint64_t] counter. *)
Definition u64_inc (c : Z) : Z := (c + 1) mod two64.

(** The instruction-quantum step of [next_record] for
    [MAP_TO_ANY_OUTPUT] with [QUANTUM_INSTRUCTIONS], on a candidate
    record of the current input: [boundary] is
    [record_type_is_instr_boundary(record, last_record)], [in_kernel_code]
    the output's flag, [instrs] the input's [instrs_in_quantum] and
    [preempts] the output's quantum-preempt statistic.  The result is the
    new counter, the new statistic and [preempt]. *)
Definition charge_instr_quantum (quantum_duration_instrs : Z)
  (boundary in_kernel_code : bool) (instrs preempts : Z) : Z * Z * bool :=
  if boundary && negb in_kernel_code then
    let instrs := u64_inc instrs in
    if quantum_duration_instrs <? instrs then (0, preempts + 1, true)
    else (instrs, preempts, false)
  else (instrs, preempts, false).

(** The correction [next_record] applies to the outgoing input
    [prev_input] once [pick_next_input] has switched the output to a
    different input ([outputs_[output].cur_input != prev_input]). *)
Definition undo_instr_quantum (preempt boundary : bool) (instrs : Z) : Z :=
  if negb preempt && boundary then u64_dec instrs else instrs.

(** One candidate record through [next_record]: [need_syscall] is
    [need_new_input] as set by the end-of-syscall handling before the
    quantum step, and [switched] tells whether the [pick_next_input]
    that a needed new input triggers moves the output to another input.
    The result is the outgoing input's counter, the statistic,
    [need_new_input] and [preempt].  [switched] covers the case where
    [pick_next_input] returned [STATUS_OK], [STATUS_WAIT] or
    [STATUS_SKIPPED] (any other status makes [next_record] return before
    the correction). *)
Definition instr_quantum_step (quantum_duration_instrs : Z)
  (need_syscall boundary in_kernel_code switched : bool) (instrs preempts : Z)
  : Z * Z * bool * bool :=
  let '(instrs, preempts, preempt) :=
    charge_instr_quantum quantum_duration_instrs boundary in_kernel_code instrs preempts in
  let need_new_input := need_syscall || preempt in
  let instrs := if need_new_input && switched
                then undo_instr_quantum preempt boundary instrs else instrs in
  (instrs, preempts, need_new_input, preempt).

End Quantum.

(** * Unreading and speculation: [unread_last_record],
    [start_speculation] and [stop_speculation] *)

Module Stream.

(** A record held by an output: a trace record, or the record made by
    [create_invalid_record] (type [TRACE_TYPE_INVALID]). *)
Inductive memref :=
| mr_record (r : trace_record)
| mr_invalid.

(** [record_type_is_invalid]. *)
Definition record_type_is_invalid (r : memref) : bool :=
  match r with mr_invalid => true | _ => false end.

(** [create_invalid_record]. *)
Definition create_invalid_record : memref := mr_invalid.

(** [type_is_instr(record.instr.type)]. *)
Definition record_type_is_instr (r : memref) : bool :=
  match r with mr_record r => record_type_is_instr r | mr_invalid => false end.

(** The fields of [output_info_t] these functions use.  The
    [std::stack] [speculation_stack] is a list whose head is [top()]. *)
Record output_info := {
  cur_input : Z;
  last_record : memref;
  speculation_stack : list Z;
  speculate_pc : Z;
  prev_speculate_pc : Z
}.

(** The fields of [input_info_t] these functions use. *)
Record input_info := {
  queue : list memref;
  instrs_in_quantum : Z
}.

Definition with_last_record (o : output_info) (r : memref) : output_info :=
  {| cur_input := cur_input o; last_record := r;
     speculation_stack := speculation_stack o; speculate_pc := speculate_pc o;
     prev_speculate_pc := prev_speculate_pc o |}.

Definition with_speculation_stack (o : output_info) (st : list Z) : output_info :=
  {| cur_input := cur_input o; last_record := last_record o;
     speculation_stack := st; speculate_pc := speculate_pc o;
     prev_speculate_pc := prev_speculate_pc o |}.

Definition with_speculate_pc (o : output_info) (pc : Z) : output_info :=
  {| cur_input := cur_input o; last_record := last_record o;
     speculation_stack := speculation_stack o; speculate_pc := pc;
     prev_speculate_pc := prev_speculate_pc o |}.

Definition with_prev_speculate_pc (o : output_info) (pc : Z) : output_info :=
  {| cur_input := cur_input o; last_record := last_record o;
     speculation_stack := speculation_stack o; speculate_pc := speculate_pc o;
     prev_speculate_pc := pc |}.

(** [inputs_[i].queue.push_back(r)]. *)
Definition push_to_input (ins : list input_info) (i : Z) (r : memref) : list input_info :=
  match ins !! Z.to_nat i with
  | Some x => <[Z.to_nat i := {| queue := queue x ++ [r];
                                 instrs_in_quantum := instrs_in_quantum x |}]> ins
  | None => ins
  end.

(** [--inputs_[i].instrs_in_quantum]. *)
Definition dec_instrs_in_quantum (ins : list input_info) (i : Z) : list input_info :=
  match ins !! Z.to_nat i with
  | Some x => <[Z.to_nat i := {| queue := queue x;
                                 instrs_in_quantum := u64_dec (instrs_in_quantum x) |}]> ins
  | None => ins
  end.

(** [scheduler_tmpl_t::unread_last_record] on the output [o] and the
    inputs [ins]; [quantum_instrs] tells whether [quantum_unit] is
    [QUANTUM_INSTRUCTIONS].  The result also holds the record handed
    back through the [record] out-parameter. *)
Definition unread_last_record (quantum_instrs : bool) (o : output_info)
  (ins : list input_info) : stream_status * output_info * list input_info * memref :=
  if record_type_is_invalid (last_record o) then (STATUS_INVALID, o, ins, mr_invalid)
  else if negb (Sched.empty_list (speculation_stack o)) then (STATUS_INVALID, o, ins, mr_invalid)
  else
    let record := last_record o in
    let ins := push_to_input ins (cur_input o) record in
    let ins := if quantum_instrs && record_type_is_instr record
               then dec_instrs_in_quantum ins (cur_input o) else ins in
    (STATUS_OK, with_last_record o create_invalid_record, ins, record).

(** [SPECULATION_OUTER_ADDRESS]. *)
Definition SPECULATION_OUTER_ADDRESS : Z := 0.

(** [scheduler_tmpl_t::start_speculation]. *)
Definition start_speculation (o : output_info) (ins : list input_info)
  (start_address : Z) (queue_current_record : bool)
  : stream_status * output_info * list input_info :=
  let pushed : option (output_info * list input_info) :=
    if Sched.empty_list (speculation_stack o) then
      if queue_current_record then
        if record_type_is_invalid (last_record o) then None
        else Some (with_speculation_stack o (SPECULATION_OUTER_ADDRESS :: speculation_stack o),
                   push_to_input ins (cur_input o) (last_record o))
      else Some (with_speculation_stack o (SPECULATION_OUTER_ADDRESS :: speculation_stack o), ins)
    else if queue_current_record
    then Some (with_speculation_stack o (prev_speculate_pc o :: speculation_stack o), ins)
    else Some (with_speculation_stack o (speculate_pc o :: speculation_stack o), ins) in
  match pushed with
  | None => (STATUS_INVALID, o, ins)
  | Some (o, ins) =>
      let o := with_prev_speculate_pc o (speculate_pc o) in
      (STATUS_OK, with_speculate_pc o start_address, ins)
  end.

(** [scheduler_tmpl_t::stop_speculation]. *)
Definition stop_speculation (o : output_info) : stream_status * output_info :=
  match speculation_stack o with
  | [] => (STATUS_INVALID, o)
  | top :: rest =>
      let o := if (1 <? length (speculation_stack o))%nat then with_speculate_pc o top else o in
      (STATUS_OK, with_speculation_stack o rest)
  end.

End Stream.


(** * Closing and skipping in the recorded schedule *)

Module Recording.

(** The fields of [input_info_t] that [close_schedule_segment] reads or
    writes: the reader's instruction ordinal, [instrs_pre_read],
    [at_eof], whether [*reader == *reader_end], and
    [switching_pre_instruction]. *)
Record input_info := {
  reader_instr : Z;
  instrs_pre_read : Z;
  at_eof : bool;
  reader_at_end : bool;
  switching_pre_instruction : bool
}.

Definition clear_switching_pre_instruction (i : input_info) : input_info :=
  {| reader_instr := reader_instr i; instrs_pre_read := instrs_pre_read i;
     at_eof := at_eof i; reader_at_end := reader_at_end i;
     switching_pre_instruction := false |}.

(** [get_instr_ordinal]. *)
Definition get_instr_ordinal (i : input_info) : Z :=
  u64_sub (reader_instr i) (instrs_pre_read i).

(** [close_schedule_segment] with the stop ordinal computed from the
    input: [now] is [get_time_micros()]. *)
Definition close_schedule_segment (log : list Record.schedule_record) (now : Z)
  (input : input_info) : stream_status * list Record.schedule_record * input_info :=
  match Record.back log with
  | None => (STATUS_OK, log, input)
  | Some b =>
      match Record.type b with
      | Record.SKIP | Record.IDLE =>
          let '(st, log) := Record.close_schedule_segment log now 0 in (st, log, input)
      | _ =>
          let instr_ord := get_instr_ordinal input in
          let instr_ord := if at_eof input || reader_at_end input then u64_max else instr_ord in
          let '(instr_ord, input) :=
            if switching_pre_instruction input
            then ((instr_ord + 1) mod two64, clear_switching_pre_instruction input)
            else (instr_ord, input) in
          let '(st, log) := Record.close_schedule_segment log now instr_ord in
          (st, log, input)
      end
  end.

Definition is_default (t : Record.record_type) : bool :=
  match t with Record.DEFAULT => true | _ => false end.

Section RecordScheduleSkip.

(** The default value of the [stop_instruction] parameter of
    [record_schedule_segment], declared in [scheduler.h]. *)
Variable default_stop_instruction : Z.

(** [record_schedule_skip] on an output's log [log]; [recording] tells
    whether [schedule_record_ostream] is set, [inp] is
    [inputs_[input]], and [t0] to [t3] are the values of
    [get_time_micros()] read by the successive calls.  The model of
    [record_schedule_segment] and [close_schedule_segment] always
    returns [STATUS_OK], so their status checks never return. *)
Definition record_schedule_skip (recording : bool) (log : list Record.schedule_record)
  (inp : input_info) (t0 t1 t2 t3 : Z) (input start_instruction stop_instruction : Z)
  : stream_status * list Record.schedule_record * input_info :=
  if negb recording then (STATUS_INVALID, log, inp)
  else
    let '(log, inp) :=
      match Record.back log with
      | Some b =>
          if is_default (Record.type b) && (Record.key_input b =? input) then
            let '(_, log, inp) := close_schedule_segment log t0 inp in (log, inp)
          else (log, inp)
      | None => (log, inp)
      end in
    let log := if (length log =? 1)%nat
               then snd (Record.record_schedule_segment log t1 Record.DEFAULT input 0 0)
               else log in
    let log := snd (Record.record_schedule_segment log t2 Record.SKIP input
                      start_instruction stop_instruction) in
    let log := snd (Record.record_schedule_segment log t3 Record.DEFAULT input
                      stop_instruction default_stop_instruction) in
    (STATUS_OK, log, inp).

End RecordScheduleSkip.

End Recording.


(** * Replaying the traced schedule: [read_traced_schedule],
    [check_and_fix_modulo_problem_in_schedule],
    [remove_zero_instruction_segments], [time_tree_lookup] and
    [create_regions_from_times] *)

Module Traced.

(** [schedule_entry_t], one record of the as-traced [cpu_schedule]
    file. *)
Module Entry.
Record schedule_entry_t := mk {
  thread : Z;
  timestamp : Z;
  cpu : Z;
  start_instruction : Z
}.
End Entry.

(** [schedule_input_tracker_t]: an entry of [input_sched[input]]. *)
Module Tracker.
Record schedule_input_tracker_t := mk {
  output : Z;
  output_array_idx : Z;
  start_instruction : Z;
  timestamp : Z
}.
End Tracker.

(** [schedule_output_tracker_t]: an entry of [all_sched[output]]. *)
Module Segment.
Record schedule_output_tracker_t := mk {
  valid : bool;
  input : Z;
  start_instruction : Z;
  timestamp : Z
}.
End Segment.

(** [range_t]: a range of instruction ordinals (a stop of [0] is the
    end of the input). *)
Module Range.
Record range_t := mk {
  start_instruction : Z;
  stop_instruction : Z
}.
End Range.

(** [timestamp_range_t], an entry of [times_of_interest]. *)
Record timestamp_range_t := {
  start_timestamp : Z;
  stop_timestamp : Z
}.

(** A [std::map<uint64_t, uint64_t>] (and the [std::unordered_map]
    [tid2input]): its entries by increasing key. *)
Definition map_t := list (Z * Z).

(** [m[key] = value]. *)
Fixpoint map_assign (key value : Z) (m : map_t) : map_t :=
  match m with
  | [] => [(key, value)]
  | (k, v) :: rest =>
      if key =? k then (key, value) :: rest
      else if key <? k then (key, value) :: m
      else (k, v) :: map_assign key value rest
  end.

(** [m.find(key)]. *)
Fixpoint map_find (key : Z) (m : map_t) : option Z :=
  match m with
  | [] => None
  | (k, v) :: rest => if key =? k then Some v else map_find key rest
  end.

(** [m[key]] read through [operator[]]: [0] for a missing key. *)
Definition map_get (key : Z) (m : map_t) : Z := from_option id 0 (map_find key m).

(** The loop of [read_traced_schedule] building [tid2input] from the
    inputs' thread ids, in input order. *)
Definition build_tid2input (tids : list Z) : map_t :=
  fst (fold_left (fun '(m, i) t => (map_assign t i m, i + 1)) tids ([], 0)).

(** The state of the reading loop of [read_traced_schedule]. *)
Record read_state := {
  cur_output : Z;
  cur_cpu : Z;
  all_sched : list (list Segment.schedule_output_tracker_t);
  input_sched : list (list Tracker.schedule_input_tracker_t);
  disk_ord2cpuid : list Z;
  disk_ord2index : list Z
}.

(** [all_sched.resize(n)] for a larger [n]. *)
Definition resize {A} (l : list (list A)) (n : nat) : list (list A) :=
  l ++ repeat [] (n - length l).

(** [v[i].emplace_back(x)]. *)
Definition push_at {A} (l : list (list A)) (i : Z) (x : A) : list (list A) :=
  match l !! Z.to_nat i with
  | Some li => <[Z.to_nat i := li ++ [x]]> l
  | None => l
  end.

(** The start of one round of the reading loop of
    [read_traced_schedule] for the entry [e]: the error, or the new
    [(cur_output, cur_cpu)] once a change of cpu has been handled.
    [output_limit] is [Some (outputs_.size())] when the mapping is
    [MAP_TO_RECORDED_OUTPUT] and [outputs_] is not empty, [None]
    otherwise. *)
Definition read_cpu_switch (output_limit : option Z) (st : read_state)
  (e : Entry.schedule_entry_t) : string + (Z * Z) :=
  if negb (Entry.cpu e =? cur_cpu st) then
    let cur := if negb (cur_cpu st =? u64_max) then cur_output st + 1 else cur_output st in
    match output_limit with
    | Some n =>
        if negb (cur_cpu st =? u64_max) && (n <=? cur)
        then inl "replay_as_traced_istream cpu count != output count"%string
        else inr (cur, Entry.cpu e)
    | None => inr (cur, Entry.cpu e)
    end
  else inr (cur_output st, cur_cpu st).

(** The rest of the round, with [cur_output = cur] and [cur_cpu = cpu]:
    the entry is skipped when it repeats the input and start of the last
    segment of the output, and added to [all_sched[cur]] and
    [input_sched[input]] otherwise.  The set [start2stop] it also fills
    is not modelled (it is rebuilt or unused afterwards). *)
Definition read_add_segment (tid2input : map_t) (st : read_state)
  (e : Entry.schedule_entry_t) (cur cpu : Z) : read_state :=
  let ord2cpu := if negb (Entry.cpu e =? cur_cpu st)
                 then disk_ord2cpuid st ++ [cpu] else disk_ord2cpuid st in
  let ord2idx := if negb (Entry.cpu e =? cur_cpu st)
                 then disk_ord2index st ++ [cur] else disk_ord2index st in
  let input := map_get (Entry.thread e) tid2input in
  let start := Entry.start_instruction e in
  let timestamp := Entry.timestamp e in
  let sched := if (length (all_sched st) <? Z.to_nat (cur + 1))%nat
               then resize (all_sched st) (Z.to_nat (cur + 1)) else all_sched st in
  let out := from_option id [] (sched !! Z.to_nat cur) in
  let dup := match last out with
             | Some b => (input =? Segment.input b) && (start =? Segment.start_instruction b)
             | None => false
             end in
  if dup then
    {| cur_output := cur; cur_cpu := cpu; all_sched := sched;
       input_sched := input_sched st; disk_ord2cpuid := ord2cpu;
       disk_ord2index := ord2idx |}
  else
    let sched := push_at sched cur (Segment.mk true input start timestamp) in
    let idx := Z.of_nat (length (from_option id [] (sched !! Z.to_nat cur))) - 1 in
    let isched := push_at (input_sched st) input (Tracker.mk cur idx start timestamp) in
    {| cur_output := cur; cur_cpu := cpu; all_sched := sched;
       input_sched := isched; disk_ord2cpuid := ord2cpu;
       disk_ord2index := ord2idx |}.

(** One round of the reading loop of [read_traced_schedule] for the
    entry [e]. *)
Definition read_step (output_limit : option Z) (tid2input : map_t) (st : read_state)
  (e : Entry.schedule_entry_t) : string + read_state :=
  match read_cpu_switch output_limit st e with
  | inl err => inl err
  | inr (cur, cpu) => inr (read_add_segment tid2input st e cur cpu)
  end.

(** The reading loop of [read_traced_schedule] over the file's entries,
    from [cur_output = 0] and [cur_cpu] the maximal [uint64_t]. *)
Fixpoint read_loop (output_limit : option Z) (tid2input : map_t) (st : read_state)
  (entries : list Entry.schedule_entry_t) : string + read_state :=
  match entries with
  | [] => inr st
  | e :: rest =>
      match read_step output_limit tid2input st e with
      | inl err => inl err
      | inr st => read_loop output_limit tid2input st rest
      end
  end.

Definition read_traced_entries (output_limit : option Z) (tids : list Z)
  (entries : list Entry.schedule_entry_t) : string + read_state :=
  read_loop output_limit (build_tid2input tids)
    {| cur_output := 0; cur_cpu := u64_max; all_sched := [];
       input_sched := repeat [] (length tids); disk_ord2cpuid := [];
       disk_ord2index := [] |} entries.

(** [DEFAULT_CHUNK_SIZE] of [check_and_fix_modulo_problem_in_schedule]. *)
Definition DEFAULT_CHUNK_SIZE : Z := 10 * 1000 * 1000.

Definition with_start (t : Tracker.schedule_input_tracker_t) (v : Z)
  : Tracker.schedule_input_tracker_t :=
  Tracker.mk (Tracker.output t) (Tracker.output_array_idx t) v (Tracker.timestamp t).

(** The walk of [check_and_fix_modulo_problem_in_schedule] over one
    input's [input_sched], once sorted by timestamp: the error string,
    or the adjusted entries, [timestamp2adjust[input_idx]] (as a list of
    pairs in insertion order) and [found_i6107]. *)
Fixpoint modulo_walk (prev_start add_to_start : Z) (in_order found_i6107 : bool)
  (timestamp2adjust : list (Z * Z)) (l : list Tracker.schedule_input_tracker_t)
  : string + (list Tracker.schedule_input_tracker_t * list (Z * Z) * bool) :=
  match l with
  | [] => inr ([], timestamp2adjust, found_i6107)
  | sched :: rest =>
      let r :=
        if Tracker.start_instruction sched <? prev_start then
          if DEFAULT_CHUNK_SIZE <? (prev_start * 2) mod two64 then
            inr ((add_to_start + DEFAULT_CHUNK_SIZE) mod two64,
                 false, if in_order then true else found_i6107)
          else inl "Invalid decreasing start field in schedule file"%string
        else inr (add_to_start, in_order, found_i6107) in
      match r with
      | inl err => inl err
      | inr (add_to_start, in_order, found_i6107) =>
          if existsb (fun p => fst p =? Tracker.timestamp sched) timestamp2adjust
          then inl "Same timestamps not supported for i#6107 workaround"%string
          else
            let adjusted := (Tracker.start_instruction sched + add_to_start) mod two64 in
            match modulo_walk (Tracker.start_instruction sched) add_to_start in_order
                    found_i6107
                    (timestamp2adjust ++ [(Tracker.timestamp sched, adjusted)]) rest with
            | inl err => inl err
            | inr (l', t2a, f) => inr (with_start sched adjusted :: l', t2a, f)
            end
      end
  end.

Definition fix_modulo_input (l : list Tracker.schedule_input_tracker_t)
  : string + (list Tracker.schedule_input_tracker_t * list (Z * Z) * bool) :=
  modulo_walk 0 0 true false [] l.

(** The inner loop of [remove_zero_instruction_segments] over one
    input's [input_sched], once sorted by timestamp: the positions
    [(output, output_array_idx)] of the [all_sched] entries it marks
    invalid.  [prev] is [input_sched[input_idx][i - 1]] ([None] for
    [i = 0]). *)
Fixpoint zero_segments_loop (prev : option Tracker.schedule_input_tracker_t)
  (prev_start : Z) (l : list Tracker.schedule_input_tracker_t) : list (Z * Z) :=
  match l with
  | [] => []
  | sched :: rest =>
      let start := Tracker.start_instruction sched in
      let dropped :=
        match prev with
        | Some p => if start =? prev_start
                    then [(Tracker.output p, Tracker.output_array_idx p)] else []
        | None => []
        end in
      dropped ++ zero_segments_loop (Some sched) start rest
  end.

Definition zero_segments_input (l : list Tracker.schedule_input_tracker_t) : list (Z * Z) :=
  zero_segments_loop None 0 l.

(** The loop of [create_regions_from_times] filling [time_tree[input]]
    from [input_sched[input]]. *)
Definition build_time_tree (sched : list Tracker.schedule_input_tracker_t) : map_t :=
  fold_left (fun m s => map_assign (Tracker.timestamp s) (Tracker.start_instruction s) m)
    sched [].

(** [tree.upper_bound(time)]: the position of the first entry whose key
    is greater than [time]. *)
Fixpoint upper_bound (tree : map_t) (time : Z) : nat :=
  match tree with
  | [] => O
  | (k, _) :: rest => if time <? k then O else S (upper_bound rest time)
  end.

(** Division and addition of doubles. *)
Definition ddiv (x y : double) : double := SFdiv prec64 emax64 x y.
Definition dadd (x y : double) : double := SFadd prec64 emax64 x y.

(** The keys of a map are strictly increasing, as in a [std::map]. *)
Fixpoint keys_increasing (m : map_t) : bool :=
  match m with
  | (k1, _) :: (((k2, _) :: _) as rest) => (k1 <? k2) && keys_increasing rest
  | _ => true
  end.

(** [time_tree_lookup]: the interpolated ordinal ([None] when it
    returns [false]). *)
Definition time_tree_lookup (tree : map_t) (time : Z) : option Z :=
  let it := upper_bound tree time in
  if (it =? 0)%nat || (it =? length tree)%nat then None
  else
    match tree !! it, tree !! (it - 1)%nat with
    | Some (upper_time, upper_ord), Some (lower_time, lower_ord) =>
        let fraction := ddiv (double_of_u64 (u64_sub time lower_time))
                             (double_of_u64 (u64_sub upper_time lower_time)) in
        let interpolate := dadd (double_of_u64 lower_ord)
                                (dmul fraction (double_of_u64 (u64_sub upper_ord lower_ord))) in
        Some (u64_of_double interpolate)
    | _, _ => None
    end.

(** The loop over [workload.times_of_interest] in
    [create_regions_from_times] for one thread whose time tree is
    [tree]: [None] for the error return, else the ranges and
    [entire_tid]. *)
Fixpoint times_loop (tree : map_t) (times : list timestamp_range_t)
  (instr_ranges : list Range.range_t) (entire_tid : bool)
  : option (list Range.range_t * bool) :=
  match times with
  | [] => Some (instr_ranges, entire_tid)
  | t :: rest =>
      let '(has_start, instr_start) :=
        match time_tree_lookup tree (start_timestamp t) with
        | Some o => (true, o) | None => (false, 0) end in
      let '(has_end, instr_end) :=
        if stop_timestamp t =? 0 then (true, 0)
        else match time_tree_lookup tree (stop_timestamp t) with
             | Some o => (true, o) | None => (false, 0) end in
      let '(entire_tid, instr_end) :=
        if has_start && has_end && (instr_start =? instr_end) then
          if (instr_start =? 0) && (instr_end =? 0) then (true, instr_end)
          else (entire_tid, (instr_end + 1) mod two64)
        else (entire_tid, instr_end) in
      if (0 <? instr_start) || (0 <? instr_end) then
        match last instr_ranges with
        | Some b =>
            if (instr_start <=? Range.stop_instruction b) || (Range.stop_instruction b =? 0)
            then None
            else times_loop tree rest (instr_ranges ++ [Range.mk instr_start instr_end]) entire_tid
        | None => times_loop tree rest (instr_ranges ++ [Range.mk instr_start instr_end]) entire_tid
        end
      else times_loop tree rest instr_ranges entire_tid
  end.

(** The body of the loop over [workload_tids] in
    [create_regions_from_times] for one thread: [None] for the error
    return, [Some None] when the whole thread is kept (no modifier), and
    [Some (Some rs)] when a thread modifier with the ranges [rs] is
    added. *)
Definition tid_regions (tree : map_t) (times : list timestamp_range_t)
  : option (option (list Range.range_t)) :=
  match times_loop tree times [] false with
  | None => None
  | Some (rs, entire_tid) =>
      let rs := if negb entire_tid && Sched.empty_list rs
                then rs ++ [Range.mk u64_max 0] else rs in
      Some (if entire_tid then None else Some rs)
  end.

End Traced.


(** * Regions of interest: [advance_region_of_interest] *)

Module ROI.

Section AdvanceRegion.

(** The input's trace reader, as for [skip_instructions], with its
    [get_instruction_ordinal()]. *)
Variable reader : Type.
Variable reader_init : reader -> reader.
Variable reader_skip_instructions : reader -> Z -> reader.
Variable reader_at_end : reader -> bool.
Variable reader_instruction_ordinal : reader -> Z.

(** [create_thread_exit(tid)]: a thread-exit record (neither an
    instruction, an encoding nor a marker). *)
Definition create_thread_exit (tid : Z) : trace_record := rec_other tid.

(** [get_instr_ordinal(input)]. *)
Definition get_instr_ordinal (i : Skip.input_info reader) : Z :=
  u64_sub (reader_instruction_ordinal (Skip.rdr reader i)) (Skip.instrs_pre_read reader i).

(** [++input.cur_region; input.in_cur_region = false;]. *)
Definition next_region (i : Skip.input_info reader) : Skip.input_info reader :=
  {| Skip.queue := Skip.queue reader i; Skip.rdr := Skip.rdr reader i;
     Skip.needs_init := Skip.needs_init reader i;
     Skip.instrs_pre_read := Skip.instrs_pre_read reader i;
     Skip.at_eof := Skip.at_eof reader i; Skip.in_cur_region := false;
     Skip.cur_region := Skip.cur_region reader i + 1; Skip.tid := Skip.tid reader i |}.

(** What [advance_region_of_interest] returns: a status, or the result of
    the call [eof_or_idle(output, false, input.index)] (whose scheduler
    state is not part of this model). *)
Inductive roi_outcome :=
| roi_status (s : stream_status)
| roi_eof_or_idle.

(** The part of [advance_region_of_interest] after the end of the
    current range has been handled, with [cur_range] the range now
    referenced. *)
Definition roi_enter (cur_range : Traced.Range.range_t) (cur_instr cur_reader_instr : Z)
  (regions : list Traced.Range.range_t) (i : Skip.input_info reader) (live : Z) (record : trace_record)
  : roi_outcome * Skip.input_info reader * list Traced.Range.range_t * Z * trace_record :=
  if negb (Skip.in_cur_region reader i) &&
     (Traced.Range.start_instruction cur_range <=? cur_instr) then
    let i := Skip.set_in_cur_region reader i in
    if 0 <? Skip.cur_region reader i then
      (roi_status STATUS_OK, Skip.set_queue reader i (Skip.queue reader i ++ [record]),
       regions, live,
       create_region_separator_marker (Skip.tid reader i) (Skip.cur_region reader i))
    else (roi_status STATUS_OK, i, regions, live, record)
  else if Skip.in_cur_region reader i &&
          (u64_sub (Traced.Range.start_instruction cur_range) 1 <=? cur_instr) then
    (roi_status STATUS_OK, i, regions, live, record)
  else if Traced.Range.start_instruction cur_range <? cur_reader_instr then
    (roi_status STATUS_INVALID, i, regions, live, record)
  else
    let '(s, i, live) :=
      Skip.skip_instructions reader reader_init reader_skip_instructions reader_at_end i live
        (u64_sub (u64_sub (Traced.Range.start_instruction cur_range) cur_reader_instr) 1) in
    (roi_status s, i, regions, live, record).

(** [advance_region_of_interest] when no schedule is being recorded
    ([schedule_record_ostream == nullptr]): the outcome, the input, its
    [regions_of_interest], [live_input_count_] and [record].  [cur_range]
    is a reference to [regions_of_interest[cur_region]]: moving to the
    next region assigns that region to the slot of the previous one. *)
Definition advance_region_of_interest (regions : list Traced.Range.range_t) (i : Skip.input_info reader)
  (live : Z) (record : trace_record)
  : roi_outcome * Skip.input_info reader * list Traced.Range.range_t * Z * trace_record :=
  let cur_instr := get_instr_ordinal i in
  let cur_reader_instr := reader_instruction_ordinal (Skip.rdr reader i) in
  let slot := Z.to_nat (Skip.cur_region reader i) in
  let cur_range := from_option id (Traced.Range.mk 0 0) (regions !! slot) in
  if Skip.in_cur_region reader i &&
     negb (Traced.Range.stop_instruction cur_range =? 0) &&
     (Traced.Range.stop_instruction cur_range <? cur_instr) then
    let i := next_region i in
    if Z.of_nat (length regions) <=? Skip.cur_region reader i then
      if Skip.at_eof reader i then (roi_eof_or_idle, i, regions, live, record)
      else
        let i := Skip.set_queue reader i
                   (Skip.queue reader i ++ [create_thread_exit (Skip.tid reader i)]) in
        let '(i, live) := Skip.mark_input_eof reader i live in
        (roi_status STATUS_SKIPPED, i, regions, live, record)
    else
      let cur_range := from_option id (Traced.Range.mk 0 0)
                         (regions !! Z.to_nat (Skip.cur_region reader i)) in
      let regions := <[slot := cur_range]> regions in
      roi_enter cur_range cur_instr cur_reader_instr regions i live record
  else roi_enter cur_range cur_instr cur_reader_instr regions i live record.

End AdvanceRegion.

End ROI.


(** * Properties *)

(** ** Helper lemmas *)

Lemma u64_sub_small (a b : Z) : 0 <= b <= a -> a < two64 -> u64_sub a b = a - b.
Proof. intros H1 H2. unfold u64_sub. apply Z.mod_small. lia. Qed.

(** ** C1 *)

(** Claim C1: once a syscall has ended, [syscall_incurs_switch] decides as
    specified.  For a trace older than the frequent-timestamp version it
    returns whether the syscall was maybe-blocking and sets the blocked
    time to [blocking_switch_threshold]; otherwise (with the asserted
    [0 < pre_syscall_timestamp <= post timestamp]) the latency is
    [post - pre], the threshold is [blocking_switch_threshold] for a
    maybe-blocking syscall and [syscall_switch_threshold] otherwise, the
    blocked time is [scale_blocked_time latency], and the result is
    [latency >= threshold]. *)
Theorem syscall_incurs_switch_decision (V : Z) (o : block_options) (input : syscall_input) :
  processing_syscall input || processing_maybe_blocking_syscall input = true ->
  (reader_version input < V ->
   syscall_incurs_switch V o input =
     (processing_maybe_blocking_syscall input, blocking_switch_threshold o)) /\
  (V <= reader_version input ->
   0 < pre_syscall_timestamp input <= reader_last_timestamp input ->
   reader_last_timestamp input < two64 ->
   let latency := reader_last_timestamp input - pre_syscall_timestamp input in
   let threshold := if processing_maybe_blocking_syscall input
                    then blocking_switch_threshold o else syscall_switch_threshold o in
   syscall_incurs_switch V o input =
     (latency >=? threshold, scale_blocked_time o latency)).
Proof.
  intros _. unfold syscall_incurs_switch. split.
  - intros Hv. apply Z.ltb_lt in Hv. now rewrite Hv.
  - intros Hv Hpre Hmax. cbv zeta.
    assert (Hv' : (reader_version input <? V) = false) by (apply Z.ltb_ge; lia).
    rewrite Hv'. rewrite u64_sub_small by lia.
    f_equal. symmetry. apply Z.geb_leb.
Qed.

Lemma syscall_incurs_switch_decision_witness :
  let o := {| block_time_multiplier := double_of_u64 1; block_time_max_us := 100;
              time_units_per_us := double_of_u64 10;
              blocking_switch_threshold := 50; syscall_switch_threshold := 500 |} in
  let input := {| processing_syscall := true; processing_maybe_blocking_syscall := true;
                  pre_syscall_timestamp := 1000; reader_last_timestamp := 1070;
                  reader_version := 6 |} in
  syscall_incurs_switch 6 o input = (true, 700) /\
  syscall_incurs_switch 6 o input =
    (70 >=? 50, scale_blocked_time o 70).
Proof.
  intros o input. split.
  - vm_compute. reflexivity.
  - refine (proj2 (syscall_incurs_switch_decision 6 o input eq_refl) _ _ _);
      cbn; unfold two64; lia.
Defined.

(** ** C5 *)

Lemma has_consecutive_idle_snoc (l : list Record.schedule_record) (x : Record.schedule_record) :
  Record.has_consecutive_idle (l ++ [x]) =
  Record.has_consecutive_idle l ||
  match last l with
  | Some y => Record.is_idle (Record.type y) && Record.is_idle (Record.type x)
  | None => false
  end.
Proof.
  induction l as [|a l IH]; [reflexivity|].
  destruct l as [|b l].
  - simpl. now rewrite orb_false_r.
  - change ((a :: b :: l) ++ [x]) with (a :: b :: (l ++ [x])).
    change (Record.has_consecutive_idle (a :: b :: (l ++ [x]))) with
      ((Record.is_idle (Record.type a) && Record.is_idle (Record.type b))
       || Record.has_consecutive_idle (b :: l ++ [x])).
    change ((b :: l) ++ [x]) with (b :: l ++ [x]) in IH. rewrite IH.
    change (Record.has_consecutive_idle (a :: b :: l)) with
      ((Record.is_idle (Record.type a) && Record.is_idle (Record.type b))
       || Record.has_consecutive_idle (b :: l)).
    change (last (a :: b :: l)) with (last (b :: l)).
    now rewrite orb_assoc.
Qed.

Lemma removelast_back (l : list Record.schedule_record) (b : Record.schedule_record) :
  Record.back l = Some b -> l = removelast l ++ [b].
Proof.
  unfold Record.back. induction l as [|a l IH]; [discriminate|].
  destruct l as [|c l].
  - simpl. now intros [= ->].
  - intros H. change (last (a :: c :: l)) with (last (c :: l)) in H.
    change (removelast (a :: c :: l)) with (a :: removelast (c :: l)).
    simpl. f_equal. now apply IH.
Qed.

Lemma apply_op_keeps_no_consecutive_idle (log : list Record.schedule_record) (op : Record.log_op) :
  Record.has_consecutive_idle log = false ->
  Record.has_consecutive_idle (Record.apply_op log op) = false.
Proof.
  intros H. destruct op as [now ty input start stop | now ord]; simpl.
  - unfold Record.record_schedule_segment.
    destruct (Record.back log) as [b|] eqn:Hb.
    + destruct (Record.is_idle ty && Record.is_idle (Record.type b)) eqn:Hi; [exact H|].
      simpl. rewrite has_consecutive_idle_snoc, H. simpl.
      unfold Record.back in Hb. rewrite Hb. simpl. now rewrite andb_comm.
    + simpl. rewrite has_consecutive_idle_snoc, H. simpl.
      unfold Record.back in Hb. now rewrite Hb.
  - unfold Record.close_schedule_segment.
    destruct (Record.back log) as [b|] eqn:Hb; [|exact H].
    pose proof (removelast_back log b Hb) as Hl.
    assert (H' := H). rewrite Hl, has_consecutive_idle_snoc in H'.
    destruct (Record.type b) eqn:Ht; simpl; try exact H;
      rewrite has_consecutive_idle_snoc; simpl; try rewrite Ht; exact H'.
Qed.

Lemma check_from_error (prev_was_idle : bool) (recs : list Record.schedule_record) :
  Record.check_from prev_was_idle recs <> ""%string <->
  (prev_was_idle && match recs with r :: _ => Record.is_idle (Record.type r) | [] => false end)
  || Record.has_consecutive_idle recs = true.
Proof.
  revert prev_was_idle. induction recs as [|r rest IH]; intros p.
  - simpl. rewrite andb_false_r. split; [congruence|discriminate].
  - cbn -[Record.is_idle Record.has_consecutive_idle].
    destruct (Record.is_idle (Record.type r)) eqn:Hr.
    + destruct p.
      * split; [reflexivity|discriminate].
      * rewrite IH. destruct rest as [|r2 rest]; [reflexivity|].
        cbn -[Record.is_idle]. now rewrite Hr.
    + rewrite IH. rewrite andb_false_r. simpl.
      destruct rest as [|r2 rest]; [reflexivity|].
      cbn -[Record.is_idle]. now rewrite Hr.
Qed.

(** Claim C5: no recorded output log has two consecutive idle records.
    [record_schedule_segment] leaves the log unchanged for an idle request
    when the last recorded record is idle; starting from a log without
    consecutive idle records, every sequence of [record_schedule_segment]
    and [close_schedule_segment] calls keeps it so; and
    [replay_file_checker_t::check] returns an error exactly for a record
    sequence with two consecutive idle records. *)
Theorem schedule_log_no_consecutive_idle :
  (forall log now ty input start stop b,
     Record.back log = Some b -> Record.is_idle (Record.type b) = true ->
     Record.is_idle ty = true ->
     Record.record_schedule_segment log now ty input start stop = (STATUS_OK, log)) /\
  (forall log ops,
     Record.has_consecutive_idle log = false ->
     Record.has_consecutive_idle (Record.run_ops log ops) = false) /\
  (forall recs,
     Record.check recs <> ""%string <-> Record.has_consecutive_idle recs = true).
Proof.
  split; [|split].
  - intros log now ty input start stop b Hb Hib Hity.
    unfold Record.record_schedule_segment. now rewrite Hb, Hib, Hity.
  - intros log ops. unfold Record.run_ops. revert log.
    induction ops as [|op ops IH]; intros log H; simpl; [exact H|].
    apply IH. now apply apply_op_keeps_no_consecutive_idle.
  - intros recs. unfold Record.check. now rewrite check_from_error.
Qed.

Lemma schedule_log_no_consecutive_idle_witness :
  let idle0 := {| Record.type := Record.IDLE; Record.key_input := -1; Record.value := 0;
                  Record.stop_instruction := 0; Record.timestamp := 10 |} in
  let v := {| Record.type := Record.VERSION; Record.key_input := -1; Record.value := 0;
              Record.stop_instruction := 0; Record.timestamp := 0 |} in
  Record.record_schedule_segment [v; idle0] 20 Record.IDLE (-1) 0 0 = (STATUS_OK, [v; idle0]) /\
  Record.has_consecutive_idle
    (Record.run_ops [v] [Record.op_record 5 Record.IDLE (-1) 0 0;
                         Record.op_record 6 Record.IDLE (-1) 0 0;
                         Record.op_close 9 0]) = false.
Proof.
  intros idle0 v. split.
  - apply (proj1 schedule_log_no_consecutive_idle [v; idle0] 20 Record.IDLE (-1) 0 0 idle0);
      reflexivity.
  - apply (proj1 (proj2 schedule_log_no_consecutive_idle)). reflexivity.
Defined.

(** ** C8 *)

(** Claim C8 (as corrected): [skip_instructions] initialises the reader
    if needed, empties the queue, skips [skip_amount] instructions in the
    reader and sets [instrs_pre_read] to 0.  When the reader is then at
    its end, the input is marked at EOF (one live input fewer unless it
    already was), the queue stays empty, and the status is [SKIPPED]
    exactly when [skip_amount >= 2^64 - 3] ([uint64_t] max minus 2), and
    [REGION_INVALID] otherwise.  Otherwise the status is [SKIPPED], the
    input is in its region and the queue holds just the region separator
    marker when [cur_region > 0], nothing otherwise. *)
Theorem skip_instructions_outcome (reader : Type) (reader_init : reader -> reader)
  (reader_skip_instructions : reader -> Z -> reader) (reader_at_end : reader -> bool)
  (i : Skip.input_info reader) (live skip_amount : Z) :
  0 <= Skip.instrs_pre_read reader i ->
  let r := reader_skip_instructions
             (if Skip.needs_init reader i then reader_init (Skip.rdr reader i)
              else Skip.rdr reader i) skip_amount in
  let '(status, i', live') :=
    Skip.skip_instructions reader reader_init reader_skip_instructions reader_at_end
      i live skip_amount in
  Skip.rdr reader i' = r /\ Skip.needs_init reader i' = false /\
  Skip.instrs_pre_read reader i' = 0 /\
  (reader_at_end r = true ->
     Skip.at_eof reader i' = true /\ Skip.queue reader i' = [] /\
     live' = (if Skip.at_eof reader i then live else live - 1) /\
     status = (if u64_max - 2 <=? skip_amount then STATUS_SKIPPED
               else STATUS_REGION_INVALID)) /\
  (reader_at_end r = false ->
     status = STATUS_SKIPPED /\ live' = live /\
     Skip.at_eof reader i' = Skip.at_eof reader i /\
     Skip.in_cur_region reader i' = true /\
     Skip.queue reader i' =
       (if 0 <? Skip.cur_region reader i
        then [create_region_separator_marker (Skip.tid reader i) (Skip.cur_region reader i)]
        else [])).
Proof.
  intros Hpre. cbv zeta.
  unfold Skip.skip_instructions, Skip.mark_input_eof, Skip.clear_input_queue,
    Skip.set_queue, Skip.set_rdr, Skip.set_instrs_pre_read, Skip.set_at_eof,
    Skip.set_in_cur_region.
  destruct i as [q rd ni pre eof inr cr t]; cbn in Hpre.
  repeat (simpl; match goal with |- context [if ?b then _ else _] => destruct b eqn:? end);
  simpl in *;
  repeat match goal with
  | H : (_ <? _) = true |- _ => apply Z.ltb_lt in H
  | H : (_ <? _) = false |- _ => apply Z.ltb_ge in H
  end;
  repeat split; try discriminate; try congruence; auto; lia.
Qed.

Lemma skip_instructions_outcome_witness :
  0 <= Skip.instrs_pre_read Z
         {| Skip.queue := [rec_other 7]; Skip.rdr := 10; Skip.needs_init := true;
            Skip.instrs_pre_read := 2; Skip.at_eof := false; Skip.in_cur_region := false;
            Skip.cur_region := 1; Skip.tid := 7 |} /\
  fst (fst (Skip.skip_instructions Z (fun r => r) (fun r n => Z.max 0 (r - n))
              (fun r => r =? 0)
              {| Skip.queue := [rec_other 7]; Skip.rdr := 10; Skip.needs_init := true;
                 Skip.instrs_pre_read := 2; Skip.at_eof := false;
                 Skip.in_cur_region := false; Skip.cur_region := 1; Skip.tid := 7 |}
              1 20)) = STATUS_REGION_INVALID.
Proof.
  split; [cbn; lia|].
  pose proof (skip_instructions_outcome Z (fun r => r) (fun r n => Z.max 0 (r - n))
                (fun r => r =? 0)
                {| Skip.queue := [rec_other 7]; Skip.rdr := 10; Skip.needs_init := true;
                   Skip.instrs_pre_read := 2; Skip.at_eof := false;
                   Skip.in_cur_region := false; Skip.cur_region := 1; Skip.tid := 7 |}
                1 20 ltac:(cbn; lia)) as H.
  cbv zeta in H.
  destruct (Skip.skip_instructions Z _ _ _ _ 1 20) as [[st i'] l'].
  destruct H as (_ & _ & _ & H & _). destruct (H eq_refl) as (_ & _ & _ & ->).
  reflexivity.
Defined.

(** Claim C8, counterexample: a bounded skip request of [2^64 - 2]
    instructions ([uint64_t] max minus one) that reaches the end of the
    trace returns [SKIPPED], not [REGION_INVALID]. *)
Lemma skip_bounded_request_at_end_is_skipped :
  let '(status, i', _) :=
    Skip.skip_instructions Z (fun r => r) (fun r n => Z.max 0 (r - n)) (fun r => r =? 0)
      {| Skip.queue := []; Skip.rdr := 10; Skip.needs_init := false;
         Skip.instrs_pre_read := 0; Skip.at_eof := false; Skip.in_cur_region := false;
         Skip.cur_region := 0; Skip.tid := 7 |}
      1 (u64_max - 1) in
  Skip.at_eof Z i' = true /\ u64_max - 1 <> u64_max /\ status = STATUS_SKIPPED.
Proof. vm_compute. split; [reflexivity|]. split; [discriminate|reflexivity]. Qed.

(** ** C10 *)

Lemma inp_upd_input_same (s : Sched.sched) (i : Z) (f : Sched.input_info -> Sched.input_info) :
  Sched.inp (Sched.upd_input s i f) i = f (Sched.inp s i) \/
  Sched.inp (Sched.upd_input s i f) i = Sched.default_input.
Proof.
  unfold Sched.inp, Sched.upd_input, Sched.with_inputs. cbn [Sched.inputs].
  destruct (decide (Z.to_nat i < length (Sched.inputs s))%nat) as [Hl|Hl].
  - left. rewrite list_lookup_insert_eq by exact Hl. reflexivity.
  - right. rewrite list_insert_ge by lia.
    rewrite lookup_ge_None_2 by lia. reflexivity.
Qed.

(** Claim C10: whenever [pop_from_ready_queue] hands out an input, that
    input's [blocked_time] is 0 and its [unscheduled] flag is false in
    the resulting state, whatever they were while it was queued. *)
Theorem pop_from_ready_queue_unblocks (vo : Sched.options) (random_index : list Z -> nat)
  (s : Sched.sched) (for_output : Z) :
  match Sched.pop_from_ready_queue vo random_index s for_output with
  | (_, s', Some i) =>
      Sched.blocked_time (Sched.inp s' i) = 0 /\ Sched.unscheduled (Sched.inp s' i) = false
  | _ => True
  end.
Proof.
  unfold Sched.pop_from_ready_queue.
  destruct (Sched.pop_loop _ _ _ _ _ _ _ _) as [[[s1 res] skipped] blocked].
  destruct res as [i|]; [|destruct blocked; exact I].
  set (s2 := fold_left Sched.add_to_ready_queue blocked _).
  destruct (inp_upd_input_same s2 i
              (fun r => Sched.with_unscheduled (Sched.with_blocked_time r 0) false))
    as [-> | ->]; split; reflexivity.
Qed.

(** ** Frame lemmas of the scheduler state *)

Lemma inp_upd_input_eq (s : Sched.sched) (i : Z) (f : Sched.input_info -> Sched.input_info) :
  (Z.to_nat i < length (Sched.inputs s))%nat ->
  Sched.inp (Sched.upd_input s i f) i = f (Sched.inp s i).
Proof.
  intros Hl. unfold Sched.inp at 1, Sched.upd_input, Sched.with_inputs. cbn [Sched.inputs].
  rewrite list_lookup_insert_eq by exact Hl. reflexivity.
Qed.

Lemma inp_upd_input_ne (s : Sched.sched) (i j : Z) (f : Sched.input_info -> Sched.input_info) :
  Z.to_nat i <> Z.to_nat j ->
  Sched.inp (Sched.upd_input s i f) j = Sched.inp s j.
Proof.
  intros Hne. unfold Sched.inp at 1, Sched.upd_input, Sched.with_inputs. cbn [Sched.inputs].
  rewrite list_lookup_insert_ne by exact Hne. reflexivity.
Qed.

Lemma outp_upd_output_eq (s : Sched.sched) (o : Z) (f : Sched.output_info -> Sched.output_info) :
  (Z.to_nat o < length (Sched.outputs s))%nat ->
  Sched.outp (Sched.upd_output s o f) o = f (Sched.outp s o).
Proof.
  intros Hl. unfold Sched.outp at 1, Sched.upd_output, Sched.with_outputs. cbn [Sched.outputs].
  rewrite list_lookup_insert_eq by exact Hl. reflexivity.
Qed.

Lemma length_inputs_upd_input (s : Sched.sched) (i : Z) (f : Sched.input_info -> Sched.input_info) :
  length (Sched.inputs (Sched.upd_input s i f)) = length (Sched.inputs s).
Proof. unfold Sched.upd_input, Sched.with_inputs. cbn [Sched.inputs]. apply length_insert. Qed.

Lemma length_outputs_upd_output (s : Sched.sched) (o : Z) (f : Sched.output_info -> Sched.output_info) :
  length (Sched.outputs (Sched.upd_output s o f)) = length (Sched.outputs s).
Proof. unfold Sched.upd_output, Sched.with_outputs. cbn [Sched.outputs]. apply length_insert. Qed.

(** An update of one input that keeps a field keeps that field of every
    input. *)
Lemma inp_upd_input_field {A : Type} (proj : Sched.input_info -> A) (s : Sched.sched) (i j : Z)
  (f : Sched.input_info -> Sched.input_info) :
  (forall r, proj (f r) = proj r) ->
  proj (Sched.inp (Sched.upd_input s i f) j) = proj (Sched.inp s j).
Proof.
  intros Hf. destruct (decide (Z.to_nat i = Z.to_nat j)) as [He|Hne].
  - destruct (decide (Z.to_nat i < length (Sched.inputs s))%nat) as [Hl|Hl].
    + unfold Sched.inp, Sched.upd_input, Sched.with_inputs. cbn [Sched.inputs].
      rewrite <- He, list_lookup_insert_eq by exact Hl. cbn. rewrite Hf.
      unfold Sched.inp. now rewrite He.
    + unfold Sched.inp, Sched.upd_input, Sched.with_inputs. cbn [Sched.inputs].
      rewrite list_insert_ge by lia. reflexivity.
  - now rewrite inp_upd_input_ne.
Qed.

(** ** C9 *)

Lemma outp_upd_input (s : Sched.sched) (i o : Z) (f : Sched.input_info -> Sched.input_info) :
  Sched.outp (Sched.upd_input s i f) o = Sched.outp s o.
Proof. reflexivity. Qed.

(** Claim C9 (as corrected): with [QUANTUM_TIME], [next_record] returns
    [STATUS_INVALID] when the caller's [cur_time] is positive and smaller
    than the current input's [prev_time_in_quantum], provided the output
    is active, not waiting, not speculating and not at the end of a
    context-switch sequence, and the current input has a record to
    deliver (a queued record, or a record of its reader after the
    pending advance while not at EOF). *)
Theorem next_record_time_invalid_before_quantum_start (vo : Sched.options)
  (random_index : list Z -> nat) (s : Sched.sched) (output cur_time_arg : Z) :
  0 <= output -> (Z.to_nat output < length (Sched.outputs s))%nat ->
  Sched.active (Sched.outp s output) = true ->
  Sched.waiting (Sched.outp s output) = false ->
  Sched.speculating (Sched.outp s output) = false ->
  Sched.hit_switch_code_end (Sched.outp s output) = false ->
  0 <= Sched.cur_input (Sched.outp s output) ->
  (Z.to_nat (Sched.cur_input (Sched.outp s output)) < length (Sched.inputs s))%nat ->
  (Sched.queue (Sched.inp s (Sched.cur_input (Sched.outp s output))) <> [] \/
   (Sched.at_eof (Sched.inp s (Sched.cur_input (Sched.outp s output))) = false /\
    (if Sched.needs_advance (Sched.inp s (Sched.cur_input (Sched.outp s output)))
     then tail (Sched.reader_records (Sched.inp s (Sched.cur_input (Sched.outp s output))))
     else Sched.reader_records (Sched.inp s (Sched.cur_input (Sched.outp s output)))) <> [])) ->
  0 < cur_time_arg < Sched.prev_time_in_quantum (Sched.inp s (Sched.cur_input (Sched.outp s output))) ->
  exists s', Sched.next_record_time vo random_index s output cur_time_arg =
             Sched.NR_return STATUS_INVALID s'.
Proof.
  intros Ho Hol Hact Hwait Hspec Hhit Hi Hil Hrec Ht.
  set (input := Sched.cur_input (Sched.outp s output)) in *.
  unfold Sched.next_record_time.
  assert (H0 : (cur_time_arg =? 0) = false) by (apply Z.eqb_neq; lia).
  rewrite H0.
  set (s0 := Sched.upd_output s output (fun o => Sched.with_cur_time o cur_time_arg)).
  assert (Hout : Sched.outp s0 output = Sched.with_cur_time (Sched.outp s output) cur_time_arg)
    by (apply outp_upd_output_eq; exact Hol).
  assert (Hin : forall j, Sched.inp s0 j = Sched.inp s j) by reflexivity.
  rewrite Hout. cbn [Sched.active Sched.waiting Sched.with_cur_time].
  rewrite Hact, Hwait. cbn -[Sched.read_loop Sched.eof_or_idle].
  rewrite Hout. cbn [Sched.cur_input Sched.speculating Sched.with_cur_time]. fold input.
  rewrite Hin.
  assert (Hneg : (input <? 0) = false) by (apply Z.ltb_ge; lia). rewrite Hneg.
  assert (Hp0 : (Sched.prev_time_in_quantum (Sched.inp s input) =? 0) = false)
    by (apply Z.eqb_neq; lia). rewrite Hp0.
  rewrite Hout. cbn [Sched.speculating Sched.with_cur_time]. rewrite Hspec.
  cbn [Sched.read_loop]. rewrite Hin.
  destruct (Sched.queue (Sched.inp s input)) as [|record rest] eqn:Hq.
  - destruct Hrec as [Hrec|[Heof Hrec]]; [congruence|].
    rewrite Heof.
    destruct (Sched.needs_advance (Sched.inp s input)) eqn:Hna; cbn [andb negb];
      rewrite inp_upd_input_eq by exact Hil;
      cbn [Sched.at_eof Sched.reader_records Sched.with_reader_records
           Sched.with_needs_advance];
      rewrite Hin, Heof;
      [destruct (tail (Sched.reader_records (Sched.inp s input))) as [|record recs] eqn:Hr
      |destruct (Sched.reader_records (Sched.inp s input)) as [|record recs] eqn:Hr];
      try congruence;
      unfold Sched.time_check; rewrite outp_upd_input, Hout;
      cbn [Sched.hit_switch_code_end Sched.with_cur_time]; rewrite Hhit;
      rewrite inp_upd_input_eq by exact Hil;
      cbn [Sched.prev_time_in_quantum Sched.with_reader_records Sched.with_needs_advance];
      rewrite Hin;
      (replace ((cur_time_arg =? 0) || (cur_time_arg <? Sched.prev_time_in_quantum (Sched.inp s input)))
         with true by (symmetry; apply orb_true_iff; right; apply Z.ltb_lt; lia));
      eexists; reflexivity.
  - unfold Sched.time_check. rewrite outp_upd_input, Hout.
    cbn [Sched.hit_switch_code_end Sched.with_cur_time]. rewrite Hhit.
    rewrite inp_upd_input_eq by exact Hil.
    cbn [Sched.prev_time_in_quantum Sched.with_queue]. rewrite Hin.
    replace ((cur_time_arg =? 0) || (cur_time_arg <? Sched.prev_time_in_quantum (Sched.inp s input)))
      with true by (symmetry; apply orb_true_iff; right; apply Z.ltb_lt; lia).
    eexists; reflexivity.
Qed.

Lemma next_record_time_invalid_before_quantum_start_witness :
  exists s', Sched.next_record_time
    {| Sched.randomize_next_input := false; Sched.verbosity := 1;
       Sched.quantum_unit := Sched.QUANTUM_TIME; Sched.time_units_per_us := double_of_u64 1;
       Sched.block_time_max_us := 1000 |}
    (fun _ => 0%nat)
    (Sched.mk_sched
       [Sched.with_queue (Sched.with_prev_time_in_quantum Sched.default_input 10) [rec_instr 1]]
       [Sched.with_stats (Sched.with_cur_input Sched.default_output 0) [0;0;0;0;0;0;0;0]]
       [] [] 0 0 0 1 0 [])
    0 5 = Sched.NR_return STATUS_INVALID s'.
Proof.
  apply (next_record_time_invalid_before_quantum_start
    {| Sched.randomize_next_input := false; Sched.verbosity := 1;
       Sched.quantum_unit := Sched.QUANTUM_TIME; Sched.time_units_per_us := double_of_u64 1;
       Sched.block_time_max_us := 1000 |}
    (fun _ => 0%nat)
    (Sched.mk_sched
       [Sched.with_queue (Sched.with_prev_time_in_quantum Sched.default_input 10) [rec_instr 1]]
       [Sched.with_stats (Sched.with_cur_input Sched.default_output 0) [0;0;0;0;0;0;0;0]]
       [] [] 0 0 0 1 0 [])
    0 5);
  solve [ reflexivity
        | (apply Z.leb_le; vm_compute; reflexivity)
        | (split; apply Z.ltb_lt; vm_compute; reflexivity)
        | (apply Nat.ltb_lt; vm_compute; reflexivity)
        | (left; vm_compute; discriminate) ].
Defined.

(** Claim C9, counterexample: right after a context-switch sequence
    ([hit_switch_code_end]), a [cur_time] of 5 below the input's
    [prev_time_in_quantum] of 10 is not refused: [prev_time_in_quantum]
    is first reset to [cur_time] and the record passes the check. *)
Lemma next_record_time_after_switch_code_accepts_earlier_time :
  let s := Sched.mk_sched
       [Sched.with_queue (Sched.with_prev_time_in_quantum Sched.default_input 10) [rec_instr 1]]
       [Sched.with_hit_switch_code_end
          (Sched.with_stats (Sched.with_cur_input Sched.default_output 0) [0;0;0;0;0;0;0;0]) true]
       [] [] 0 0 0 1 0 [] in
  5 < Sched.prev_time_in_quantum (Sched.inp s (Sched.cur_input (Sched.outp s 0))) /\
  match Sched.next_record_time
          {| Sched.randomize_next_input := false; Sched.verbosity := 1;
             Sched.quantum_unit := Sched.QUANTUM_TIME;
             Sched.time_units_per_us := double_of_u64 1; Sched.block_time_max_us := 1000 |}
          (fun _ => 0%nat) s 0 5 with
  | Sched.NR_past_time_check _ input (rec_instr _) => input = 0
  | _ => False
  end.
Proof. vm_compute. split; reflexivity. Qed.

(** ** C7 *)

(** Claim C7: [eof_or_idle] converts the waiting time to microseconds by
    multiplying by [time_units_per_us] where the time-quantum path of
    [next_record] divides by it.  With 1000 time units per microsecond
    and [block_time_max_us = 1000] (10^6 time units), an output that
    started waiting at time 5000 flushes the unscheduled queue into the
    ready queue on its visit at time 5002, after 2 time units (0.002
    microseconds), far below the bound. *)
Theorem eof_or_idle_flushes_after_two_time_units :
  let vo := {| Sched.randomize_next_input := false; Sched.verbosity := 1;
               Sched.quantum_unit := Sched.QUANTUM_TIME;
               Sched.time_units_per_us := double_of_u64 1000;
               Sched.block_time_max_us := 1000 |} in
  let s := Sched.mk_sched
       [Sched.with_unscheduled Sched.default_input true]
       [Sched.with_stats
          (Sched.with_cur_time (Sched.with_wait_start_time Sched.default_output 5000) 5002)
          [0;0;0;0;0;0;0;0]]
       [] [0] 0 1 0 1 0 [] in
  let elapsed_units := Sched.get_output_time s 0 - Sched.wait_start_time (Sched.outp s 0) in
  elapsed_units = 2 /\ elapsed_units < Sched.block_time_max_us vo * 1000 /\
  let '(status, s') := Sched.eof_or_idle vo s 0 Sched.INVALID_INPUT_ORDINAL in
  status = STATUS_IDLE /\ Sched.ready s' = [0] /\ Sched.unsched s' = [] /\
  Sched.unscheduled (Sched.inp s' 0) = false /\
  Sched.log s' = [Sched.log_flush_unscheduled].
Proof. vm_compute. repeat split; reflexivity. Qed.

(** ** C6 *)

Lemma inp_add_log (s : Sched.sched) (vo : Sched.options) (l : Sched.log_line) (i : Z) :
  Sched.inp (Sched.add_log s vo l) i = Sched.inp s i.
Proof. unfold Sched.add_log. now destruct (1 <=? Sched.verbosity vo). Qed.

Lemma outp_add_log (s : Sched.sched) (vo : Sched.options) (l : Sched.log_line) (o : Z) :
  Sched.outp (Sched.add_log s vo l) o = Sched.outp s o.
Proof. unfold Sched.add_log. now destruct (1 <=? Sched.verbosity vo). Qed.

Lemma ready_add_log (s : Sched.sched) (vo : Sched.options) (l : Sched.log_line) :
  Sched.ready (Sched.add_log s vo l) = Sched.ready s.
Proof. unfold Sched.add_log. now destruct (1 <=? Sched.verbosity vo). Qed.

Lemma inputs_add_log (s : Sched.sched) (vo : Sched.options) (l : Sched.log_line) :
  Sched.inputs (Sched.add_log s vo l) = Sched.inputs s.
Proof. unfold Sched.add_log. now destruct (1 <=? Sched.verbosity vo). Qed.

Lemma outputs_add_log (s : Sched.sched) (vo : Sched.options) (l : Sched.log_line) :
  Sched.outputs (Sched.add_log s vo l) = Sched.outputs s.
Proof. unfold Sched.add_log. now destruct (1 <=? Sched.verbosity vo). Qed.

(** The state after a missed direct switch: [switch_to_input] of the
    previous input cleared, the miss logged, and the target's
    [skip_next_unscheduled] set. *)
Lemma direct_switch_miss (vo : Sched.options) (s : Sched.sched) (output prev : Z) :
  Sched.pq_find (Sched.switch_to_input (Sched.inp s prev)) (Sched.ready s) = false ->
  Sched.pq_find (Sched.switch_to_input (Sched.inp s prev)) (Sched.unsched s) = false ->
  Sched.direct_switch vo s output prev =
  (Sched.upd_input
     (Sched.add_log
        (Sched.upd_input s prev (fun r => Sched.with_switch_to_input r Sched.INVALID_INPUT_ORDINAL))
        vo (Sched.log_direct_switch_miss prev (Sched.switch_to_input (Sched.inp s prev))))
     (Sched.switch_to_input (Sched.inp s prev))
     (fun r => Sched.with_skip_next_unscheduled r true),
   Sched.INVALID_INPUT_ORDINAL).
Proof.
  intros Hr Hu. unfold Sched.direct_switch. cbv zeta.
  change (Sched.ready (Sched.upd_input s prev ?f)) with (Sched.ready s).
  change (Sched.unsched (Sched.upd_input s prev ?f)) with (Sched.unsched s).
  now rewrite Hr, Hu.
Qed.

Lemma pick_loop_after_miss (vo : Sched.options) (random_index : list Z -> nat)
  (n : nat) (s : Sched.sched) (output prev : Z) :
  0 <= prev ->
  Sched.switch_to_input (Sched.inp s prev) <> Sched.INVALID_INPUT_ORDINAL ->
  Sched.pq_find (Sched.switch_to_input (Sched.inp s prev)) (Sched.ready s) = false ->
  Sched.pq_find (Sched.switch_to_input (Sched.inp s prev)) (Sched.unsched s) = false ->
  Sched.pick_loop vo random_index (S n) s output 0 prev =
  Sched.pick_loop vo random_index (S n)
    (fst (Sched.direct_switch vo s output prev)) output 0 prev.
Proof.
  intros Hp Ht Hr Hu.
  rewrite (direct_switch_miss vo s output prev Hr Hu). cbn [fst].
  set (target := Sched.switch_to_input (Sched.inp s prev)) in *.
  set (s1 := Sched.upd_input _ target _).
  assert (Hs1 : Sched.switch_to_input (Sched.inp s1 prev) = Sched.INVALID_INPUT_ORDINAL).
  { unfold s1. rewrite inp_upd_input_field by reflexivity.
    rewrite inp_add_log.
    rewrite inp_upd_input_eq; [reflexivity|].
    unfold Sched.inp in target.
    destruct (decide (Z.to_nat prev < length (Sched.inputs s))%nat) as [Hl|Hl]; [exact Hl|].
    exfalso. apply Ht. unfold target, Sched.inp. rewrite lookup_ge_None_2 by lia. reflexivity. }
  cbn [Sched.pick_loop].
  change (0 <? 0) with false. cbn [andb].
  assert (Hprev : negb (prev =? Sched.INVALID_INPUT_ORDINAL) = true)
    by (apply negb_true_iff, Z.eqb_neq; unfold Sched.INVALID_INPUT_ORDINAL; lia).
  rewrite Hprev. cbn [andb].
  assert (Hc : negb (Sched.switch_to_input (Sched.inp s prev) =? Sched.INVALID_INPUT_ORDINAL) = true)
    by (apply negb_true_iff, Z.eqb_neq; exact Ht).
  fold target in Hc |- *. rewrite Hc.
  rewrite (direct_switch_miss vo s output prev Hr Hu). fold target. fold s1.
  rewrite Hs1. reflexivity.
Qed.

Lemma cur_input_incr_stat (o : Sched.output_info) (k : nat) :
  Sched.cur_input (Sched.incr_stat o k) = Sched.cur_input o.
Proof. reflexivity. Qed.

Lemma pick_loop_keeps_prev (vo : Sched.options) (random_index : list Z -> nat)
  (n : nat) (s : Sched.sched) (output prev : Z) :
  0 <= prev -> 0 <= output -> (Z.to_nat output < length (Sched.outputs s))%nat ->
  Sched.cur_input (Sched.outp s output) = prev ->
  Sched.switch_to_input (Sched.inp s prev) = Sched.INVALID_INPUT_ORDINAL ->
  Sched.ready s = [] ->
  Sched.at_eof (Sched.inp s prev) = false ->
  Sched.reader_records (Sched.inp s prev) <> [] ->
  exists s2, Sched.pick_loop vo random_index (S n) s output 0 prev = (STATUS_OK, s2) /\
             Sched.cur_input (Sched.outp s2 output) = prev.
Proof.
  intros Hp Ho Hol Hcur Hsw Hr He Hrec.
  cbn [Sched.pick_loop].
  change (0 <? 0) with false. change (0 =? 0) with true. cbn [andb].
  assert (Hprev : (prev =? Sched.INVALID_INPUT_ORDINAL) = false)
    by (apply Z.eqb_neq; unfold Sched.INVALID_INPUT_ORDINAL; lia).
  rewrite Hprev, Hsw, Z.eqb_refl. cbn [negb andb].
  rewrite Z.eqb_refl, Hr. cbn [negb andb Sched.empty_list].
  rewrite He. cbn [orb].
  destruct (Sched.reader_records (Sched.inp s prev)) as [|r rs] eqn:Hrr; [congruence|].
  cbn [Sched.empty_list].
  unfold Sched.pick_finish. rewrite Z.eqb_refl.
  set (s' := Sched.upd_output s output _).
  assert (Hc' : Sched.cur_input (Sched.outp s' output) = prev).
  { unfold s'. rewrite outp_upd_output_eq by exact Hol. now rewrite cur_input_incr_stat. }
  assert (Hl' : (Z.to_nat output < length (Sched.outputs s'))%nat).
  { unfold s'. now rewrite length_outputs_upd_output. }
  unfold Sched.set_cur_input. rewrite Hc'.
  assert (Hle : (0 <=? prev) = true) by (apply Z.leb_le; lia).
  assert (Hlt : (prev <? 0) = false) by (apply Z.ltb_ge; lia).
  rewrite Hle, !Z.eqb_refl, He. cbn [negb andb orb]. rewrite Hc', Hle, Hlt.
  eexists. split; [reflexivity|].
  rewrite outp_upd_output_eq.
  - reflexivity.
  - now rewrite length_outputs_upd_output.
Qed.

(** Claim C6 (as corrected): when [pick_next_input] (called with no
    blocked time) finds a pending [switch_to_input] of the current input
    whose target is in neither the ready nor the unscheduled queue, it
    clears the request, logs the miss (at verbosity 1 or more) and sets
    the target's [skip_next_unscheduled]; from there it makes the
    ordinary choice, the one it makes on that state with no switch
    pending, so the current input is not kept as such.  It does stay
    selected when the ready queue is empty and the input is neither at
    EOF nor at the end of its reader. *)
Theorem pick_next_input_direct_switch_miss (vo : Sched.options)
  (random_index : list Z -> nat) (s : Sched.sched) (output : Z) :
  let prev := Sched.cur_input (Sched.outp s output) in
  let target := Sched.switch_to_input (Sched.inp s prev) in
  let s1 := fst (Sched.direct_switch vo s output prev) in
  0 <= prev -> target <> Sched.INVALID_INPUT_ORDINAL ->
  Sched.pq_find target (Sched.ready s) = false ->
  Sched.pq_find target (Sched.unsched s) = false ->
  Sched.pick_next_input vo random_index s output 0 =
    Sched.pick_next_input vo random_index s1 output 0 /\
  Sched.switch_to_input (Sched.inp s1 prev) = Sched.INVALID_INPUT_ORDINAL /\
  (0 <= target -> (Z.to_nat target < length (Sched.inputs s))%nat ->
   Sched.skip_next_unscheduled (Sched.inp s1 target) = true) /\
  Sched.log s1 = (if 1 <=? Sched.verbosity vo
                  then Sched.log s ++ [Sched.log_direct_switch_miss prev target]
                  else Sched.log s) /\
  Sched.ready s1 = Sched.ready s /\ Sched.unsched s1 = Sched.unsched s /\
  Sched.outputs s1 = Sched.outputs s /\
  (0 <= output -> (Z.to_nat output < length (Sched.outputs s))%nat ->
   Sched.ready s = [] -> Sched.at_eof (Sched.inp s prev) = false ->
   Sched.reader_records (Sched.inp s prev) <> [] ->
   exists s2, Sched.pick_next_input vo random_index s output 0 = (STATUS_OK, s2) /\
              Sched.cur_input (Sched.outp s2 output) = prev).
Proof.
  intros prev target s1 Hp Ht Hr Hu.
  assert (Hs1 : s1 =
    Sched.upd_input
      (Sched.add_log
         (Sched.upd_input s prev (fun r => Sched.with_switch_to_input r Sched.INVALID_INPUT_ORDINAL))
         vo (Sched.log_direct_switch_miss prev target))
      target (fun r => Sched.with_skip_next_unscheduled r true))
    by (unfold s1; now rewrite direct_switch_miss).
  assert (Hprevl : (Z.to_nat prev < length (Sched.inputs s))%nat).
  { destruct (decide (Z.to_nat prev < length (Sched.inputs s))%nat) as [Hl|Hl]; [exact Hl|].
    exfalso. apply Ht. unfold target, Sched.inp. rewrite lookup_ge_None_2 by lia. reflexivity. }
  assert (Hready : Sched.ready s1 = Sched.ready s).
  { rewrite Hs1. change (Sched.ready (Sched.upd_input ?x _ _)) with (Sched.ready x).
    rewrite ready_add_log. reflexivity. }
  assert (Hunsched : Sched.unsched s1 = Sched.unsched s).
  { rewrite Hs1. cbn. unfold Sched.add_log. now destruct (1 <=? Sched.verbosity vo). }
  assert (Houts : Sched.outputs s1 = Sched.outputs s).
  { rewrite Hs1. change (Sched.outputs (Sched.upd_input ?x _ _)) with (Sched.outputs x).
    rewrite outputs_add_log. reflexivity. }
  assert (Hlen : length (Sched.inputs s1) = length (Sched.inputs s)).
  { rewrite Hs1, length_inputs_upd_input. cbn [Sched.upd_input].
    rewrite inputs_add_log, length_inputs_upd_input. reflexivity. }
  assert (Hcur : Sched.cur_input (Sched.outp s1 output) = prev).
  { unfold Sched.outp. rewrite Houts. reflexivity. }
  assert (Hsw : Sched.switch_to_input (Sched.inp s1 prev) = Sched.INVALID_INPUT_ORDINAL).
  { rewrite Hs1, inp_upd_input_field by reflexivity. rewrite inp_add_log.
    rewrite inp_upd_input_eq by exact Hprevl. reflexivity. }
  assert (Hpick : Sched.pick_next_input vo random_index s output 0 =
                  Sched.pick_next_input vo random_index s1 output 0).
  { unfold Sched.pick_next_input. rewrite Hready, Hlen, Hcur. fold prev.
    replace (length (Sched.ready s) + length (Sched.inputs s) + 3)%nat
      with (S (length (Sched.ready s) + length (Sched.inputs s) + 2)) by lia.
    apply pick_loop_after_miss; assumption. }
  split; [exact Hpick|]. split; [exact Hsw|]. split.
  { intros Htg Htl. rewrite Hs1, inp_upd_input_eq.
    - reflexivity.
    - cbn [Sched.upd_input]. rewrite inputs_add_log, length_inputs_upd_input. exact Htl. }
  split.
  { rewrite Hs1. cbn. unfold Sched.add_log. now destruct (1 <=? Sched.verbosity vo). }
  split; [exact Hready|]. split; [exact Hunsched|]. split; [exact Houts|].
  intros Ho Hol Hre Heof Hrec.
  rewrite Hpick. unfold Sched.pick_next_input. rewrite Hcur.
  replace (length (Sched.ready s1) + length (Sched.inputs s1) + 3)%nat
    with (S (length (Sched.ready s1) + length (Sched.inputs s1) + 2)) by lia.
  apply pick_loop_keeps_prev; try assumption.
  - now rewrite Houts.
  - congruence.
  - rewrite Hs1, inp_upd_input_field by reflexivity. rewrite inp_add_log.
    rewrite inp_upd_input_field by reflexivity. exact Heof.
  - rewrite Hs1, inp_upd_input_field by reflexivity. rewrite inp_add_log.
    rewrite inp_upd_input_field by reflexivity. exact Hrec.
Qed.

Lemma pick_next_input_direct_switch_miss_witness :
  let vo := {| Sched.randomize_next_input := false; Sched.verbosity := 1;
               Sched.quantum_unit := Sched.QUANTUM_INSTRUCTIONS;
               Sched.time_units_per_us := double_of_u64 1; Sched.block_time_max_us := 1000 |} in
  let s := Sched.mk_sched
       [Sched.with_reader_records (Sched.with_switch_to_input Sched.default_input 2) [rec_instr 0];
        Sched.with_reader_records (Sched.with_queue_counter Sched.default_input 1) [rec_instr 1];
        Sched.with_prev_output (Sched.with_reader_records Sched.default_input [rec_instr 2]) 1]
       [Sched.with_stats (Sched.with_cur_input Sched.default_output 0) [0;0;0;0;0;0;0;0];
        Sched.with_stats (Sched.with_cur_input Sched.default_output 2) [0;0;0;0;0;0;0;0]]
       [1] [] 1 0 0 3 0 [] in
  Sched.pick_next_input vo (fun _ => 0%nat) s 0 0 =
  Sched.pick_next_input vo (fun _ => 0%nat) (fst (Sched.direct_switch vo s 0 0)) 0 0.
Proof.
  intros vo s.
  exact (proj1 (pick_next_input_direct_switch_miss vo (fun _ => 0%nat) s 0
    ltac:(apply Z.leb_le; vm_compute; reflexivity) ltac:(vm_compute; congruence)
    ltac:(vm_compute; reflexivity) ltac:(vm_compute; reflexivity))).
Defined.

(** Claim C6, counterexample: input 0 on output 0 asks for a direct switch
    to input 2, which runs on output 1; input 1, of the same priority,
    waits in the ready queue.  The miss is logged and input 2 gets
    [skip_next_unscheduled], but output 0 does not keep input 0: it
    goes back to the ready queue and output 0 now runs input 1. *)
Lemma direct_switch_miss_changes_current_input :
  let vo := {| Sched.randomize_next_input := false; Sched.verbosity := 1;
               Sched.quantum_unit := Sched.QUANTUM_INSTRUCTIONS;
               Sched.time_units_per_us := double_of_u64 1; Sched.block_time_max_us := 1000 |} in
  let s := Sched.mk_sched
       [Sched.with_reader_records (Sched.with_switch_to_input Sched.default_input 2) [rec_instr 0];
        Sched.with_reader_records (Sched.with_queue_counter Sched.default_input 1) [rec_instr 1];
        Sched.with_prev_output (Sched.with_reader_records Sched.default_input [rec_instr 2]) 1]
       [Sched.with_stats (Sched.with_cur_input Sched.default_output 0) [0;0;0;0;0;0;0;0];
        Sched.with_stats (Sched.with_cur_input Sched.default_output 2) [0;0;0;0;0;0;0;0]]
       [1] [] 1 0 0 3 0 [] in
  Sched.cur_input (Sched.outp s 0) = 0 /\
  let '(status, s') := Sched.pick_next_input vo (fun _ => 0%nat) s 0 0 in
  status = STATUS_OK /\
  Sched.log s' = [Sched.log_direct_switch_miss 0 2] /\
  Sched.skip_next_unscheduled (Sched.inp s' 2) = true /\
  Sched.cur_input (Sched.outp s' 0) = 1 /\ Sched.ready s' = [0].
Proof. vm_compute. repeat split; reflexivity. Qed.

(** ** C3 *)

(** Claim C3: with [QUANTUM_INSTRUCTIONS], a candidate record that is an
    instruction boundary outside kernel and context-switch code adds one
    to the input's [instrs_in_quantum]; the input is preempted exactly
    when the new count exceeds [quantum_duration_instrs], and then the
    counter is reset to 0, the quantum-preempt statistic grows by one and
    a new input is needed.  Without preemption, when the output then
    switches to another input, the outgoing input's counter is put back
    to its value before the record, so the record that goes back to the
    queue is not charged twice.  A record that is not such a boundary
    neither charges nor preempts, and its counter is unchanged unless a
    switch happens. *)
Theorem instr_quantum_step_spec (quantum_duration_instrs : Z)
  (need_syscall boundary in_kernel_code switched : bool) (instrs preempts : Z) :
  0 <= instrs < two64 - 1 ->
  let '(instrs', preempts', need_new_input, preempt) :=
    Quantum.instr_quantum_step quantum_duration_instrs need_syscall boundary
      in_kernel_code switched instrs preempts in
  (boundary && negb in_kernel_code = true ->
     preempt = (quantum_duration_instrs <? instrs + 1) /\
     (preempt = true ->
        instrs' = 0 /\ preempts' = preempts + 1 /\ need_new_input = true) /\
     (preempt = false ->
        preempts' = preempts /\ need_new_input = need_syscall /\
        instrs' = (if need_syscall && switched then instrs else instrs + 1))) /\
  (boundary && negb in_kernel_code = false ->
     preempt = false /\ preempts' = preempts /\ need_new_input = need_syscall /\
     (need_syscall && switched = false -> instrs' = instrs)).
Proof.
  intros Hc. unfold Quantum.instr_quantum_step, Quantum.charge_instr_quantum,
    Quantum.undo_instr_quantum, Quantum.u64_inc, u64_dec.
  assert (Hinc : (instrs + 1) mod two64 = instrs + 1) by (apply Z.mod_small; lia).
  destruct (boundary && negb in_kernel_code) eqn:Hb.
  - rewrite Hinc.
    destruct (quantum_duration_instrs <? instrs + 1) eqn:Hq; cbn [orb negb andb].
    + rewrite orb_true_r. destruct switched; cbn [andb];
        (split; [repeat split; try reflexivity; discriminate|discriminate]).
    + rewrite orb_false_r.
      assert (boundary = true) by (destruct boundary; [reflexivity|discriminate]).
      subst boundary.
      destruct need_syscall, switched; cbn [andb];
        (split; [|discriminate]); (split; [reflexivity|]);
        (split; [discriminate|]); intros _; (repeat split);
        try reflexivity.
      replace (instrs + 1 - 1) with instrs by lia. apply Z.mod_small. lia.
  - split; [discriminate|]. intros _. rewrite orb_false_r.
    repeat split; try reflexivity.
    intros Hns. rewrite Hns. reflexivity.
Qed.

Lemma instr_quantum_step_spec_witness :
  (0 <= 4 < two64 - 1) /\
  Quantum.instr_quantum_step 10 false true false true 4 7 = (5, 7, false, false) /\
  Quantum.instr_quantum_step 10 true true false true 4 7 = (4, 7, true, false) /\
  Quantum.instr_quantum_step 4 false true false true 4 7 = (0, 8, true, true).
Proof.
  split; [unfold two64; lia|].
  pose proof (instr_quantum_step_spec 10 true true false true 4 7
                ltac:(unfold two64; lia)) as H.
  split; [vm_compute; reflexivity|].
  split; [|vm_compute; reflexivity].
  destruct (Quantum.instr_quantum_step 10 true true false true 4 7)
    as [[[i' p'] n'] pr] eqn:E.
  destruct H as [H _]. destruct (H eq_refl) as (Hpr & _ & Hno).
  vm_compute in Hpr. subst pr. destruct (Hno eq_refl) as (-> & -> & ->).
  reflexivity.
Defined.

(** ** C4 *)

Lemma before_spec (s : Sched.sched) (a b : Z) :
  Sched.before s a b = true <->
  (Sched.priority (Sched.inp s b) < Sched.priority (Sched.inp s a) \/
   (Sched.priority (Sched.inp s a) = Sched.priority (Sched.inp s b) /\
    (Sched.ts_key (Sched.inp s a) < Sched.ts_key (Sched.inp s b) \/
     (Sched.ts_key (Sched.inp s a) = Sched.ts_key (Sched.inp s b) /\
      Sched.queue_counter (Sched.inp s a) < Sched.queue_counter (Sched.inp s b))))).
Proof.
  unfold Sched.before. cbv zeta.
  rewrite orb_true_iff, andb_true_iff, orb_true_iff, andb_true_iff,
    Z.ltb_lt, Z.eqb_eq, Z.ltb_lt, Z.eqb_eq, Z.ltb_lt.
  reflexivity.
Qed.

Lemma before_irrefl (s : Sched.sched) (a : Z) : Sched.before s a a = false.
Proof.
  apply not_true_iff_false. rewrite before_spec. lia.
Qed.

Lemma before_trans (s : Sched.sched) (a b c : Z) :
  Sched.before s a b = true -> Sched.before s b c = true -> Sched.before s a c = true.
Proof.
  rewrite !before_spec. lia.
Qed.

(** The order is a strict weak order: incomparability is transitive. *)
Lemma before_weak (s : Sched.sched) (a b c : Z) :
  Sched.before s a c = true -> Sched.before s a b = true \/ Sched.before s b c = true.
Proof.
  intros H.
  destruct (Sched.before s a b) eqn:E1; [now left|].
  destruct (Sched.before s b c) eqn:E2; [now right|].
  exfalso. apply not_true_iff_false in E1, E2.
  rewrite before_spec in H, E1, E2. lia.
Qed.

Lemma pq_top_fold_min (s : Sched.sched) (rest : list Z) (best : Z) :
  let t := fold_left (fun best y => if Sched.before s y best then y else best) rest best in
  In t (best :: rest) /\ forall y, In y (best :: rest) -> Sched.before s y t = false.
Proof.
  revert best. induction rest as [|z rest IH]; intros best t.
  - subst t. cbn. split; [now left|]. intros y [<-|[]]. apply before_irrefl.
  - subst t. cbn [fold_left].
    destruct (Sched.before s z best) eqn:Ezb.
    + destruct (IH z) as [Hin Hmin]. split.
      * destruct Hin as [<-|Hin]; [right; now left | right; now right].
      * intros y [<-|[<-|Hy]].
        -- apply not_true_iff_false. intros Hb.
           pose proof (before_trans _ _ _ _ Ezb Hb) as Hzt.
           rewrite (Hmin z (or_introl eq_refl)) in Hzt. discriminate.
        -- apply Hmin. now left.
        -- apply Hmin. now right.
    + destruct (IH best) as [Hin Hmin]. split.
      * destruct Hin as [<-|Hin]; [now left | right; now right].
      * intros y [<-|[<-|Hy]].
        -- apply Hmin. now left.
        -- apply not_true_iff_false. intros Hb.
           destruct (before_weak _ _ best _ Hb) as [H|H].
           ++ rewrite H in Ezb. discriminate.
           ++ rewrite (Hmin best (or_introl eq_refl)) in H. discriminate.
        -- apply Hmin. now right.
Qed.

Lemma pq_top_min (s : Sched.sched) (q : list Z) (t : Z) :
  Sched.pq_top s q = Some t -> In t q /\ forall y, In y q -> Sched.before s y t = false.
Proof.
  destruct q as [|x rest]; cbn; [discriminate|].
  intros H. injection H as <-. apply pq_top_fold_min.
Qed.

Lemma pq_top_none (s : Sched.sched) (q : list Z) : Sched.pq_top s q = None -> q = [].
Proof. destruct q; cbn; [reflexivity | discriminate]. Qed.

Lemma pq_erase_perm (t : Z) (q : list Z) :
  In t q -> Permutation q (t :: Sched.pq_erase t q).
Proof.
  induction q as [|y rest IH]; cbn; [intros []|].
  intros Hin. destruct (Z.eqb_spec y t) as [->|Hne]; [reflexivity|].
  destruct Hin as [->|Hin]; [congruence|].
  rewrite (IH Hin) at 1. apply perm_swap.
Qed.

Lemma pq_find_In (x : Z) (q : list Z) : Sched.pq_find x q = true <-> In x q.
Proof.
  unfold Sched.pq_find. rewrite existsb_exists. split.
  - intros [y [Hy E]]. apply Z.eqb_eq in E. now subst.
  - intros H. exists x. split; [exact H | apply Z.eqb_refl].
Qed.

Lemma set_insert_In (x e : Z) (l : list Z) : In e (Sched.set_insert x l) <-> e = x \/ In e l.
Proof.
  induction l as [|y rest IH]; cbn.
  - intuition.
  - destruct (Z.eqb_spec x y) as [->|Hne].
    + cbn. intuition.
    + destruct (x <? y); cbn; rewrite ?IH; intuition.
Qed.

Lemma before_inputs (s s0 : Sched.sched) (a b : Z) :
  Sched.inputs s = Sched.inputs s0 -> Sched.before s a b = Sched.before s0 a b.
Proof. intros H. unfold Sched.before, Sched.inp. now rewrite H. Qed.

Lemma pop_loop_spec (vo : Sched.options) (rnd : list Z -> nat) (o now : Z) (s0 : Sched.sched) :
  Sched.randomize_next_input vo = false ->
  forall n s sk bl, Sched.inputs s = Sched.inputs s0 ->
  let '(s', res, sk', bl') := Sched.pop_loop vo rnd n s o now sk bl in
  Sched.inputs s' = Sched.inputs s0 /\ Sched.ready_counter s' = Sched.ready_counter s /\
  exists scanned,
    Permutation (Sched.ready s)
      (scanned ++ match res with Some r => [r] | None => [] end ++ Sched.ready s') /\
    (forall e, In e scanned ->
       (Sched.empty_list (Sched.binding (Sched.inp s0 e))
        || Sched.pq_find o (Sched.binding (Sched.inp s0 e))) = false \/
       ((0 <? Sched.blocked_time (Sched.inp s0 e)) &&
        (u64_sub now (Sched.blocked_start_time (Sched.inp s0 e)) <?
         Sched.blocked_time (Sched.inp s0 e))) = true) /\
    (forall e, In e sk' <-> In e sk \/
       (In e scanned /\
        (Sched.empty_list (Sched.binding (Sched.inp s0 e))
         || Sched.pq_find o (Sched.binding (Sched.inp s0 e))) = false)) /\
    (forall e, In e bl' <-> In e bl \/
       (In e scanned /\
        (Sched.empty_list (Sched.binding (Sched.inp s0 e))
         || Sched.pq_find o (Sched.binding (Sched.inp s0 e))) = true /\
        ((0 <? Sched.blocked_time (Sched.inp s0 e)) &&
         (u64_sub now (Sched.blocked_start_time (Sched.inp s0 e)) <?
          Sched.blocked_time (Sched.inp s0 e))) = true)) /\
    match res with
    | Some r =>
        (Sched.empty_list (Sched.binding (Sched.inp s0 r))
         || Sched.pq_find o (Sched.binding (Sched.inp s0 r))) = true /\
        ((0 <? Sched.blocked_time (Sched.inp s0 r)) &&
         (u64_sub now (Sched.blocked_start_time (Sched.inp s0 r)) <?
          Sched.blocked_time (Sched.inp s0 r))) = false /\
        forall y, In y (Sched.ready s') -> Sched.before s0 y r = false
    | None => (length (Sched.ready s) <= n)%nat -> Sched.ready s' = []
    end.
Proof.
  intros Hr n. induction n as [|n IH]; intros s sk bl Hs.
  - cbn [Sched.pop_loop]. split; [exact Hs|]. split; [reflexivity|].
    exists []. cbn [app]. split; [reflexivity|].
    split; [intros e []|]. split; [intros e; cbn [In]; tauto|].
    split; [intros e; cbn [In]; tauto|].
    intros Hl. apply length_zero_iff_nil. lia.
  - cbn [Sched.pop_loop]. rewrite Hr.
    destruct (Sched.pq_top s (Sched.ready s)) as [t|] eqn:Et.
    2: { split; [exact Hs|]. split; [reflexivity|].
         exists []. cbn [app]. split; [reflexivity|].
         split; [intros e []|]. split; [intros e; cbn [In]; tauto|].
         split; [intros e; cbn [In]; tauto|].
         intros _. now apply (pq_top_none s). }
    apply pq_top_min in Et as [Htin Htmin].
    assert (Hperm := pq_erase_perm t (Sched.ready s) Htin).
    assert (Hit : Sched.inp (Sched.with_ready s (Sched.pq_erase t (Sched.ready s))) t
                  = Sched.inp s0 t)
      by (unfold Sched.inp; cbn [Sched.inputs Sched.with_ready]; now rewrite Hs).
    rewrite Hit.
    set (s1 := Sched.with_ready s (Sched.pq_erase t (Sched.ready s))).
    set (s2 := if 0 <? Sched.blocked_time (Sched.inp s0 t)
               then Sched.with_num_blocked s1 (Sched.num_blocked s1 - 1) else s1).
    assert (Hs1 : Sched.inputs s1 = Sched.inputs s0) by exact Hs.
    assert (Hs2 : Sched.inputs s2 = Sched.inputs s0)
      by (unfold s2; destruct (0 <? _); exact Hs).
    assert (Hq2 : Sched.ready s2 = Sched.pq_erase t (Sched.ready s))
      by (unfold s2; destruct (0 <? _); reflexivity).
    assert (Hc2 : Sched.ready_counter s2 = Sched.ready_counter s)
      by (unfold s2; destruct (0 <? _); reflexivity).
    assert (Hlen := Permutation_length Hperm). cbn [length] in Hlen.
    destruct (Sched.empty_list (Sched.binding (Sched.inp s0 t))
              || Sched.pq_find o (Sched.binding (Sched.inp s0 t))) eqn:Ee.
    + destruct ((0 <? Sched.blocked_time (Sched.inp s0 t)) &&
                (u64_sub now (Sched.blocked_start_time (Sched.inp s0 t)) <?
                 Sched.blocked_time (Sched.inp s0 t))) eqn:Eb.
      * specialize (IH s2 sk (Sched.set_insert t bl) Hs2).
        destruct (Sched.pop_loop vo rnd n s2 o now sk (Sched.set_insert t bl))
          as [[[s' res] sk'] bl'].
        destruct IH as (Hi & Hc & scanned & Hp & Hsc & Hsk & Hbl & Hres).
        split; [exact Hi|]. split; [congruence|].
        exists (t :: scanned). split.
        { etransitivity; [exact Hperm|]. cbn [app]. apply perm_skip.
          rewrite <- Hq2. exact Hp. }
        split; [intros e [<-|He]; [now right | now apply Hsc]|].
        split; [intros e; rewrite Hsk; cbn [In]; intuition; subst; congruence|].
        split; [intros e; rewrite Hbl, set_insert_In; cbn [In]; intuition; subst; auto|].
        destruct res as [r|]; [exact Hres|].
        intros Hl. apply Hres. rewrite Hq2. lia.
      * split; [exact Hs2|]. split; [exact Hc2|].
        exists []. cbn [app]. split; [rewrite Hq2; exact Hperm|].
        split; [intros e []|].
        split; [intros e; cbn [In]; tauto|].
        split; [intros e; cbn [In]; tauto|].
        split; [exact Ee|]. split; [exact Eb|].
        intros y Hy. rewrite Hq2 in Hy.
        rewrite <- (before_inputs s s0 y t Hs). apply Htmin.
        apply (Permutation_in _ (Permutation_sym Hperm)). now right.
    + specialize (IH s1 (Sched.set_insert t sk) bl Hs1).
      destruct (Sched.pop_loop vo rnd n s1 o now (Sched.set_insert t sk) bl)
        as [[[s' res] sk'] bl'].
      destruct IH as (Hi & Hc & scanned & Hp & Hsc & Hsk & Hbl & Hres).
      split; [exact Hi|]. split; [exact Hc|].
      exists (t :: scanned). split.
      { etransitivity; [exact Hperm|]. cbn [app]. apply perm_skip. exact Hp. }
      split; [intros e [<-|He]; [now left | now apply Hsc]|].
      split; [intros e; rewrite Hsk, set_insert_In; cbn [In]; intuition; subst; auto|].
      split; [intros e; rewrite Hbl; cbn [In]; intuition; subst; congruence|].
      destruct res as [r|]; [exact Hres|].
      intros Hl. apply Hres. cbn [s1 Sched.ready Sched.with_ready]. lia.
Qed.

Lemma fold_append_skipped (s : Sched.sched) (l : list Z) :
  fold_left (fun s i => Sched.with_ready s (Sched.ready s ++ [i])) l s
  = Sched.with_ready s (Sched.ready s ++ l).
Proof.
  revert s. induction l as [|i l IH]; intros s; cbn [fold_left].
  - destruct s; cbn. now rewrite app_nil_r.
  - rewrite IH. destruct s; cbn. now rewrite <- app_assoc.
Qed.

Lemma add_to_ready_queue_blocked (s : Sched.sched) (i : Z) :
  0 < Sched.blocked_time (Sched.inp s i) ->
  (Z.to_nat i < length (Sched.inputs s))%nat ->
  let s' := Sched.add_to_ready_queue s i in
  Sched.ready s' = Sched.ready s ++ [i] /\
  Sched.ready_counter s' = Sched.ready_counter s + 1 /\
  length (Sched.inputs s') = length (Sched.inputs s) /\
  Sched.queue_counter (Sched.inp s' i) = Sched.ready_counter s + 1 /\
  (forall e, Z.to_nat e <> Z.to_nat i -> Sched.inp s' e = Sched.inp s e) /\
  (forall e, Sched.blocked_time (Sched.inp s' e) = Sched.blocked_time (Sched.inp s e)).
Proof.
  intros Hb Hl s'. subst s'. unfold Sched.add_to_ready_queue. cbv zeta.
  replace (Sched.blocked_time (Sched.inp s i) =? 0) with false by (symmetry; apply Z.eqb_neq; lia).
  rewrite andb_false_r.
  replace (0 <? Sched.blocked_time (Sched.inp s i)) with true by (symmetry; apply Z.ltb_lt; lia).
  set (s1 := Sched.with_ready_counter (Sched.with_num_blocked s (Sched.num_blocked s + 1))
               (Sched.ready_counter (Sched.with_num_blocked s (Sched.num_blocked s + 1)) + 1)).
  set (f := fun r => Sched.with_queue_counter r
               (Sched.ready_counter (Sched.with_num_blocked s (Sched.num_blocked s + 1)) + 1)).
  assert (Hi1 : forall e, Sched.inp s1 e = Sched.inp s e) by reflexivity.
  assert (Hl1 : length (Sched.inputs s1) = length (Sched.inputs s)) by reflexivity.
  change (Sched.inp (Sched.with_ready ?x _) ?e) with (Sched.inp x e).
  split; [reflexivity|]. split; [reflexivity|].
  split; [cbn [Sched.inputs Sched.with_ready]; now rewrite length_inputs_upd_input|].
  split; [rewrite inp_upd_input_eq by (rewrite Hl1; exact Hl); reflexivity|].
  split.
  - intros e He. rewrite inp_upd_input_ne by congruence. apply Hi1.
  - intros e. rewrite (inp_upd_input_field Sched.blocked_time) by reflexivity. now rewrite Hi1.
Qed.

Lemma fold_add_ready (l : list Z) (s : Sched.sched) :
  (forall e, In e l -> 0 <= e /\ (Z.to_nat e < length (Sched.inputs s))%nat /\
                       0 < Sched.blocked_time (Sched.inp s e)) ->
  let s' := fold_left Sched.add_to_ready_queue l s in
  Sched.ready s' = Sched.ready s ++ l /\
  Sched.ready_counter s <= Sched.ready_counter s' /\
  (forall e, 0 <= e -> ~ In e l -> Sched.inp s' e = Sched.inp s e) /\
  (forall e, In e l -> Sched.ready_counter s < Sched.queue_counter (Sched.inp s' e)).
Proof.
  revert s. induction l as [|i l IH]; intros s Hl s'; subst s'; cbn [fold_left].
  - split; [now rewrite app_nil_r|]. split; [lia|]. split; [reflexivity|]. intros e [].
  - destruct (Hl i (or_introl eq_refl)) as (Hi0 & Hilen & Hib).
    destruct (add_to_ready_queue_blocked s i Hib Hilen)
      as (Hq & Hc & Hlen & Hqc & Hne & Hbt).
    set (s4 := Sched.add_to_ready_queue s i) in *.
    assert (Hl4 : forall e, In e l -> 0 <= e /\ (Z.to_nat e < length (Sched.inputs s4))%nat /\
                                     0 < Sched.blocked_time (Sched.inp s4 e)).
    { intros e He. destruct (Hl e (or_intror He)) as (? & ? & ?).
      rewrite Hlen, Hbt. auto. }
    destruct (IH s4 Hl4) as (Hq' & Hc' & Hne' & Hqc').
    split; [rewrite Hq', Hq; now rewrite <- app_assoc|].
    split; [lia|].
    split.
    + intros e He0 Hnin. rewrite Hne' by (auto; intros H; apply Hnin; now right).
      apply Hne. intros H. apply Hnin. left. apply Z2Nat.inj in H; auto.
    + intros e [->|He].
      * destruct (in_dec Z.eq_dec e l) as [Hin|Hnin].
        -- specialize (Hqc' e Hin). lia.
        -- rewrite Hne' by auto. lia.
      * specialize (Hqc' e He). lia.
Qed.

Lemma inp_inputs_eq (s t : Sched.sched) (e : Z) :
  Sched.inputs s = Sched.inputs t -> Sched.inp s e = Sched.inp t e.
Proof. intros H. unfold Sched.inp. now rewrite H. Qed.

(** Claim C4 (as corrected): with [randomize_next_input] off, for a ready
    queue without duplicates whose entries are valid input ordinals,
    [pop_from_ready_queue] hands out an eligible (unbound or bound to the
    output) input that is not still blocked, and every input ahead of it in
    the queue order is ineligible or still blocked; it hands out none only
    when every queued input is ineligible or still blocked, with status
    [IDLE] exactly when some eligible input is still blocked.  Every other
    queued input stays in the ready queue; an input keeps its queue counter
    unless it is eligible and still blocked, in which case it may be pushed
    back with a counter above every counter given out before, as it is
    whenever it was ahead of the input handed out. *)
Theorem pop_from_ready_queue_not_random (vo : Sched.options) (random_index : list Z -> nat)
  (s : Sched.sched) (o : Z) :
  Sched.randomize_next_input vo = false ->
  NoDup (Sched.ready s) ->
  (forall e, In e (Sched.ready s) -> 0 <= e /\ (Z.to_nat e < length (Sched.inputs s))%nat) ->
  let now := if 0 <? Sched.num_blocked s then Sched.get_output_time s o else 0 in
  let eligible e := Sched.empty_list (Sched.binding (Sched.inp s e))
                    || Sched.pq_find o (Sched.binding (Sched.inp s e)) in
  let still_blocked e := (0 <? Sched.blocked_time (Sched.inp s e)) &&
                         (u64_sub now (Sched.blocked_start_time (Sched.inp s e)) <?
                          Sched.blocked_time (Sched.inp s e)) in
  let '(status, s', res) := Sched.pop_from_ready_queue vo random_index s o in
  match res with
  | Some r =>
      status = STATUS_OK /\ In r (Sched.ready s) /\
      eligible r = true /\ still_blocked r = false /\
      (forall e, In e (Sched.ready s) -> Sched.before s e r = true ->
                 eligible e = false \/ still_blocked e = true) /\
      ~ In r (Sched.ready s')
  | None =>
      (forall e, In e (Sched.ready s) -> eligible e = false \/ still_blocked e = true) /\
      (status = STATUS_IDLE <->
       exists e, In e (Sched.ready s) /\ eligible e = true /\ still_blocked e = true)
  end /\
  (forall e, In e (Sched.ready s) -> res <> Some e -> In e (Sched.ready s')) /\
  (forall e, In e (Sched.ready s) -> eligible e = false \/ still_blocked e = false ->
             Sched.queue_counter (Sched.inp s' e) = Sched.queue_counter (Sched.inp s e)) /\
  (forall e, In e (Sched.ready s) -> eligible e = true -> still_blocked e = true ->
             (res = None \/ exists r, res = Some r /\ Sched.before s e r = true) ->
             Sched.ready_counter s < Sched.queue_counter (Sched.inp s' e)) /\
  (forall e, In e (Sched.ready s) ->
             Sched.queue_counter (Sched.inp s' e) = Sched.queue_counter (Sched.inp s e) \/
             Sched.ready_counter s < Sched.queue_counter (Sched.inp s' e)).
Proof.
  intros Hr Hnd Hv now eligible still_blocked.
  apply NoDup_ListNoDup in Hnd.
  unfold Sched.pop_from_ready_queue. fold now.
  pose proof (pop_loop_spec vo random_index o now s Hr (length (Sched.ready s)) s [] [] eq_refl)
    as L.
  destruct (Sched.pop_loop vo random_index (length (Sched.ready s)) s o now [] [])
    as [[[s1 res] sk] bl].
  destruct L as (Hi1 & Hc1 & scanned & Hp & Hsc & Hsk & Hbl & Hres).
  unfold eligible, still_blocked. cbv beta.
  rewrite fold_append_skipped.
  set (s2 := Sched.with_ready s1 (Sched.ready s1 ++ sk)).
  assert (Hi2 : forall e, Sched.inp s2 e = Sched.inp s e)
    by (intros e; apply inp_inputs_eq; exact Hi1).
  assert (Hnd' := Permutation_NoDup Hp Hnd).
  assert (Hbl_in : forall e, In e bl -> In e scanned /\
       (Sched.empty_list (Sched.binding (Sched.inp s e))
        || Sched.pq_find o (Sched.binding (Sched.inp s e))) = true /\
       ((0 <? Sched.blocked_time (Sched.inp s e)) &&
        (u64_sub now (Sched.blocked_start_time (Sched.inp s e)) <?
         Sched.blocked_time (Sched.inp s e))) = true)
    by (intros e He; apply Hbl in He; destruct He as [[]|He]; exact He).
  assert (Hsk_in : forall e, In e sk -> In e scanned)
    by (intros e He; apply Hsk in He; destruct He as [[]|He]; apply He).
  assert (Hscan : forall e, In e scanned -> In e (Sched.ready s)).
  { intros e He. apply (Permutation_in _ (Permutation_sym Hp)).
    apply in_app_iff. now left. }
  assert (Hblv : forall e, In e bl -> 0 <= e /\ (Z.to_nat e < length (Sched.inputs s2))%nat /\
       0 < Sched.blocked_time (Sched.inp s2 e)).
  { intros e He. destruct (Hbl_in e He) as (Hs & _ & Hb).
    destruct (Hv e (Hscan e Hs)) as [H0 Hl].
    apply andb_true_iff in Hb as [Hb _]. apply Z.ltb_lt in Hb.
    rewrite Hi2. change (Sched.inputs s2) with (Sched.inputs s1). rewrite Hi1. auto. }
  destruct (fold_add_ready bl s2 Hblv) as (Hq3 & Hc3 & Hne3 & Hqc3).
  set (s3 := fold_left Sched.add_to_ready_queue bl s2) in *.
  assert (Hq4 : Sched.ready (match res with
                             | Some i => Sched.upd_input s3 i (fun r =>
                                 Sched.with_unscheduled (Sched.with_blocked_time r 0) false)
                             | None => s3 end) = Sched.ready s1 ++ sk ++ bl)
    by (change (Sched.ready s2) with (Sched.ready s1 ++ sk) in Hq3;
        rewrite <- app_assoc in Hq3; destruct res; exact Hq3).
  assert (Hqc4 : forall e, Sched.queue_counter (Sched.inp (match res with
                             | Some i => Sched.upd_input s3 i (fun r =>
                                 Sched.with_unscheduled (Sched.with_blocked_time r 0) false)
                             | None => s3 end) e) = Sched.queue_counter (Sched.inp s3 e))
    by (intros e; destruct res; [apply inp_upd_input_field; reflexivity | reflexivity]).
  assert (Hout : forall e, In e (Sched.ready s) -> ~ In e bl ->
                 Sched.queue_counter (Sched.inp s3 e) = Sched.queue_counter (Sched.inp s e)).
  { intros e He Hn. rewrite Hne3 by (auto; apply (Hv e He)). now rewrite Hi2. }
  assert (Hinb : forall e, In e bl -> Sched.ready_counter s < Sched.queue_counter (Sched.inp s3 e)).
  { intros e He. specialize (Hqc3 e He). change (Sched.ready_counter s2) with (Sched.ready_counter s1) in Hqc3. lia. }
  rewrite Hq4. setoid_rewrite Hqc4. clear Hq4 Hqc4.
  destruct res as [r|].
  - destruct Hres as (Hre & Hrb & Hrmin).
    assert (Hrs : In r (Sched.ready s)).
    { apply (Permutation_in _ (Permutation_sym Hp)). apply in_app_iff. right. now left. }
    assert (Hrn : ~ In r (scanned ++ Sched.ready s1)) by (apply NoDup_remove_2; exact Hnd').
    assert (Hcase : forall e, In e (Sched.ready s) -> e = r \/ In e scanned \/ In e (Sched.ready s1)).
    { intros e He. apply (Permutation_in _ Hp) in He. rewrite !in_app_iff in He.
      cbn [In] in He. destruct He as [H|[[H|[]]|H]]; auto. }
    split; [|split; [|split; [|split]]].
    + split; [reflexivity|]. split; [exact Hrs|]. split; [exact Hre|]. split; [exact Hrb|].
      split.
      * intros e He Hb. destruct (Hcase e He) as [->|[Hs|Hs]].
        -- now rewrite before_irrefl in Hb.
        -- now apply Hsc.
        -- rewrite (Hrmin e Hs) in Hb. discriminate.
      * rewrite !in_app_iff. intros [H|[H|H]].
        -- apply Hrn. apply in_app_iff. now right.
        -- apply Hrn. apply in_app_iff. left. now apply Hsk_in.
        -- apply Hrn. apply in_app_iff. left. now apply Hbl_in.
    + intros e He Hne. rewrite !in_app_iff.
      destruct (Hcase e He) as [->|[Hs|Hs]]; [congruence| |now left].
      destruct (Sched.empty_list (Sched.binding (Sched.inp s e))
                || Sched.pq_find o (Sched.binding (Sched.inp s e))) eqn:Ee.
      * right. right. apply Hbl. right. split; [exact Hs|]. split; [exact Ee|].
        destruct (Hsc e Hs) as [H|H]; [congruence|exact H].
      * right. left. apply Hsk. right. now split.
    + intros e He Hnb. apply Hout; [exact He|]. intros Hb.
      destruct (Hbl_in e Hb) as (_ & H1 & H2). destruct Hnb; congruence.
    + intros e He Hee Heb [Hn|[r' [Hr' Hb]]]; [discriminate|].
      injection Hr' as <-. apply Hinb. apply Hbl. right. split; [|now split].
      destruct (Hcase e He) as [->|[Hs|Hs]].
      * now rewrite before_irrefl in Hb.
      * exact Hs.
      * rewrite (Hrmin e Hs) in Hb. discriminate.
    + intros e He. destruct (in_dec Z.eq_dec e bl) as [Hb|Hb].
      * right. now apply Hinb.
      * left. now apply Hout.
  - assert (Hs1 : Sched.ready s1 = []) by (apply Hres; lia).
    rewrite Hs1 in Hp. cbn [app] in Hp. rewrite app_nil_r in Hp.
    assert (Hscan' : forall e, In e (Sched.ready s) -> In e scanned)
      by (intros e He; exact (Permutation_in _ Hp He)).
    split; [|split; [|split; [|split]]].
    + split; [intros e He; apply Hsc, Hscan', He|].
      destruct bl as [|b bl'].
      * split; [discriminate|]. intros (e & He & Hee & Heb).
        assert (H : In e []) by (apply Hbl; right; auto). destruct H.
      * split; [intros _|reflexivity].
        destruct (Hbl_in b (or_introl eq_refl)) as (Hs & H1 & H2).
        exists b. auto.
    + intros e He _. rewrite !in_app_iff. apply Hscan' in He.
      destruct (Sched.empty_list (Sched.binding (Sched.inp s e))
                || Sched.pq_find o (Sched.binding (Sched.inp s e))) eqn:Ee.
      * right. right. apply Hbl. right. split; [exact He|]. split; [exact Ee|].
        destruct (Hsc e He) as [H|H]; [congruence|exact H].
      * right. left. apply Hsk. right. now split.
    + intros e He Hnb. apply Hout; [exact He|]. intros Hb.
      destruct (Hbl_in e Hb) as (_ & H1 & H2). destruct Hnb; congruence.
    + intros e He Hee Heb _. apply Hinb. apply Hbl. right. auto.
    + intros e He. destruct (in_dec Z.eq_dec e bl) as [Hb|Hb].
      * right. now apply Hinb.
      * left. now apply Hout.
Qed.

Lemma pop_from_ready_queue_not_random_witness :
  let vo := {| Sched.randomize_next_input := false; Sched.verbosity := 1;
               Sched.quantum_unit := Sched.QUANTUM_INSTRUCTIONS;
               Sched.time_units_per_us := double_of_u64 1; Sched.block_time_max_us := 1000 |} in
  let s := Sched.mk_sched
       [{| Sched.index := 0; Sched.priority := 0; Sched.order_by_timestamp := false;
           Sched.next_timestamp := 0; Sched.base_timestamp := 0; Sched.queue_counter := 1;
           Sched.binding := [5]; Sched.blocked_time := 0; Sched.blocked_start_time := 0;
           Sched.unscheduled := false; Sched.skip_next_unscheduled := false;
           Sched.switch_to_input := Sched.INVALID_INPUT_ORDINAL;
           Sched.prev_output := Sched.INVALID_OUTPUT_ORDINAL; Sched.at_eof := false;
           Sched.reader_records := []; Sched.needs_advance := false; Sched.queue := [];
           Sched.prev_time_in_quantum := 0; Sched.time_spent_in_quantum := 0 |};
        Sched.with_blocked_time (Sched.with_queue_counter Sched.default_input 2) 100;
        Sched.with_queue_counter Sched.default_input 3]
       [Sched.with_cur_time Sched.default_output 10]
       [0; 1; 2] [] 3 0 1 3 0 [] in
  Sched.randomize_next_input vo = false /\ NoDup (Sched.ready s) /\
  (forall e, In e (Sched.ready s) -> 0 <= e /\ (Z.to_nat e < length (Sched.inputs s))%nat) /\
  let '(status, s', res) := Sched.pop_from_ready_queue vo (fun _ => 0%nat) s 0 in
  forall e, In e (Sched.ready s) -> res <> Some e -> In e (Sched.ready s').
Proof.
  intros vo s.
  assert (H1 : Sched.randomize_next_input vo = false) by reflexivity.
  assert (H2 : NoDup (Sched.ready s))
    by (apply NoDup_ListNoDup; cbn; repeat constructor; cbn; lia).
  assert (H3 : forall e, In e (Sched.ready s) ->
               0 <= e /\ (Z.to_nat e < length (Sched.inputs s))%nat)
    by (intros e He; cbn in He; destruct He as [<-|[<-|[<-|[]]]]; cbn; lia).
  split; [exact H1|]. split; [exact H2|]. split; [exact H3|].
  pose proof (pop_from_ready_queue_not_random vo (fun _ => 0%nat) s 0 H1 H2 H3) as T.
  cbv zeta in T.
  destruct (Sched.pop_from_ready_queue vo (fun _ => 0%nat) s 0) as [[status s'] res].
  exact (proj1 (proj2 T)).
Defined.

(** Claim C4, counterexample: with [randomize_next_input] on, the entry
    taken is the one [get_random_entry] picks, not the first in priority
    order: of two eligible unblocked inputs, input 0 first in the queue
    order, the call hands out input 1. *)
Lemma pop_from_ready_queue_random_ignores_order :
  let vo := {| Sched.randomize_next_input := true; Sched.verbosity := 1;
               Sched.quantum_unit := Sched.QUANTUM_INSTRUCTIONS;
               Sched.time_units_per_us := double_of_u64 1; Sched.block_time_max_us := 1000 |} in
  let s := Sched.mk_sched
       [Sched.with_queue_counter Sched.default_input 1;
        Sched.with_queue_counter Sched.default_input 2]
       [Sched.default_output] [0; 1] [] 2 0 0 2 0 [] in
  Sched.before s 0 1 = true /\
  Sched.empty_list (Sched.binding (Sched.inp s 0)) = true /\
  Sched.blocked_time (Sched.inp s 0) = 0 /\
  let '(status, s', res) := Sched.pop_from_ready_queue vo (fun _ => 1%nat) s 0 in
  status = STATUS_OK /\ res = Some 1.
Proof. vm_compute. repeat split; reflexivity. Qed.

(** ** C2 *)

Lemma Zdigits2_bounds (P : Z) :
  0 < P -> 2 ^ (Zdigits2 P - 1) <= P < 2 ^ Zdigits2 P.
Proof.
  intros HP. destruct P as [|p|p]; try lia. cbn [Zdigits2].
  induction p as [p IH|p IH|]; cbn [digits2_pos].
  1, 2:
    specialize (IH eq_refl);
    replace (Zpos (Pos.succ (digits2_pos p))) with (Zpos (digits2_pos p) + 1) by lia;
    set (d := Zpos (digits2_pos p)) in *;
    assert (Hd : 0 < d) by lia;
    assert (E : 2 ^ d = 2 * 2 ^ (d - 1))
      by (rewrite <- Z.pow_succ_r by lia; f_equal; lia);
    replace (d + 1 - 1) with d by lia;
    rewrite Z.pow_add_r by lia; rewrite E in *; lia.
  cbn. lia.
Qed.

Lemma Zdigits2_unique (X k : Z) : 0 < X -> 2 ^ (k - 1) <= X < 2 ^ k -> Zdigits2 X = k.
Proof.
  intros HX [H1 H2].
  pose proof (Zdigits2_bounds X HX) as [D1 D2].
  assert (Hk : 1 <= k).
  { destruct (Z.lt_ge_cases k 1) as [Hlt|]; [|lia].
    destruct (Z.lt_ge_cases k 0) as [Hn|Hn].
    - rewrite Z.pow_neg_r in H2 by lia. lia.
    - replace k with 0 in H2 by lia. cbn in H2. lia. }
  assert (Hd : 1 <= Zdigits2 X).
  { destruct (Z.lt_ge_cases (Zdigits2 X) 1) as [Hlt|]; [|lia].
    destruct (Z.lt_ge_cases (Zdigits2 X) 0) as [Hn|Hn].
    - rewrite Z.pow_neg_r in D2 by lia. lia.
    - replace (Zdigits2 X) with 0 in D2 by lia. cbn in D2. lia. }
  assert (A : Zdigits2 X - 1 < k).
  { apply (Z.pow_lt_mono_r_iff 2); lia. }
  assert (B : k - 1 < Zdigits2 X).
  { apply (Z.pow_lt_mono_r_iff 2); lia. }
  lia.
Qed.

Lemma Zdigits2_pos (P : Z) : 0 < P -> 1 <= Zdigits2 P.
Proof.
  intros HP. pose proof (Zdigits2_bounds P HP) as [_ D2].
  destruct (Z.lt_ge_cases (Zdigits2 P) 1) as [Hlt|]; [|lia].
  destruct (Z.lt_ge_cases (Zdigits2 P) 0) as [Hn|Hn].
  - rewrite Z.pow_neg_r in D2 by lia. lia.
  - replace (Zdigits2 P) with 0 in D2 by lia. cbn in D2. lia.
Qed.

Lemma Zdigits2_mul_pow (P j : Z) :
  0 < P -> 0 <= j -> Zdigits2 (P * 2 ^ j) = Zdigits2 P + j.
Proof.
  intros HP Hj. pose proof (Zdigits2_bounds P HP) as [D1 D2].
  pose proof (Zdigits2_pos P HP) as Hk.
  assert (Hpj : 0 < 2 ^ j) by (apply Z.pow_pos_nonneg; lia).
  apply Zdigits2_unique; [nia|].
  replace (Zdigits2 P + j - 1) with ((Zdigits2 P - 1) + j) by lia.
  rewrite !Z.pow_add_r by lia.
  split; [apply Z.mul_le_mono_nonneg_r | apply Z.mul_lt_mono_pos_r]; lia.
Qed.

Lemma shr_1_double (x : Z) :
  0 <= x -> shr_1 (Build_shr_record (2 * x) false false) = Build_shr_record x false false.
Proof. intros Hx. destruct x as [|p|p]; [reflexivity|reflexivity|lia]. Qed.

Lemma iter_shr (p : positive) (x : Z) :
  0 <= x ->
  SpecFloat.iter_pos shr_1 p (Build_shr_record (x * 2 ^ Zpos p) false false) = Build_shr_record x false false.
Proof.
  revert x. induction p as [p IH|p IH|]; intros x Hx; cbn [SpecFloat.iter_pos].
  - assert (Hp : 0 <= 2 ^ Zpos p) by lia.
    replace (x * 2 ^ Zpos p~1) with (2 * (x * 2 ^ Zpos p * 2 ^ Zpos p)).
    + rewrite shr_1_double by nia. rewrite IH by nia. apply IH. exact Hx.
    + replace (Zpos p~1) with (Zpos p + Zpos p + 1) by lia.
      rewrite !Z.pow_add_r by lia. ring.
  - replace (x * 2 ^ Zpos p~0) with (x * 2 ^ Zpos p * 2 ^ Zpos p).
    + rewrite IH by nia. apply IH. exact Hx.
    + replace (Zpos p~0) with (Zpos p + Zpos p) by lia.
      rewrite !Z.pow_add_r by lia. ring.
  - replace (x * 2 ^ 1) with (2 * x) by ring. apply shr_1_double. exact Hx.
Qed.

Lemma fexp64 (z : Z) : 1 <= z -> fexp 53 1024 z = z - 53.
Proof. intros H. unfold fexp, emin. lia. Qed.

Lemma Zdigits2_le_53 (P : Z) : 0 < P < 2 ^ 53 -> Zdigits2 P <= 53.
Proof.
  intros HP. pose proof (Zdigits2_bounds P (proj1 HP)) as [D1 _].
  pose proof (Zdigits2_pos P (proj1 HP)).
  assert (Zdigits2 P - 1 < 53) by (apply (Z.pow_lt_mono_r_iff 2); lia). lia.
Qed.

(** Rounding a value [P * 2^j * 2^-j] that is an integer below [2^53]
    gives its exact, canonical representation. *)
Lemma round_aux_exact (P j : Z) :
  0 < P < 2 ^ 53 -> 0 <= j -> 53 - Zdigits2 P <= j ->
  binary_round_aux 53 1024 false (P * 2 ^ j) (- j) loc_Exact =
  S754_finite false (Z.to_pos (P * 2 ^ (53 - Zdigits2 P))) (Zdigits2 P - 53).
Proof.
  intros HP Hj Hjk.
  pose proof (Zdigits2_pos P (proj1 HP)) as Hk1.
  pose proof (Zdigits2_le_53 P HP) as Hk53.
  unfold binary_round_aux, shr_fexp.
  rewrite Zdigits2_mul_pow by lia.
  set (k := Zdigits2 P) in *.
  rewrite fexp64 by lia.
  replace (k + j + - j - 53 - - j) with (j - (53 - k)) by lia.
  assert (Hpos : 0 < 2 ^ (53 - k)) by (apply Z.pow_pos_nonneg; lia).
  assert (Hshr : shr (shr_record_of_loc (P * 2 ^ j) loc_Exact) (- j) (j - (53 - k)) =
                 (Build_shr_record (P * 2 ^ (53 - k)) false false, k - 53)).
  { cbn [shr_record_of_loc].
    destruct (Z.eq_dec j (53 - k)) as [E|E].
    - subst j. replace (53 - k - (53 - k)) with 0 by lia. cbn [shr].
      f_equal. f_equal. lia.
    - destruct (j - (53 - k)) as [|q|q] eqn:Eq; try lia.
      unfold shr.
      replace (P * 2 ^ j) with (P * 2 ^ (53 - k) * 2 ^ Zpos q)
        by (rewrite <- Z.mul_assoc, <- Z.pow_add_r by lia; f_equal; f_equal; lia).
      rewrite iter_shr by nia. f_equal. lia. }
  rewrite Hshr. cbn [loc_of_shr_record shr_m round_nearest_even].
  rewrite Zdigits2_mul_pow by lia. fold k.
  rewrite fexp64 by lia.
  replace (k + (53 - k) + (k - 53) - 53 - (k - 53)) with 0 by lia.
  cbn [shr shr_record_of_loc shr_m].
  assert (HM : P * 2 ^ (53 - k) = Zpos (Z.to_pos (P * 2 ^ (53 - k))))
    by (rewrite Z2Pos.id; nia).
  rewrite HM at 1.
  replace (k - 53 <=? 1024 - 53) with true by (symmetry; apply Z.leb_le; lia).
  reflexivity.
Qed.

Lemma Pos_iter_xO (p d : positive) : Zpos (Pos.iter xO p d) = Zpos p * 2 ^ Zpos d.
Proof.
  rewrite (Pos.iter_swap_gen _ _ Zpos xO (Z.mul 2)) by reflexivity.
  change (Pos.iter (Z.mul 2) (Zpos p) d) with (Z.shiftl (Zpos p) (Zpos d)).
  apply Z.shiftl_mul_pow2. lia.
Qed.

Lemma double_of_u64_exact (P : Z) :
  0 < P < 2 ^ 53 ->
  double_of_u64 P =
  S754_finite false (Z.to_pos (P * 2 ^ (53 - Zdigits2 P))) (Zdigits2 P - 53).
Proof.
  intros HP.
  pose proof (Zdigits2_pos P (proj1 HP)) as Hk1.
  pose proof (Zdigits2_le_53 P HP) as Hk53.
  destruct P as [|p|p]; try lia.
  unfold double_of_u64, binary_normalize, binary_round, prec64, emax64.
  change (Zpos (digits2_pos p)) with (Zdigits2 (Zpos p)).
  rewrite Z.add_0_r, fexp64 by lia.
  set (k := Zdigits2 (Zpos p)) in *.
  unfold shl_align. rewrite Z.sub_0_r.
  destruct (k - 53) as [|d|d] eqn:E; try lia.
  - pose proof (round_aux_exact (Zpos p) 0 HP ltac:(lia) ltac:(lia)) as H.
    fold k in H. rewrite E in H. cbn [Z.pow Z.pow_pos Pos.iter Z.mul Z.opp] in H.
    rewrite Z.mul_1_r in H. exact H.
  - pose proof (round_aux_exact (Zpos p) (Zpos d) HP ltac:(lia) ltac:(lia)) as H.
    fold k in H. rewrite E in H.
    rewrite <- Pos_iter_xO in H. exact H.
Qed.

Lemma u64_of_double_exact (P : Z) :
  0 < P < 2 ^ 53 ->
  u64_of_double (S754_finite false (Z.to_pos (P * 2 ^ (53 - Zdigits2 P))) (Zdigits2 P - 53)) = P.
Proof.
  intros HP.
  pose proof (Zdigits2_pos P (proj1 HP)) as Hk1.
  pose proof (Zdigits2_le_53 P HP) as Hk53.
  set (k := Zdigits2 P) in *.
  assert (Hpos : 0 < 2 ^ (53 - k)) by (apply Z.pow_pos_nonneg; lia).
  unfold u64_of_double. rewrite Z2Pos.id by nia.
  destruct (0 <=? k - 53) eqn:E.
  - apply Z.leb_le in E. replace (53 - k) with 0 by lia. replace (k - 53) with 0 by lia.
    rewrite Z.pow_0_r, Z.mul_1_r. apply Z.shiftl_0_r.
  - rewrite Z.shiftr_div_pow2 by lia. replace (- (k - 53)) with (53 - k) by lia.
    apply Z.div_mul. lia.
Qed.

Lemma dmul_exact (a b : Z) :
  0 < a -> 0 < b -> a * b < 2 ^ 53 ->
  dmul (double_of_u64 a) (double_of_u64 b) = double_of_u64 (a * b).
Proof.
  intros Ha Hb Hab.
  assert (Ha53 : a < 2 ^ 53) by nia. assert (Hb53 : b < 2 ^ 53) by nia.
  rewrite (double_of_u64_exact a), (double_of_u64_exact b), (double_of_u64_exact (a * b))
    by lia.
  pose proof (Zdigits2_le_53 a ltac:(lia)). pose proof (Zdigits2_le_53 b ltac:(lia)).
  pose proof (Zdigits2_pos a Ha). pose proof (Zdigits2_pos b Hb).
  assert (Hab_k : Zdigits2 a <= Zdigits2 (a * b)).
  { pose proof (Zdigits2_bounds a Ha) as [A1 _].
    pose proof (Zdigits2_bounds (a * b) ltac:(nia)) as [_ B2].
    assert (Zdigits2 a - 1 < Zdigits2 (a * b))
      by (apply (Z.pow_lt_mono_r_iff 2); [lia | pose proof (Zdigits2_pos (a * b)); lia | nia]).
    lia. }
  unfold dmul, SFmul, prec64, emax64. cbn [xorb].
  set (j := 106 - Zdigits2 a - Zdigits2 b).
  assert (Hpa : 0 < 2 ^ (53 - Zdigits2 a)) by (apply Z.pow_pos_nonneg; lia).
  assert (Hpb : 0 < 2 ^ (53 - Zdigits2 b)) by (apply Z.pow_pos_nonneg; lia).
  replace (Zpos (Z.to_pos (a * 2 ^ (53 - Zdigits2 a)) * Z.to_pos (b * 2 ^ (53 - Zdigits2 b))))
    with (a * b * 2 ^ j).
  2: { rewrite Pos2Z.inj_mul, !Z2Pos.id by nia. unfold j.
       replace (106 - Zdigits2 a - Zdigits2 b) with ((53 - Zdigits2 a) + (53 - Zdigits2 b)) by lia.
       rewrite Z.pow_add_r by lia. ring. }
  replace (Zdigits2 a - 53 + (Zdigits2 b - 53)) with (- j) by (unfold j; lia).
  apply round_aux_exact; unfold j; lia.
Qed.

Lemma u64_mul_exact (a b : Z) :
  0 <= a < 2 ^ 53 -> 0 <= b < 2 ^ 53 -> a * b < 2 ^ 53 ->
  u64_of_double (dmul (double_of_u64 a) (double_of_u64 b)) = a * b.
Proof.
  intros Ha Hb Hab.
  destruct (Z.eq_dec a 0) as [->|Ha0].
  - change (double_of_u64 0) with (S754_zero false).
    destruct (double_of_u64 b); reflexivity.
  - destruct (Z.eq_dec b 0) as [->|Hb0].
    + change (double_of_u64 0) with (S754_zero false). rewrite Z.mul_0_r.
      destruct (double_of_u64 a); reflexivity.
    + rewrite dmul_exact by lia. rewrite double_of_u64_exact by nia.
      apply u64_of_double_exact. nia.
Qed.

(** Claim C2 (as corrected): when the multiplier and [time_units_per_us]
    are whole numbers [m] and [u] and the latency, its product with [m]
    and the product of the cap with [u] are below [2^53] (so every double
    involved is exact), [scale_blocked_time] is [min(x * m, cap) * u]
    and so at most [block_time_max_us * u]. *)
Theorem scale_blocked_time_whole_numbers (o : block_options) (x m u : Z) :
  block_time_multiplier o = double_of_u64 m ->
  time_units_per_us o = double_of_u64 u ->
  0 <= x < 2 ^ 53 -> 0 <= m < 2 ^ 53 -> 0 <= u < 2 ^ 53 ->
  0 <= block_time_max_us o ->
  x * m < 2 ^ 53 -> block_time_max_us o * u < 2 ^ 53 ->
  scale_blocked_time o x = Z.min (x * m) (block_time_max_us o) * u /\
  scale_blocked_time o x <= block_time_max_us o * u.
Proof.
  intros Hm Hu Hx Hm0 Hu0 Hmax Hxm Hmu.
  assert (E : scale_blocked_time o x = Z.min (x * m) (block_time_max_us o) * u).
  { unfold scale_blocked_time. rewrite Hm, Hu.
    rewrite (u64_mul_exact x m) by nia.
    replace (if block_time_max_us o <? x * m then block_time_max_us o else x * m)
      with (Z.min (x * m) (block_time_max_us o))
      by (destruct (Z.ltb_spec (block_time_max_us o) (x * m)); lia).
    apply u64_mul_exact; nia. }
  split; [exact E|]. rewrite E. nia.
Qed.

Lemma scale_blocked_time_whole_numbers_witness :
  let o := {| block_time_multiplier := double_of_u64 1; block_time_max_us := 1000;
              time_units_per_us := double_of_u64 100; blocking_switch_threshold := 500;
              syscall_switch_threshold := 300 |} in
  scale_blocked_time o 1500 = Z.min (1500 * 1) 1000 * 100 /\
  scale_blocked_time o 1500 <= 1000 * 100.
Proof.
  intros o.
  exact (scale_blocked_time_whole_numbers o 1500 1 100 eq_refl eq_refl
    ltac:(lia) ltac:(lia) ltac:(lia) ltac:(cbn; lia) ltac:(lia) ltac:(cbn; lia)).
Defined.

(** Claim C2, counterexample: the intermediate product is truncated, so
    with multiplier 0.5 and 2 time units per microsecond a latency of 3
    gives 2, not [1.5 * 2 = 3]; and with a cap of [2^53 + 3], multiplier
    and units 1, the cap is rounded up when converted to a double and the
    result [2^53 + 4] exceeds [block_time_max_us * time_units_per_us]. *)
Lemma scale_blocked_time_truncates_and_rounds :
  let half := binary_normalize prec64 emax64 1 (-1) false in
  let o1 := {| block_time_multiplier := half; block_time_max_us := 1000;
               time_units_per_us := double_of_u64 2; blocking_switch_threshold := 500;
               syscall_switch_threshold := 300 |} in
  let o2 := {| block_time_multiplier := double_of_u64 1; block_time_max_us := 2 ^ 53 + 3;
               time_units_per_us := double_of_u64 1; blocking_switch_threshold := 500;
               syscall_switch_threshold := 300 |} in
  half = S754_finite false (Z.to_pos (2 ^ 52)) (-53) /\
  scale_blocked_time o1 3 = 2 /\
  scale_blocked_time o2 (2 ^ 53 + 3) = 2 ^ 53 + 4 /\
  block_time_max_us o2 * 1 < scale_blocked_time o2 (2 ^ 53 + 3).
Proof. vm_compute. repeat split; reflexivity. Qed.


(** * Properties of the scheduler's other operations *)

(** Extra X1: [start_speculation] fails only when the speculation stack is
    empty, the current record is to be queued and the last record is
    invalid, and it then changes nothing.  Otherwise it saves the old
    [speculate_pc] in [prev_speculate_pc], sets [speculate_pc] to the start
    address, and queues the last record only for the outermost layer.  A
    following [stop_speculation] succeeds and restores the stack; it
    leaves [speculate_pc] at the start address after the outermost layer,
    and after an inner layer restores the pc the push saved
    ([prev_speculate_pc] when the record was queued, else [speculate_pc]). *)
Theorem start_stop_speculation_round_trip (o : Stream.output_info)
  (ins : list Stream.input_info) (a : Z) (q : bool) :
  let '(st, o1, ins1) := Stream.start_speculation o ins a q in
  (st = STATUS_INVALID <->
     Stream.speculation_stack o = [] /\ q = true /\
     Stream.record_type_is_invalid (Stream.last_record o) = true) /\
  (st = STATUS_INVALID -> o1 = o /\ ins1 = ins) /\
  (st = STATUS_OK ->
     Stream.prev_speculate_pc o1 = Stream.speculate_pc o /\
     Stream.speculate_pc o1 = a /\
     (ins1 = if Sched.empty_list (Stream.speculation_stack o) && q
             then Stream.push_to_input ins (Stream.cur_input o) (Stream.last_record o)
             else ins) /\
     let '(st2, o2) := Stream.stop_speculation o1 in
     st2 = STATUS_OK /\
     Stream.speculation_stack o2 = Stream.speculation_stack o /\
     Stream.speculate_pc o2 =
       (match Stream.speculation_stack o with
        | [] => a
        | _ => if q then Stream.prev_speculate_pc o else Stream.speculate_pc o
        end)).
Proof.
  destruct o as [ci lr st spc pspc]. unfold Stream.start_speculation.
  destruct st as [|t rest], q; [destruct lr| | |]; cbn;
    repeat split; intros;
    repeat match goal with H : _ /\ _ |- _ => destruct H end;
    try discriminate; try congruence; tauto.
Qed.

Lemma dec_instrs_in_quantum_queues (ins : list Stream.input_info) (i : Z) :
  map Stream.queue (Stream.dec_instrs_in_quantum ins i) = map Stream.queue ins.
Proof.
  unfold Stream.dec_instrs_in_quantum.
  destruct (ins !! Z.to_nat i) as [x|] eqn:E; [|reflexivity].
  rewrite list_fmap_insert. cbn [Stream.queue].
  apply list_insert_id. rewrite list_lookup_fmap, E. reflexivity.
Qed.

(** Extra X2: [unread_last_record] succeeds exactly when the last record
    is valid and no speculation is active; it then hands back the last
    record, queues it on the current input and invalidates the output's
    last record, so that a second call fails and changes nothing.  A
    failing call changes nothing. *)
Theorem unread_last_record_once (qi : bool) (o : Stream.output_info)
  (ins : list Stream.input_info) :
  let '(st, o1, ins1, r) := Stream.unread_last_record qi o ins in
  (st = STATUS_OK <->
     Stream.record_type_is_invalid (Stream.last_record o) = false /\
     Stream.speculation_stack o = []) /\
  (st = STATUS_OK ->
     r = Stream.last_record o /\
     map Stream.queue ins1 = map Stream.queue (Stream.push_to_input ins (Stream.cur_input o) r) /\
     Stream.last_record o1 = Stream.create_invalid_record /\
     let '(st2, o2, ins2, _) := Stream.unread_last_record qi o1 ins1 in
     st2 = STATUS_INVALID /\ o2 = o1 /\ ins2 = ins1) /\
  (st = STATUS_INVALID -> o1 = o /\ ins1 = ins).
Proof.
  destruct o as [ci lr st spc pspc]. unfold Stream.unread_last_record.
  destruct lr as [r|]; cbn [Stream.record_type_is_invalid Stream.last_record].
  - destruct st as [|t rest]; cbn.
    + repeat split; intros; try discriminate; try tauto; try reflexivity;
        try (destruct (qi && _); [apply dec_instrs_in_quantum_queues|reflexivity]).
    + repeat split; intros;
        repeat match goal with H : _ /\ _ |- _ => destruct H end;
        try discriminate; try congruence.
  - cbn. repeat split; intros;
      repeat match goal with H : _ /\ _ |- _ => destruct H end;
      try discriminate; try congruence.
Qed.

Lemma record_back_app (l : list Record.schedule_record) (x : Record.schedule_record) :
  Record.back (l ++ [x]) = Some x.
Proof. unfold Record.back. apply last_snoc. Qed.

(** Extra X3: closing a segment that is neither a skip nor an idle one
    sets its stop ordinal to the input's instruction ordinal ([u64_max] at
    EOF or at the reader's end), plus one when the input was switched
    before an instruction, which flag it clears; at EOF with that flag the
    stop ordinal wraps around to [0]. *)
Theorem close_schedule_segment_stop (log : list Record.schedule_record) (b : Record.schedule_record)
  (now : Z) (inp : Recording.input_info) :
  Record.type b <> Record.SKIP -> Record.type b <> Record.IDLE ->
  let expected :=
    let o := if Recording.at_eof inp || Recording.reader_at_end inp then u64_max
             else Recording.get_instr_ordinal inp in
    if Recording.switching_pre_instruction inp then (o + 1) mod two64 else o in
  Recording.close_schedule_segment (log ++ [b]) now inp =
    (STATUS_OK,
     log ++ [{| Record.type := Record.type b; Record.key_input := Record.key_input b;
                Record.value := Record.value b; Record.stop_instruction := expected;
                Record.timestamp := Record.timestamp b |}],
     Recording.clear_switching_pre_instruction inp) /\
  (Recording.at_eof inp = true -> Recording.switching_pre_instruction inp = true ->
   expected = 0).
Proof.
  intros Hs Hi. cbv zeta. split.
  - unfold Recording.close_schedule_segment. rewrite record_back_app.
    destruct inp as [ri pr ae ra sw].
    destruct (Record.type b) eqn:Et; try congruence;
      cbn [Recording.switching_pre_instruction];
      destruct sw; cbn -[Record.close_schedule_segment];
      unfold Record.close_schedule_segment; rewrite record_back_app, Et;
      rewrite removelast_last; reflexivity.
  - intros -> ->. cbn. reflexivity.
Qed.

Lemma record_segment_not_idle (log : list Record.schedule_record) (now : Z)
  (ty : Record.record_type) (input start stop : Z) :
  Record.is_idle ty = false ->
  snd (Record.record_schedule_segment log now ty input start stop) =
  log ++ [{| Record.type := ty; Record.key_input := input; Record.value := start;
             Record.stop_instruction := stop; Record.timestamp := now |}].
Proof.
  intros H. unfold Record.record_schedule_segment.
  destruct (Record.back log); [rewrite H; reflexivity | reflexivity].
Qed.

Lemma back_some_snoc (log : list Record.schedule_record) (b : Record.schedule_record) :
  Record.back log = Some b -> log = removelast log ++ [b].
Proof.
  unfold Record.back. intros H. destruct log as [|x l] using rev_ind; [discriminate|].
  rewrite last_snoc in H. injection H as ->. rewrite removelast_last. reflexivity.
Qed.

Lemma record_close_shape (log : list Record.schedule_record) (now ord : Z) :
  let log' := snd (Record.close_schedule_segment log now ord) in
  length log' = length log /\ removelast log' = removelast log.
Proof.
  unfold Record.close_schedule_segment.
  destruct (Record.back log) as [b|] eqn:E; [|cbn; auto].
  pose proof (back_some_snoc log b E) as Hl.
  destruct (Record.type b); cbn [snd]; auto;
    rewrite removelast_last; split; auto;
    rewrite Hl at 2; rewrite !length_app; reflexivity.
Qed.

Lemma recording_close_shape (log : list Record.schedule_record) (now : Z)
  (inp : Recording.input_info) :
  let '(_, log', _) := Recording.close_schedule_segment log now inp in
  length log' = length log /\ removelast log' = removelast log.
Proof.
  unfold Recording.close_schedule_segment.
  destruct (Record.back log) as [b|]; [|auto].
  destruct (Record.type b);
    try (destruct (Recording.switching_pre_instruction inp));
    match goal with
    | |- context [Record.close_schedule_segment log now ?o] =>
        pose proof (record_close_shape log now o) as H;
        destruct (Record.close_schedule_segment log now o); exact H
    end.
Qed.

(** Extra X4: with recording on, [record_schedule_skip] succeeds and
    appends to the log a skip segment from the start to the stop ordinal
    and a default segment from the stop ordinal on, preceded by a default
    segment at [0] when the log held only its version record; before that
    only the last entry of the log can change, and only when it is a
    default segment of the same input. *)
Theorem record_schedule_skip_appends (dflt : Z) (log : list Record.schedule_record)
  (inp : Recording.input_info) (t0 t1 t2 t3 input start stop : Z) :
  let '(st, log', _) :=
    Recording.record_schedule_skip dflt true log inp t0 t1 t2 t3 input start stop in
  st = STATUS_OK /\
  exists log1,
    length log1 = length log /\ removelast log1 = removelast log /\
    (forall b, Record.back log = Some b ->
       Recording.is_default (Record.type b) && (Record.key_input b =? input) = false ->
       log1 = log) /\
    log' = log1 ++
      (if (length log =? 1)%nat
       then [{| Record.type := Record.DEFAULT; Record.key_input := input; Record.value := 0;
                Record.stop_instruction := 0; Record.timestamp := t1 |}]
       else []) ++
      [{| Record.type := Record.SKIP; Record.key_input := input; Record.value := start;
          Record.stop_instruction := stop; Record.timestamp := t2 |};
       {| Record.type := Record.DEFAULT; Record.key_input := input; Record.value := stop;
          Record.stop_instruction := dflt; Record.timestamp := t3 |}].
Proof.
  unfold Recording.record_schedule_skip. cbn [negb].
  set (P := match Record.back log with
            | Some b => _ | None => _ end).
  assert (HP : length (fst P) = length log /\ removelast (fst P) = removelast log /\
               (forall b, Record.back log = Some b ->
                  Recording.is_default (Record.type b) && (Record.key_input b =? input) = false ->
                  fst P = log)).
  { unfold P. destruct (Record.back log) as [b|] eqn:E.
    - destruct (Recording.is_default (Record.type b) && (Record.key_input b =? input)) eqn:Ed.
      + pose proof (recording_close_shape log t0 inp) as H.
        destruct (Recording.close_schedule_segment log t0 inp) as [[? l] ?].
        cbn [fst]. destruct H as [H1 H2]. repeat split; auto.
        intros b' Hb' Hd. injection Hb' as <-. congruence.
      + cbn. auto.
    - cbn. repeat split; auto. }
  destruct P as [log1 inp1]. cbn [fst] in HP. destruct HP as (H1 & H2 & H3).
  split; [reflexivity|]. exists log1. repeat split; auto.
  rewrite H1.
  destruct (length log =? 1)%nat;
    rewrite ?record_segment_not_idle by reflexivity;
    rewrite <- ?app_assoc; reflexivity.
Qed.

Lemma keys_increasing_head (k v : Z) (rest : Traced.map_t) :
  Traced.keys_increasing ((k, v) :: rest) = true -> Forall (fun p => k < fst p) rest.
Proof.
  revert k v. induction rest as [|[k2 v2] r IH]; intros k v H; [constructor|].
  cbn [Traced.keys_increasing] in H. apply andb_true_iff in H as [H1 H2].
  apply Z.ltb_lt in H1. constructor; [exact H1|].
  specialize (IH k2 v2 H2). eapply Forall_impl; [exact IH|]. cbn. intros p Hp. lia.
Qed.

Lemma keys_increasing_tail (p : Z * Z) (rest : Traced.map_t) :
  Traced.keys_increasing (p :: rest) = true -> Traced.keys_increasing rest = true.
Proof.
  destruct p as [k v], rest as [|[k2 v2] r]; cbn; [auto|].
  intros H. apply andb_true_iff in H as [_ H]. exact H.
Qed.

Lemma keys_increasing_lt (m : Traced.map_t) (i j : nat) (ki vi kj vj : Z) :
  Traced.keys_increasing m = true -> (i < j)%nat ->
  m !! i = Some (ki, vi) -> m !! j = Some (kj, vj) -> ki < kj.
Proof.
  revert i j. induction m as [|[k v] rest IH]; intros i j Hs Hij Hi Hj; [discriminate|].
  destruct j as [|j]; [lia|].
  destruct i as [|i].
  - cbn in Hi. injection Hi as <- <-. cbn in Hj.
    pose proof (keys_increasing_head k v rest Hs) as HF.
    rewrite Forall_lookup in HF. specialize (HF j _ Hj). exact HF.
  - cbn in Hi, Hj. apply (IH i j); auto; [eapply keys_increasing_tail; eauto | lia].
Qed.

Lemma upper_bound_le (m : Traced.map_t) (t : Z) : (Traced.upper_bound m t <= length m)%nat.
Proof.
  induction m as [|[k v] rest IH]; cbn; [lia|]. destruct (t <? k); lia.
Qed.

Lemma upper_bound_before (m : Traced.map_t) (t : Z) (j : nat) (kj vj : Z) :
  (j < Traced.upper_bound m t)%nat -> m !! j = Some (kj, vj) -> kj <= t.
Proof.
  revert j. induction m as [|[k v] rest IH]; intros j Hj Hl; [discriminate|].
  cbn in Hj. destruct (t <? k) eqn:E; [lia|].
  destruct j as [|j].
  - cbn in Hl. injection Hl as <- <-. apply Z.ltb_ge in E. exact E.
  - cbn in Hl. apply (IH j); [lia|exact Hl].
Qed.

Lemma upper_bound_at (m : Traced.map_t) (t k v : Z) :
  m !! Traced.upper_bound m t = Some (k, v) -> t < k.
Proof.
  induction m as [|[k0 v0] rest IH]; intros Hl; [discriminate|].
  cbn in Hl. destruct (t <? k0) eqn:E.
  - cbn in Hl. injection Hl as <- <-. apply Z.ltb_lt in E. exact E.
  - cbn in Hl. apply IH. exact Hl.
Qed.

Lemma upper_bound_char (m : Traced.map_t) (t : Z) (n : nat) (k v : Z) :
  (forall j kj vj, (j < n)%nat -> m !! j = Some (kj, vj) -> kj <= t) ->
  m !! n = Some (k, v) -> t < k -> Traced.upper_bound m t = n.
Proof.
  revert n. induction m as [|[k0 v0] rest IH]; intros n Hb Hn Hk; [discriminate|].
  destruct n as [|n].
  - cbn in Hn. injection Hn as <- <-. cbn. apply Z.ltb_lt in Hk. rewrite Hk. reflexivity.
  - cbn. pose proof (Hb O k0 v0 ltac:(lia) eq_refl) as Hb0.
    replace (t <? k0) with false by (symmetry; apply Z.ltb_ge; exact Hb0).
    f_equal. apply IH; [|exact Hn|exact Hk].
    intros j kj vj Hj Hl. apply (Hb (S j) kj vj); [lia|exact Hl].
Qed.

(** Extra X5: on a time tree with increasing keys, [time_tree_lookup]
    finds an ordinal for a time exactly when two consecutive entries of the
    tree bracket it (the lower key at most the time, the upper key above
    it): a time before the first key or at or after the last key is not
    found. *)
Theorem time_tree_lookup_found (tree : Traced.map_t) (t : Z) :
  Traced.keys_increasing tree = true ->
  (Traced.time_tree_lookup tree t <> None <->
   exists i k1 o1 k2 o2, tree !! i = Some (k1, o1) /\ tree !! S i = Some (k2, o2) /\
                         k1 <= t < k2).
Proof.
  intros Hs. unfold Traced.time_tree_lookup.
  pose proof (upper_bound_le tree t) as Hle.
  split.
  - destruct (Traced.upper_bound tree t) as [|n] eqn:Eu; [cbn; congruence|].
    destruct (S n =? length tree)%nat eqn:El; [cbn; congruence|].
    apply Nat.eqb_neq in El. cbn [orb Nat.eqb].
    destruct (tree !! S n) as [[k2 o2]|] eqn:E2;
      [|apply lookup_ge_None in E2; lia].
    replace (S n - 1)%nat with n by lia.
    destruct (tree !! n) as [[k1 o1]|] eqn:E1;
      [|apply lookup_ge_None in E1; lia].
    intros _. exists n, k1, o1, k2, o2. repeat split; auto.
    + apply (upper_bound_before tree t n k1 o1); [lia|exact E1].
    + apply (upper_bound_at tree t k2 o2). rewrite Eu. exact E2.
  - intros (i & k1 & o1 & k2 & o2 & H1 & H2 & Hk).
    assert (Hu : Traced.upper_bound tree t = S i).
    { apply (upper_bound_char tree t (S i) k2 o2); [|exact H2|lia].
      intros j kj vj Hj Hl.
      destruct (Nat.eq_dec j i) as [->|Hne].
      - rewrite H1 in Hl. injection Hl as <- <-. lia.
      - pose proof (keys_increasing_lt tree j i kj vj k1 o1 Hs ltac:(lia) Hl H1). lia. }
    rewrite Hu.
    assert (Hlen : (S i < length tree)%nat) by (apply lookup_lt_Some in H2; exact H2).
    replace (S i =? 0)%nat with false by reflexivity.
    replace (S i =? length tree)%nat with false by (symmetry; apply Nat.eqb_neq; lia).
    cbn [orb]. rewrite H2. replace (S i - 1)%nat with i by lia. rewrite H1. discriminate.
Qed.

Lemma map_find_assign (k k' v : Z) (m : Traced.map_t) :
  Traced.map_find k (Traced.map_assign k' v m) =
  if k =? k' then Some v else Traced.map_find k m.
Proof.
  induction m as [|[k0 v0] rest IH]; cbn.
  - destruct (k =? k'); reflexivity.
  - destruct (Z.eqb_spec k' k0) as [->|Hne].
    + cbn. destruct (k =? k0); reflexivity.
    + destruct (k' <? k0); cbn; [destruct (k =? k'); reflexivity|].
      rewrite IH. destruct (Z.eqb_spec k k0) as [->|Hk0]; [|reflexivity].
      destruct (Z.eqb_spec k0 k') as [->|]; [congruence|reflexivity].
Qed.

Lemma keys_increasing_cons (k v : Z) (m : Traced.map_t) :
  Traced.keys_increasing ((k, v) :: m) = true <->
  (match m with [] => True | (k2, _) :: _ => k < k2 end) /\ Traced.keys_increasing m = true.
Proof.
  destruct m as [|[k2 v2] r]; cbn; [tauto|].
  rewrite andb_true_iff, Z.ltb_lt. tauto.
Qed.

Lemma map_assign_head (k v : Z) (m : Traced.map_t) :
  match Traced.map_assign k v m with
  | [] => False
  | (k1, _) :: _ => k1 = k \/ exists v1 m1, m = (k1, v1) :: m1
  end.
Proof.
  destruct m as [|[k0 v0] rest]; cbn; [auto|].
  destruct (k =? k0); [auto|]. destruct (k <? k0); [auto|]. right. eauto.
Qed.

Lemma map_assign_increasing (k v : Z) (m : Traced.map_t) :
  Traced.keys_increasing m = true -> Traced.keys_increasing (Traced.map_assign k v m) = true.
Proof.
  induction m as [|[k0 v0] rest IH]; intros Hs; cbn; [reflexivity|].
  apply keys_increasing_cons in Hs as [Hh Hr].
  destruct (Z.eqb_spec k k0) as [->|Hne].
  - apply keys_increasing_cons. auto.
  - destruct (k <? k0) eqn:Elt.
    + apply Z.ltb_lt in Elt. apply keys_increasing_cons. split; [exact Elt|].
      apply keys_increasing_cons. auto.
    + apply Z.ltb_ge in Elt. apply keys_increasing_cons. split; [|auto].
      pose proof (map_assign_head k v rest) as Hd.
      destruct (Traced.map_assign k v rest) as [|[k1 v1] r1]; [exact I|].
      destruct Hd as [->|(v2 & m2 & ->)]; [lia|exact Hh].
Qed.

Lemma last_cons_option {A} (x : A) (l : list A) :
  last (x :: l) = match last l with Some y => Some y | None => Some x end.
Proof.
  induction l as [|y l IH]; [reflexivity|].
  change (last (x :: y :: l)) with (last (y :: l)).
  destruct l as [|z l]; [reflexivity|]. exact IH.
Qed.

Lemma build_time_tree_fold (sched : list Traced.Tracker.schedule_input_tracker_t)
  (m : Traced.map_t) (k : Z) :
  (Traced.keys_increasing m = true ->
   Traced.keys_increasing
     (fold_left (fun m s => Traced.map_assign (Traced.Tracker.timestamp s)
                              (Traced.Tracker.start_instruction s) m) sched m) = true) /\
  Traced.map_find k
    (fold_left (fun m s => Traced.map_assign (Traced.Tracker.timestamp s)
                             (Traced.Tracker.start_instruction s) m) sched m) =
  match last (List.filter (fun s => Traced.Tracker.timestamp s =? k) sched) with
  | Some s => Some (Traced.Tracker.start_instruction s)
  | None => Traced.map_find k m
  end.
Proof.
  revert m. induction sched as [|s rest IH]; intros m; cbn [fold_left]; [auto|].
  destruct (IH (Traced.map_assign (Traced.Tracker.timestamp s)
                  (Traced.Tracker.start_instruction s) m)) as [IH1 IH2].
  split; [intros Hs; apply IH1, map_assign_increasing, Hs|].
  rewrite IH2, map_find_assign. cbn [List.filter].
  destruct (Z.eqb_spec (Traced.Tracker.timestamp s) k) as [Heq|Hne].
  - rewrite last_cons_option. rewrite Heq, Z.eqb_refl.
    destruct (last (List.filter _ rest)); reflexivity.
  - replace (Traced.Tracker.timestamp s =? k) with false
      by (symmetry; apply Z.eqb_neq; congruence).
    replace (k =? Traced.Tracker.timestamp s) with false
      by (symmetry; apply Z.eqb_neq; congruence). reflexivity.
Qed.

(** Extra X6: the time tree built from an input's schedule has strictly
    increasing keys, and the value at a timestamp is the start ordinal of
    the last schedule entry with that timestamp (none when no entry has
    it). *)
Theorem build_time_tree_find (sched : list Traced.Tracker.schedule_input_tracker_t) (k : Z) :
  Traced.keys_increasing (Traced.build_time_tree sched) = true /\
  Traced.map_find k (Traced.build_time_tree sched) =
  option_map Traced.Tracker.start_instruction
    (last (List.filter (fun s => Traced.Tracker.timestamp s =? k) sched)).
Proof.
  unfold Traced.build_time_tree.
  destruct (build_time_tree_fold sched [] k) as [H1 H2].
  split; [apply H1; reflexivity|]. rewrite H2.
  destruct (last _); reflexivity.
Qed.

Lemma upper_bound_at_key (tree : Traced.map_t) (i : nat) (k o k2 o2 t : Z) :
  Traced.keys_increasing tree = true ->
  tree !! i = Some (k, o) -> tree !! S i = Some (k2, o2) -> k <= t < k2 ->
  Traced.upper_bound tree t = S i.
Proof.
  intros Hs H1 H2 Hk.
  apply (upper_bound_char tree t (S i) k2 o2); [|exact H2|lia].
  intros j kj vj Hj Hl.
  destruct (Nat.eq_dec j i) as [->|Hne].
  - rewrite H1 in Hl. injection Hl as <- <-. lia.
  - pose proof (keys_increasing_lt tree j i kj vj k o Hs ltac:(lia) Hl H1). lia.
Qed.

(** Extra X7: looking up a key of the time tree that has a successor gives
    back exactly that key's ordinal, when the numbers are small enough for
    the interpolation in doubles to be exact. *)
Theorem time_tree_lookup_at_key (tree : Traced.map_t) (i : nat) (k o k2 o2 : Z) :
  Traced.keys_increasing tree = true ->
  tree !! i = Some (k, o) -> tree !! S i = Some (k2, o2) ->
  0 <= k -> k2 < two64 -> k2 - k < 2 ^ 53 -> 0 <= o <= o2 -> o2 < 2 ^ 53 ->
  Traced.time_tree_lookup tree k = Some o.
Proof.
  intros Hs H1 H2 Hk0 Hk2 Hdk Ho Ho2.
  pose proof (keys_increasing_lt tree i (S i) k o k2 o2 Hs ltac:(lia) H1 H2) as Hlt.
  pose proof (upper_bound_at_key tree i k o k2 o2 k Hs H1 H2 ltac:(lia)) as Hu.
  assert (Hlen : (S i < length tree)%nat) by (apply lookup_lt_Some in H2; exact H2).
  unfold Traced.time_tree_lookup. rewrite Hu.
  replace (S i =? 0)%nat with false by reflexivity.
  replace (S i =? length tree)%nat with false by (symmetry; apply Nat.eqb_neq; lia).
  cbn [orb]. rewrite H2. replace (S i - 1)%nat with i by lia. rewrite H1.
  replace (u64_sub k k) with 0 by (unfold u64_sub; rewrite Z.sub_diag; reflexivity).
  rewrite (u64_sub_small k2 k) by lia. rewrite (u64_sub_small o2 o) by (unfold two64; lia).
  change (double_of_u64 0) with (S754_zero false).
  rewrite (double_of_u64_exact (k2 - k)) by lia.
  change (Traced.ddiv (S754_zero false) (S754_finite false _ _)) with (S754_zero false).
  assert (Hm : dmul (S754_zero false) (double_of_u64 (o2 - o)) = S754_zero false).
  { destruct (Z.eq_dec o2 o) as [->|Hne].
    - rewrite Z.sub_diag. reflexivity.
    - rewrite (double_of_u64_exact (o2 - o)) by lia. reflexivity. }
  rewrite Hm. f_equal.
  destruct (Z.eq_dec o 0) as [->|Hne].
  - reflexivity.
  - rewrite (double_of_u64_exact o) by lia.
    change (Traced.dadd (S754_finite false ?m ?e) (S754_zero false))
      with (S754_finite false m e).
    apply u64_of_double_exact. lia.
Qed.

Lemma separated_snoc (l : list Traced.Range.range_t) (x : Traced.Range.range_t) :
  (forall j a b, l !! j = Some a -> l !! S j = Some b ->
     Traced.Range.stop_instruction a <> 0 /\
     Traced.Range.stop_instruction a < Traced.Range.start_instruction b) ->
  (forall b, last l = Some b ->
     Traced.Range.stop_instruction b <> 0 /\
     Traced.Range.stop_instruction b < Traced.Range.start_instruction x) ->
  forall j a b, (l ++ [x]) !! j = Some a -> (l ++ [x]) !! S j = Some b ->
    Traced.Range.stop_instruction a <> 0 /\
    Traced.Range.stop_instruction a < Traced.Range.start_instruction b.
Proof.
  intros Hl Hlast j a b Ha Hb.
  assert (Hj : (S j <= length l)%nat).
  { apply lookup_lt_Some in Hb. rewrite length_app in Hb. cbn in Hb. lia. }
  rewrite lookup_app_l in Ha by lia.
  destruct (Nat.eq_dec (S j) (length l)) as [Heq|Hne].
  - rewrite lookup_app_r in Hb by lia. rewrite Heq, Nat.sub_diag in Hb.
    cbn in Hb. injection Hb as <-. apply Hlast.
    destruct l as [|y l] using rev_ind; [cbn in Heq; lia|].
    rewrite last_snoc. rewrite length_app in Heq. cbn in Heq.
    rewrite lookup_app_r in Ha by lia. replace (j - length l)%nat with O in Ha by lia.
    exact Ha.
  - rewrite lookup_app_l in Hb by lia. exact (Hl j a b Ha Hb).
Qed.

Lemma times_loop_separated (tree : Traced.map_t) (times : list Traced.timestamp_range_t)
  (acc : list Traced.Range.range_t) (entire : bool) (rs : list Traced.Range.range_t)
  (entire' : bool) :
  (forall j a b, acc !! j = Some a -> acc !! S j = Some b ->
     Traced.Range.stop_instruction a <> 0 /\
     Traced.Range.stop_instruction a < Traced.Range.start_instruction b) ->
  Traced.times_loop tree times acc entire = Some (rs, entire') ->
  forall j a b, rs !! j = Some a -> rs !! S j = Some b ->
    Traced.Range.stop_instruction a <> 0 /\
    Traced.Range.stop_instruction a < Traced.Range.start_instruction b.
Proof.
  revert acc entire. induction times as [|t rest IH]; intros acc entire Hacc Hrun.
  - cbn in Hrun. injection Hrun as <- <-. exact Hacc.
  - cbn [Traced.times_loop] in Hrun.
    destruct (Traced.time_tree_lookup tree (Traced.start_timestamp t)) as [s|];
    destruct (Traced.stop_timestamp t =? 0);
    try destruct (Traced.time_tree_lookup tree (Traced.stop_timestamp t)) as [e|];
    repeat match type of Hrun with
           | context [if ?c then _ else _] =>
               lazymatch c with
               | context [last acc] => fail
               | _ => destruct c
               end
           end;
    try (eapply IH; [exact Hacc|exact Hrun]);
    (destruct (last acc) as [b|] eqn:El;
     [destruct (_ <=? Traced.Range.stop_instruction b) eqn:E1;
      destruct (Traced.Range.stop_instruction b =? 0) eqn:E2; cbn [orb] in Hrun;
      try discriminate;
      eapply IH; [|exact Hrun]; apply separated_snoc; [exact Hacc|];
      intros b' Hb'; rewrite El in Hb'; injection Hb' as <-;
      apply Z.leb_gt in E1; apply Z.eqb_neq in E2; cbn; lia
     |eapply IH; [|exact Hrun]; apply separated_snoc; [exact Hacc|];
      intros b' Hb'; rewrite El in Hb'; discriminate]).
Qed.

(** Extra X8: when [create_regions_from_times] adds a thread modifier for a
    thread, its list of ranges is not empty, and every range but the last
    has a nonzero stop ordinal below the start ordinal of the next range. *)
Theorem tid_regions_separated (tree : Traced.map_t) (times : list Traced.timestamp_range_t)
  (rs : list Traced.Range.range_t) :
  Traced.tid_regions tree times = Some (Some rs) ->
  rs <> [] /\
  forall j a b, rs !! j = Some a -> rs !! S j = Some b ->
    Traced.Range.stop_instruction a <> 0 /\
    Traced.Range.stop_instruction a < Traced.Range.start_instruction b.
Proof.
  unfold Traced.tid_regions.
  destruct (Traced.times_loop tree times [] false) as [[rs0 []]|] eqn:E; try discriminate.
  cbn [negb andb]. intros H. injection H as <-.
  pose proof (times_loop_separated tree times [] false rs0 false
                ltac:(intros j a b Ha; discriminate) E) as Hsep.
  destruct rs0 as [|r0 rs0]; cbn.
  - split; [discriminate|]. intros j a b _ Hb. destruct j; discriminate.
  - split; [discriminate|exact Hsep].
Qed.

Lemma modulo_walk_adjust (prev add : Z) (io f : bool) (t2a : list (Z * Z))
  (l l' : list Traced.Tracker.schedule_input_tracker_t) (t2a' : list (Z * Z)) (f' : bool) :
  0 <= prev < Traced.DEFAULT_CHUNK_SIZE -> 0 <= add -> add mod Traced.DEFAULT_CHUNK_SIZE = 0 ->
  add + Traced.DEFAULT_CHUNK_SIZE * (Z.of_nat (length l) + 1) <= two64 ->
  Forall (fun s => 0 <= Traced.Tracker.start_instruction s < Traced.DEFAULT_CHUNK_SIZE) l ->
  Traced.modulo_walk prev add io f t2a l = inr (l', t2a', f') ->
  Forall2 (fun s s' => s' = Traced.with_start s (Traced.Tracker.start_instruction s') /\
             Traced.Tracker.start_instruction s' mod Traced.DEFAULT_CHUNK_SIZE =
               Traced.Tracker.start_instruction s /\
             Traced.Tracker.start_instruction s <= Traced.Tracker.start_instruction s') l l' /\
  Forall (fun s' => prev + add <= Traced.Tracker.start_instruction s') l' /\
  StronglySorted Z.le (map Traced.Tracker.start_instruction l') /\
  t2a' = t2a ++ map (fun s' => (Traced.Tracker.timestamp s', Traced.Tracker.start_instruction s')) l'.
Proof.
  revert prev add io f t2a l' t2a' f'.
  induction l as [|sched rest IH];
    intros prev add io f t2a l' t2a' f' Hp Ha Hm Hb Hs Hrun.
  - cbn in Hrun. injection Hrun as <- <- <-. cbn. rewrite app_nil_r.
    repeat split; constructor.
  - inversion Hs as [|? ? [Hs0 Hs1] Hrest]; subst.
    cbn [length] in Hb. rewrite Nat2Z.inj_succ in Hb.
    set (s := Traced.Tracker.start_instruction sched) in *.
    assert (Hstep : (exists add1 io1 f1,
      (if s <? prev then
         if Traced.DEFAULT_CHUNK_SIZE <? (prev * 2) mod two64 then
           inr ((add + Traced.DEFAULT_CHUNK_SIZE) mod two64, false, if io then true else f)
         else inl "Invalid decreasing start field in schedule file"%string
       else inr (add, io, f)) = inr (add1, io1, f1) /\
      add1 mod Traced.DEFAULT_CHUNK_SIZE = 0 /\ add <= add1 <= add + Traced.DEFAULT_CHUNK_SIZE /\
      prev + add <= s + add1) \/
      (if s <? prev then
         if Traced.DEFAULT_CHUNK_SIZE <? (prev * 2) mod two64 then
           inr ((add + Traced.DEFAULT_CHUNK_SIZE) mod two64, false, if io then true else f)
         else inl "Invalid decreasing start field in schedule file"%string
       else inr (add, io, f)) = inl "Invalid decreasing start field in schedule file"%string).
    { destruct (Z.ltb_spec s prev) as [Hlt|Hge].
      - destruct (Traced.DEFAULT_CHUNK_SIZE <? (prev * 2) mod two64); [|right; reflexivity].
        left. exists (add + Traced.DEFAULT_CHUNK_SIZE), false, (if io then true else f).
        rewrite (Z.mod_small (add + Traced.DEFAULT_CHUNK_SIZE)) by (unfold two64 in *;
          unfold Traced.DEFAULT_CHUNK_SIZE in *; lia).
        split; [reflexivity|]. split.
        + rewrite <- (Z.mul_1_l Traced.DEFAULT_CHUNK_SIZE) at 1. rewrite Z_mod_plus_full. exact Hm.
        + unfold Traced.DEFAULT_CHUNK_SIZE in *. lia.
      - left. exists add, io, f. repeat split; try reflexivity; auto; lia. }
    cbn [Traced.modulo_walk] in Hrun. fold s in Hrun.
    destruct Hstep as [(add1 & io1 & f1 & Hr & Hm1 & Ha1 & Hord)|Hr];
      rewrite Hr in Hrun; [|discriminate].
    destruct (existsb _ t2a); [discriminate|].
    assert (Hadj : (s + add1) mod two64 = s + add1)
      by (apply Z.mod_small; unfold two64, Traced.DEFAULT_CHUNK_SIZE in *; lia).
    rewrite Hadj in Hrun.
    destruct (Traced.modulo_walk s add1 io1 f1 _ rest) as [|[[l'' t2a''] f'']] eqn:Erec;
      [discriminate|].
    injection Hrun as <- <- <-.
    destruct (IH s add1 io1 f1 _ l'' t2a'' f'' ltac:(lia) ltac:(lia) Hm1
                ltac:(unfold Traced.DEFAULT_CHUNK_SIZE in *; lia) Hrest Erec)
      as (IH1 & IH2 & IH3 & IH4).
    assert (Hmod : (s + add1) mod Traced.DEFAULT_CHUNK_SIZE = s).
    { rewrite Z.add_mod by (unfold Traced.DEFAULT_CHUNK_SIZE; lia). rewrite Hm1, Z.add_0_r.
      rewrite Z.mod_mod by (unfold Traced.DEFAULT_CHUNK_SIZE; lia). apply Z.mod_small. lia. }
    split; [|split; [|split]].
    + constructor; [cbn; split; [reflexivity|split; [exact Hmod|lia]]|exact IH1].
    + constructor; [cbn; lia|]. eapply Forall_impl; [exact IH2|]. cbn. intros x Hx. lia.
    + cbn [map]. constructor; [exact IH3|]. apply Forall_map.
      eapply Forall_impl; [exact IH2|]. cbn. intros x Hx. lia.
    + rewrite IH4. cbn [map]. rewrite <- app_assoc. reflexivity.
Qed.

(** Extra X9: when every start ordinal is below [DEFAULT_CHUNK_SIZE] and
    [check_and_fix_modulo_problem_in_schedule] succeeds on an input's
    schedule, each entry only has its start ordinal raised by a multiple of
    the chunk size, the new start ordinals never decrease, and the
    timestamp-to-adjustment table records each entry's timestamp with its
    new start ordinal. *)
Theorem fix_modulo_input_repairs (l l' : list Traced.Tracker.schedule_input_tracker_t)
  (t2a : list (Z * Z)) (found : bool) :
  Forall (fun s => 0 <= Traced.Tracker.start_instruction s < Traced.DEFAULT_CHUNK_SIZE) l ->
  Z.of_nat (length l) < 2 ^ 40 ->
  Traced.fix_modulo_input l = inr (l', t2a, found) ->
  Forall2 (fun s s' => s' = Traced.with_start s (Traced.Tracker.start_instruction s') /\
             Traced.Tracker.start_instruction s' mod Traced.DEFAULT_CHUNK_SIZE =
               Traced.Tracker.start_instruction s /\
             Traced.Tracker.start_instruction s <= Traced.Tracker.start_instruction s') l l' /\
  StronglySorted Z.le (map Traced.Tracker.start_instruction l') /\
  t2a = map (fun s' => (Traced.Tracker.timestamp s', Traced.Tracker.start_instruction s')) l'.
Proof.
  intros Hs Hlen Hrun. unfold Traced.fix_modulo_input in Hrun.
  destruct (modulo_walk_adjust 0 0 true false [] l l' t2a found
              ltac:(unfold Traced.DEFAULT_CHUNK_SIZE; lia) ltac:(lia) eq_refl
              ltac:(unfold two64, Traced.DEFAULT_CHUNK_SIZE; lia) Hs Hrun)
    as (H1 & _ & H3 & H4).
  auto.
Qed.

Lemma modulo_walk_nodup (prev add : Z) (io f : bool) (t2a : list (Z * Z))
  (l : list Traced.Tracker.schedule_input_tracker_t) r :
  NoDup (map fst t2a) ->
  Traced.modulo_walk prev add io f t2a l = inr r ->
  NoDup (map fst t2a ++ map Traced.Tracker.timestamp l).
Proof.
  revert prev add io f t2a r.
  induction l as [|sched rest IH]; intros prev add io f t2a r Hn Hrun.
  - rewrite app_nil_r. exact Hn.
  - cbn [Traced.modulo_walk] in Hrun.
    destruct (_ <? prev); [destruct (_ <? _)|]; [| discriminate |];
    (destruct (existsb _ t2a) eqn:Ex; [discriminate|];
     destruct (Traced.modulo_walk _ _ _ _ _ rest) as [|[[l'' t2a''] f'']] eqn:Erec;
       [discriminate|];
     apply IH in Erec;
     [rewrite map_app in Erec; cbn in Erec; rewrite <- app_assoc in Erec; exact Erec|];
     rewrite map_app; apply NoDup_app; split; [exact Hn|]; split; [|apply NoDup_singleton];
     intros x Hx Hx'; apply list_elem_of_singleton in Hx'; subst x;
     apply list_elem_of_In, in_map_iff in Hx as [[ts v] [Hts Hin]];
     cbn in Hts; subst ts;
     assert (existsb (fun p => fst p =? Traced.Tracker.timestamp sched) t2a = true)
       by (apply existsb_exists; exists (Traced.Tracker.timestamp sched, v);
           split; [exact Hin|apply Z.eqb_refl]);
     congruence).
Qed.

(** Extra X10: [check_and_fix_modulo_problem_in_schedule] succeeds on an
    input's schedule only if its timestamps are pairwise distinct. *)
Theorem fix_modulo_input_distinct_timestamps (l : list Traced.Tracker.schedule_input_tracker_t) r :
  Traced.fix_modulo_input l = inr r -> NoDup (map Traced.Tracker.timestamp l).
Proof.
  intros Hrun. exact (modulo_walk_nodup 0 0 true false [] l r (NoDup_nil_2) Hrun).
Qed.

Lemma zero_segments_loop_spec (p : Traced.Tracker.schedule_input_tracker_t)
  (l : list Traced.Tracker.schedule_input_tracker_t) (x : Z * Z) :
  In x (Traced.zero_segments_loop (Some p) (Traced.Tracker.start_instruction p) l) <->
  exists i a b, (p :: l) !! i = Some a /\ (p :: l) !! S i = Some b /\
    Traced.Tracker.start_instruction b = Traced.Tracker.start_instruction a /\
    x = (Traced.Tracker.output a, Traced.Tracker.output_array_idx a).
Proof.
  revert p. induction l as [|s rest IH]; intros p.
  - cbn. split; [tauto|]. intros (i & a & b & _ & Hb & _). destruct i; discriminate.
  - cbn [Traced.zero_segments_loop]. rewrite in_app_iff, IH. split.
    + intros [Hx|(i & a & b & Ha & Hb & Hab & ->)].
      * destruct (Z.eqb_spec (Traced.Tracker.start_instruction s)
                    (Traced.Tracker.start_instruction p)) as [Heq|]; [|destruct Hx].
        destruct Hx as [<-|[]]. exists O, p, s. auto.
      * exists (S i), a, b. auto.
    + intros ([|i] & a & b & Ha & Hb & Hab & ->).
      * left. cbn in Ha, Hb. injection Ha as <-. injection Hb as <-.
        rewrite Hab, Z.eqb_refl. left. reflexivity.
      * right. exists i, a, b. auto.
Qed.

(** Extra X11: [remove_zero_instruction_segments] invalidates, for one
    input, exactly the output segments of the schedule entries followed by
    an entry with the same start ordinal. *)
Theorem zero_segments_input_spec (l : list Traced.Tracker.schedule_input_tracker_t)
  (x : Z * Z) :
  In x (Traced.zero_segments_input l) <->
  exists i a b, l !! i = Some a /\ l !! S i = Some b /\
    Traced.Tracker.start_instruction b = Traced.Tracker.start_instruction a /\
    x = (Traced.Tracker.output a, Traced.Tracker.output_array_idx a).
Proof.
  unfold Traced.zero_segments_input. destruct l as [|s rest].
  - cbn. split; [tauto|]. intros (i & a & b & Ha & _). discriminate.
  - cbn [Traced.zero_segments_loop app]. apply zero_segments_loop_spec.
Qed.

Lemma lookup_repeat_some {A} (x y : A) (n i : nat) : repeat x n !! i = Some y -> y = x.
Proof.
  revert i. induction n as [|n IH]; intros [|i] H; cbn in H; try discriminate.
  - congruence.
  - exact (IH i H).
Qed.

Lemma read_cpu_switch_bounds (lim : option Z) (st : Traced.read_state)
  (e : Traced.Entry.schedule_entry_t) (cur cpu : Z) :
  Traced.read_cpu_switch lim st e = inr (cur, cpu) ->
  (cur = Traced.cur_output st \/ cur = Traced.cur_output st + 1) /\
  (forall n, lim = Some n -> Traced.cur_output st < n -> cur < n).
Proof.
  unfold Traced.read_cpu_switch.
  destruct (negb (Traced.Entry.cpu e =? Traced.cur_cpu st)).
  - destruct (negb (Traced.cur_cpu st =? u64_max)) eqn:Em; destruct lim as [m|];
      try destruct (m <=? _) eqn:Eb; cbn [andb]; intros H; try discriminate;
      injection H as <- <-; split; try lia; intros n Hn; try discriminate;
      injection Hn as <-; try (apply Z.leb_gt in Eb); lia.
  - intros H. injection H as <- <-. split; [lia|]. intros; lia.
Qed.

Lemma read_add_segment_shape (t2i : Traced.map_t) (st : Traced.read_state)
  (e : Traced.Entry.schedule_entry_t) (cur cpu : Z) :
  0 <= cur ->
  exists sched out,
    length sched = Nat.max (length (Traced.all_sched st)) (Z.to_nat (cur + 1)) /\
    (forall o x, Traced.all_sched st !! o = Some x -> sched !! o = Some x) /\
    (forall o x, sched !! o = Some x -> Traced.all_sched st !! o = Some x \/ x = []) /\
    sched !! Z.to_nat cur = Some out /\
    Traced.cur_output (Traced.read_add_segment t2i st e cur cpu) = cur /\
    ((match last out with
      | Some b => Traced.map_get (Traced.Entry.thread e) t2i = Traced.Segment.input b /\
                  Traced.Entry.start_instruction e = Traced.Segment.start_instruction b
      | None => False
      end /\
      Traced.all_sched (Traced.read_add_segment t2i st e cur cpu) = sched /\
      Traced.input_sched (Traced.read_add_segment t2i st e cur cpu) = Traced.input_sched st)
     \/
     (~ match last out with
        | Some b => Traced.map_get (Traced.Entry.thread e) t2i = Traced.Segment.input b /\
                    Traced.Entry.start_instruction e = Traced.Segment.start_instruction b
        | None => False
        end /\
      Traced.all_sched (Traced.read_add_segment t2i st e cur cpu) =
        <[Z.to_nat cur := out ++ [Traced.Segment.mk true (Traced.map_get (Traced.Entry.thread e) t2i)
                                    (Traced.Entry.start_instruction e)
                                    (Traced.Entry.timestamp e)]]> sched /\
      Traced.input_sched (Traced.read_add_segment t2i st e cur cpu) =
        Traced.push_at (Traced.input_sched st) (Traced.map_get (Traced.Entry.thread e) t2i)
          (Traced.Tracker.mk cur (Z.of_nat (length out)) (Traced.Entry.start_instruction e)
             (Traced.Entry.timestamp e)))).
Proof.
  intros Hcur.
  set (sched := if (length (Traced.all_sched st) <? Z.to_nat (cur + 1))%nat
                then Traced.resize (Traced.all_sched st) (Z.to_nat (cur + 1))
                else Traced.all_sched st).
  assert (Hlen : length sched = Nat.max (length (Traced.all_sched st)) (Z.to_nat (cur + 1))).
  { subst sched. destruct (Nat.ltb_spec (length (Traced.all_sched st)) (Z.to_nat (cur + 1))).
    - unfold Traced.resize. rewrite length_app, repeat_length. lia.
    - lia. }
  assert (Hold : forall o x, Traced.all_sched st !! o = Some x -> sched !! o = Some x).
  { intros o x Ho. subst sched. destruct (_ <? _)%nat; [|exact Ho].
    unfold Traced.resize. rewrite lookup_app_l; [exact Ho|]. apply lookup_lt_Some in Ho. exact Ho. }
  assert (Hnew : forall o x, sched !! o = Some x -> Traced.all_sched st !! o = Some x \/ x = []).
  { intros o x Ho. subst sched. destruct (_ <? _)%nat; [|auto].
    unfold Traced.resize in Ho. apply lookup_app_Some in Ho as [Ho|[_ Ho]]; [auto|].
    right. exact (lookup_repeat_some _ _ _ _ Ho). }
  destruct (sched !! Z.to_nat cur) as [out|] eqn:Eout;
    [|apply lookup_ge_None in Eout; lia].
  exists sched, out. do 4 (split; [assumption|]).
  unfold Traced.read_add_segment. fold sched. rewrite Eout. cbn [from_option id].
  split; [destruct (match last out with Some b => _ | None => false end); reflexivity|].
  assert (Hpush : forall x, Traced.push_at sched cur x = <[Z.to_nat cur := out ++ [x]]> sched)
    by (intros x; unfold Traced.push_at; rewrite Eout; reflexivity).
  destruct (last out) as [b|] eqn:El.
  - destruct (Z.eqb_spec (Traced.map_get (Traced.Entry.thread e) t2i) (Traced.Segment.input b));
    destruct (Z.eqb_spec (Traced.Entry.start_instruction e) (Traced.Segment.start_instruction b));
    cbn [andb].
    + left. auto.
    + right. rewrite Hpush. cbn [Traced.all_sched Traced.input_sched].
      rewrite list_lookup_insert_eq by (apply lookup_lt_Some in Eout; exact Eout).
      cbn [from_option id]. rewrite length_app. cbn [length].
      repeat split; [tauto|]. f_equal. f_equal. lia.
    + right. rewrite Hpush. cbn [Traced.all_sched Traced.input_sched].
      rewrite list_lookup_insert_eq by (apply lookup_lt_Some in Eout; exact Eout).
      cbn [from_option id]. rewrite length_app. cbn [length].
      repeat split; [tauto|]. f_equal. f_equal. lia.
    + right. rewrite Hpush. cbn [Traced.all_sched Traced.input_sched].
      rewrite list_lookup_insert_eq by (apply lookup_lt_Some in Eout; exact Eout).
      cbn [from_option id]. rewrite length_app. cbn [length].
      repeat split; [tauto|]. f_equal. f_equal. lia.
  - right. rewrite Hpush. cbn [Traced.all_sched Traced.input_sched].
    rewrite list_lookup_insert_eq by (apply lookup_lt_Some in Eout; exact Eout).
    cbn [from_option id]. rewrite length_app. cbn [length].
    repeat split; [tauto|]. f_equal. f_equal. lia.
Qed.

Lemma read_loop_invariant (I : Traced.read_state -> Prop) (lim : option Z) (t2i : Traced.map_t)
  (Hstep : forall st e st', Traced.read_step lim t2i st e = inr st' -> I st -> I st')
  (entries : list Traced.Entry.schedule_entry_t) (st st' : Traced.read_state) :
  Traced.read_loop lim t2i st entries = inr st' -> I st -> I st'.
Proof.
  revert st. induction entries as [|e rest IH]; intros st Hrun HI; cbn in Hrun.
  - injection Hrun as <-. exact HI.
  - destruct (Traced.read_step lim t2i st e) as [|st1] eqn:E; [discriminate|].
    exact (IH st1 Hrun (Hstep st e st1 E HI)).
Qed.

Lemma read_step_split (lim : option Z) (t2i : Traced.map_t) (st : Traced.read_state)
  (e : Traced.Entry.schedule_entry_t) (st' : Traced.read_state) :
  Traced.read_step lim t2i st e = inr st' ->
  exists cur cpu, Traced.read_cpu_switch lim st e = inr (cur, cpu) /\
                  st' = Traced.read_add_segment t2i st e cur cpu.
Proof.
  unfold Traced.read_step. destruct (Traced.read_cpu_switch lim st e) as [|[cur cpu]];
    intros H; [discriminate|]. injection H as <-. eauto.
Qed.

Lemma read_add_segment_ord2index (t2i : Traced.map_t) (st : Traced.read_state)
  (e : Traced.Entry.schedule_entry_t) (cur cpu : Z) :
  Traced.disk_ord2index (Traced.read_add_segment t2i st e cur cpu) =
  if negb (Traced.Entry.cpu e =? Traced.cur_cpu st)
  then Traced.disk_ord2index st ++ [cur] else Traced.disk_ord2index st.
Proof.
  unfold Traced.read_add_segment. cbv zeta.
  destruct (match _ with Some b => _ | None => false end); reflexivity.
Qed.

(** Extra X12: after reading the as-traced schedule, no output's segment
    list holds two consecutive segments of the same input with the same
    start ordinal. *)
Theorem read_traced_entries_no_repeat (lim : option Z) (tids : list Z)
  (entries : list Traced.Entry.schedule_entry_t) (st : Traced.read_state) :
  Traced.read_traced_entries lim tids entries = inr st ->
  Forall (fun out => forall j a b, out !! j = Some a -> out !! S j = Some b ->
            ~ (Traced.Segment.input b = Traced.Segment.input a /\
               Traced.Segment.start_instruction b = Traced.Segment.start_instruction a))
    (Traced.all_sched st).
Proof.
  intros Hrun.
  set (P := fun out : list Traced.Segment.schedule_output_tracker_t =>
              forall j a b, out !! j = Some a -> out !! S j = Some b ->
              ~ (Traced.Segment.input b = Traced.Segment.input a /\
                 Traced.Segment.start_instruction b = Traced.Segment.start_instruction a)).
  enough (H : 0 <= Traced.cur_output st /\ Forall P (Traced.all_sched st)) by apply H.
  refine (read_loop_invariant (fun st => 0 <= Traced.cur_output st /\ Forall P (Traced.all_sched st))
            lim _ _ entries _ st Hrun _); [|split; [cbn; lia|constructor]].
  intros st0 e st' Hs [Hc HP].
  apply read_step_split in Hs as (cur & cpu & Hsw & ->).
  destruct (read_cpu_switch_bounds lim st0 e cur cpu Hsw) as [Hcur _].
  destruct (read_add_segment_shape (Traced.build_tid2input tids) st0 e cur cpu ltac:(lia))
    as (sched & out & Hlen & Hold & Hnew & Hout & Hco & Hcase).
  rewrite Hco. split; [lia|].
  assert (HPs : Forall P sched).
  { apply Forall_lookup. intros o x Ho. destruct (Hnew o x Ho) as [Ho' | ->].
    - rewrite Forall_lookup in HP. exact (HP o x Ho').
    - intros j a b Ha. discriminate. }
  destruct Hcase as [(_ & -> & _)|(Hnd & -> & _)]; [exact HPs|].
  apply Forall_lookup. intros o x Ho.
  apply list_lookup_insert_Some in Ho as [(<- & <- & _)|(_ & Ho)];
    [|rewrite Forall_lookup in HPs; exact (HPs o x Ho)].
  rewrite Forall_lookup in HPs. pose proof (HPs _ _ Hout) as HPo.
  intros j a b Ha Hb [Hi Hst].
  assert (Hj : (S j <= length out)%nat).
  { apply lookup_lt_Some in Hb. rewrite length_app in Hb. cbn in Hb. lia. }
  rewrite lookup_app_l in Ha by lia.
  destruct (Nat.eq_dec (S j) (length out)) as [Heq|Hne].
  - rewrite lookup_app_r in Hb by lia. rewrite Heq, Nat.sub_diag in Hb.
    cbn in Hb. injection Hb as <-. apply Hnd.
    destruct out as [|y out'] using rev_ind; [cbn in Heq; lia|].
    rewrite last_snoc. rewrite length_app in Heq. cbn in Heq.
    rewrite lookup_app_r in Ha by lia. replace (j - length out')%nat with O in Ha by lia.
    cbn in Ha. injection Ha as <-. cbn in Hi, Hst. auto.
  - rewrite lookup_app_l in Hb by lia. exact (HPo j a b Ha Hb (conj Hi Hst)).
Qed.

(** Extra X13: when the number of outputs [n] limits the as-traced
    schedule, a successful read yields at most [n] output segment lists
    and maps every cpu to an output index in [0, n). *)
Theorem read_traced_entries_output_limit (n : Z) (tids : list Z)
  (entries : list Traced.Entry.schedule_entry_t) (st : Traced.read_state) :
  1 <= n ->
  Traced.read_traced_entries (Some n) tids entries = inr st ->
  Z.of_nat (length (Traced.all_sched st)) <= n /\
  Forall (fun i => 0 <= i < n) (Traced.disk_ord2index st).
Proof.
  intros Hn Hrun.
  enough (H : 0 <= Traced.cur_output st < n /\ Z.of_nat (length (Traced.all_sched st)) <= n /\
              Forall (fun i => 0 <= i < n) (Traced.disk_ord2index st)) by apply H.
  refine (read_loop_invariant
            (fun st => 0 <= Traced.cur_output st < n /\
                       Z.of_nat (length (Traced.all_sched st)) <= n /\
                       Forall (fun i => 0 <= i < n) (Traced.disk_ord2index st))
            (Some n) _ _ entries _ st Hrun _); [|cbn; repeat split; try lia; constructor].
  intros st0 e st' Hs (Hc & Hl & Hf).
  apply read_step_split in Hs as (cur & cpu & Hsw & ->).
  destruct (read_cpu_switch_bounds (Some n) st0 e cur cpu Hsw) as [Hcur Hlim].
  specialize (Hlim n eq_refl ltac:(lia)).
  destruct (read_add_segment_shape (Traced.build_tid2input tids) st0 e cur cpu ltac:(lia))
    as (sched & out & Hlen & Hold & Hnew & Hout & Hco & Hcase).
  rewrite Hco. split; [lia|]. split.
  - destruct Hcase as [(_ & -> & _)|(_ & -> & _)]; [|rewrite length_insert]; rewrite Hlen; lia.
  - rewrite read_add_segment_ord2index. destruct (negb _); [|exact Hf].
    apply Forall_app. split; [exact Hf|]. constructor; [lia|constructor].
Qed.

Lemma map_assign_nonneg (k v : Z) (m : Traced.map_t) :
  Forall (fun p => 0 <= snd p) m -> 0 <= v -> Forall (fun p => 0 <= snd p) (Traced.map_assign k v m).
Proof.
  induction m as [|[k0 v0] rest IH]; intros Hm Hv; cbn; [constructor; [exact Hv|constructor]|].
  inversion Hm as [|? ? H0 Hr]; subst.
  destruct (k =? k0); [constructor; auto|].
  destruct (k <? k0); constructor; auto.
Qed.

Lemma map_get_nonneg (k : Z) (m : Traced.map_t) :
  Forall (fun p => 0 <= snd p) m -> 0 <= Traced.map_get k m.
Proof.
  unfold Traced.map_get. induction m as [|[k0 v0] rest IH]; intros Hm; cbn; [lia|].
  inversion Hm as [|? ? H0 Hr]; subst. destruct (k =? k0); cbn in *; auto.
Qed.

Lemma build_tid2input_nonneg (tids : list Z) (k : Z) :
  0 <= Traced.map_get k (Traced.build_tid2input tids).
Proof.
  apply map_get_nonneg. unfold Traced.build_tid2input.
  enough (H : forall m i, Forall (fun p => 0 <= snd p) m -> 0 <= i ->
    Forall (fun p => 0 <= snd p)
      (fst (fold_left (fun '(m, i) t => (Traced.map_assign t i m, i + 1)) tids (m, i))))
    by (apply H; [constructor|lia]).
  induction tids as [|t rest IH]; intros m i Hm Hi; [exact Hm|].
  cbn [fold_left]. apply IH; [apply map_assign_nonneg; auto|lia].
Qed.

Lemma insert_keeps_pointer (sched : list (list Traced.Segment.schedule_output_tracker_t))
  (out : list Traced.Segment.schedule_output_tracker_t) (c o k : nat)
  (x seg : Traced.Segment.schedule_output_tracker_t)
  (out0 : list Traced.Segment.schedule_output_tracker_t) :
  sched !! c = Some out -> sched !! o = Some out0 -> out0 !! k = Some seg ->
  exists out1, <[c := out ++ [x]]> sched !! o = Some out1 /\ out1 !! k = Some seg.
Proof.
  intros Hc Ho Hk. destruct (Nat.eq_dec c o) as [<-|Hne].
  - rewrite Hc in Ho. injection Ho as Ho. subst out0. exists (out ++ [x]).
    rewrite list_lookup_insert_eq by (apply lookup_lt_Some in Hc; exact Hc).
    split; [reflexivity|]. rewrite lookup_app_l; [exact Hk|]. apply lookup_lt_Some in Hk. exact Hk.
  - exists out0. rewrite list_lookup_insert_ne by exact Hne. auto.
Qed.

(** Extra X14: after reading the as-traced schedule, each entry of an
    input's [input_sched] points, by its output and its index there, to a
    valid segment of [all_sched] of the same input with the same start
    ordinal and timestamp. *)
Theorem read_traced_entries_cross_index (lim : option Z) (tids : list Z)
  (entries : list Traced.Entry.schedule_entry_t) (st : Traced.read_state) :
  Traced.read_traced_entries lim tids entries = inr st ->
  forall inp l j t, Traced.input_sched st !! inp = Some l -> l !! j = Some t ->
  exists out seg,
    Traced.all_sched st !! Z.to_nat (Traced.Tracker.output t) = Some out /\
    out !! Z.to_nat (Traced.Tracker.output_array_idx t) = Some seg /\
    Traced.Segment.valid seg = true /\
    Traced.Segment.input seg = Z.of_nat inp /\
    Traced.Segment.start_instruction seg = Traced.Tracker.start_instruction t /\
    Traced.Segment.timestamp seg = Traced.Tracker.timestamp t.
Proof.
  intros Hrun.
  set (CI := fun st : Traced.read_state =>
    forall inp l j t, Traced.input_sched st !! inp = Some l -> l !! j = Some t ->
    exists out seg,
      Traced.all_sched st !! Z.to_nat (Traced.Tracker.output t) = Some out /\
      out !! Z.to_nat (Traced.Tracker.output_array_idx t) = Some seg /\
      Traced.Segment.valid seg = true /\
      Traced.Segment.input seg = Z.of_nat inp /\
      Traced.Segment.start_instruction seg = Traced.Tracker.start_instruction t /\
      Traced.Segment.timestamp seg = Traced.Tracker.timestamp t).
  enough (H : 0 <= Traced.cur_output st /\ CI st) by apply H.
  refine (read_loop_invariant (fun st => 0 <= Traced.cur_output st /\ CI st)
            lim _ _ entries _ st Hrun _).
  2:{ split; [cbn; lia|]. intros inp l j t Hl Ht. cbn in Hl.
      apply lookup_repeat_some in Hl. subst l. discriminate. }
  intros st0 e st' Hs [Hc HCI].
  apply read_step_split in Hs as (cur & cpu & Hsw & ->).
  destruct (read_cpu_switch_bounds lim st0 e cur cpu Hsw) as [Hcur _].
  destruct (read_add_segment_shape (Traced.build_tid2input tids) st0 e cur cpu ltac:(lia))
    as (sched & out & Hlen & Hold & Hnew & Hout & Hco & Hcase).
  rewrite Hco. split; [lia|].
  destruct Hcase as [(_ & Has & His)|(_ & Has & His)].
  - intros inp l j t Hl Ht. rewrite His in Hl. rewrite Has.
    destruct (HCI inp l j t Hl Ht) as (out0 & seg & H1 & H2 & H3).
    exists out0, seg. split; [apply Hold; exact H1|]. auto.
  - intros inp l j t Hl Ht. rewrite Has.
    set (input := Traced.map_get (Traced.Entry.thread e) (Traced.build_tid2input tids)) in *.
    pose proof (build_tid2input_nonneg tids (Traced.Entry.thread e)) as Hin.
    fold input in Hin.
    assert (Hprev : forall l0 j0 t0, Traced.input_sched st0 !! inp = Some l0 -> l0 !! j0 = Some t0 ->
      exists out1 seg, <[Z.to_nat cur := out ++ [Traced.Segment.mk true input
                         (Traced.Entry.start_instruction e) (Traced.Entry.timestamp e)]]> sched
                         !! Z.to_nat (Traced.Tracker.output t0) = Some out1 /\
        out1 !! Z.to_nat (Traced.Tracker.output_array_idx t0) = Some seg /\
        Traced.Segment.valid seg = true /\
        Traced.Segment.input seg = Z.of_nat inp /\
        Traced.Segment.start_instruction seg = Traced.Tracker.start_instruction t0 /\
        Traced.Segment.timestamp seg = Traced.Tracker.timestamp t0).
    { intros l0 j0 t0 Hl0 Ht0.
      destruct (HCI inp l0 j0 t0 Hl0 Ht0) as (out0 & seg & H1 & H2 & H3).
      destruct (insert_keeps_pointer sched out (Z.to_nat cur) _ _ (Traced.Segment.mk true input (Traced.Entry.start_instruction e) (Traced.Entry.timestamp e)) _ out0 Hout (Hold _ _ H1) H2)
        as (out1 & H4 & H5).
      exists out1, seg. auto. }
    rewrite His in Hl. unfold Traced.push_at in Hl.
    destruct (Traced.input_sched st0 !! Z.to_nat input) as [li|] eqn:Ei; [|exact (Hprev l j t Hl Ht)].
    apply list_lookup_insert_Some in Hl as [(Heq & <- & _)|(_ & Hl)]; [|exact (Hprev l j t Hl Ht)].
    subst inp. apply lookup_app_Some in Ht as [Ht|[Hge Ht]]; [exact (Hprev li j t Ei Ht)|].
    destruct (j - length li)%nat; [|discriminate]. cbn in Ht. injection Ht as <-.
    cbn [Traced.Tracker.output Traced.Tracker.output_array_idx Traced.Tracker.start_instruction
         Traced.Tracker.timestamp].
    exists (out ++ [Traced.Segment.mk true input (Traced.Entry.start_instruction e)
                      (Traced.Entry.timestamp e)]).
    exists (Traced.Segment.mk true input (Traced.Entry.start_instruction e) (Traced.Entry.timestamp e)).
    rewrite list_lookup_insert_eq by (apply lookup_lt_Some in Hout; exact Hout).
    rewrite Nat2Z.id, lookup_app_r, Nat.sub_diag by lia. cbn.
    repeat split; try reflexivity. rewrite Z2Nat.id by exact Hin. reflexivity.
Qed.

Section ROIProofs.

Variable reader : Type.
Variable reader_init : reader -> reader.
Variable reader_skip_instructions : reader -> Z -> reader.
Variable reader_at_end : reader -> bool.
Variable reader_instruction_ordinal : reader -> Z.

Lemma roi_enter_regions (cur_range : Traced.Range.range_t) (ci cri : Z)
  (regions : list Traced.Range.range_t) (i : Skip.input_info reader) (live : Z) (record : trace_record) :
  let '(_, _, regions', _, _) :=
    ROI.roi_enter reader reader_init reader_skip_instructions reader_at_end
      cur_range ci cri regions i live record in
  regions' = regions.
Proof.
  unfold ROI.roi_enter.
  destruct (negb _ && _); [destruct (0 <? _); reflexivity|].
  destruct (Skip.in_cur_region reader i && _); [reflexivity|].
  destruct (_ <? cri); [reflexivity|].
  destruct (Skip.skip_instructions _ _ _ _ _ _ _) as [[s i'] l']. reflexivity.
Qed.

(** Extra X15: when [advance_region_of_interest] moves from a finished
    region to a next one, it copies the next region over the finished one
    in [regions_of_interest] (the range is updated through a reference),
    so both slots then hold the next region. *)
Theorem advance_region_overwrites_finished_slot (regions : list Traced.Range.range_t)
  (i : Skip.input_info reader) (live : Z) (record : trace_record) (r r' : Traced.Range.range_t) :
  0 <= Skip.cur_region reader i ->
  regions !! Z.to_nat (Skip.cur_region reader i) = Some r ->
  regions !! S (Z.to_nat (Skip.cur_region reader i)) = Some r' ->
  Skip.in_cur_region reader i = true ->
  Traced.Range.stop_instruction r <> 0 ->
  Traced.Range.stop_instruction r < ROI.get_instr_ordinal reader reader_instruction_ordinal i ->
  let '(_, _, regions', _, _) :=
    ROI.advance_region_of_interest reader reader_init reader_skip_instructions reader_at_end
      reader_instruction_ordinal regions i live record in
  regions' = <[Z.to_nat (Skip.cur_region reader i) := r']> regions /\
  regions' !! Z.to_nat (Skip.cur_region reader i) = Some r' /\
  regions' !! S (Z.to_nat (Skip.cur_region reader i)) = Some r'.
Proof.
  intros Hc Hr Hr' Hin Hstop Hlt.
  unfold ROI.advance_region_of_interest. rewrite Hr. cbn [from_option id].
  rewrite Hin. replace (Traced.Range.stop_instruction r =? 0) with false
    by (symmetry; apply Z.eqb_neq; exact Hstop).
  replace (Traced.Range.stop_instruction r <? _) with true by (symmetry; apply Z.ltb_lt; exact Hlt).
  cbn [andb negb].
  assert (Hlen : (S (Z.to_nat (Skip.cur_region reader i)) < length regions)%nat)
    by (apply lookup_lt_Some in Hr'; exact Hr').
  cbn [ROI.next_region Skip.cur_region].
  replace (Z.of_nat (length regions) <=? Skip.cur_region reader i + 1) with false
    by (symmetry; apply Z.leb_gt; lia).
  replace (Z.to_nat (Skip.cur_region reader i + 1)) with (S (Z.to_nat (Skip.cur_region reader i)))
    by lia.
  rewrite Hr'. cbn [from_option id].
  match goal with
  | |- context [ROI.roi_enter ?a ?b ?c ?d ?e ?f ?g ?h ?j ?k ?l] =>
      pose proof (roi_enter_regions e f g h j k l) as He;
      destruct (ROI.roi_enter a b c d e f g h j k l) as [[[[o i'] rg] lv] rc]
  end.
  rewrite He. split; [reflexivity|]. split.
  - apply list_lookup_insert_eq. lia.
  - rewrite list_lookup_insert_ne by lia. exact Hr'.
Qed.

(** Extra X16: when the last region of interest is finished,
    [advance_region_of_interest] goes to [eof_or_idle] if the input is at
    EOF; otherwise it queues a thread exit, marks the input at EOF
    (one live input less) and returns [STATUS_SKIPPED], leaving the
    regions unchanged. *)
Theorem advance_region_past_last_region (regions : list Traced.Range.range_t)
  (i : Skip.input_info reader) (live : Z) (record : trace_record) (r : Traced.Range.range_t) :
  0 <= Skip.cur_region reader i ->
  regions !! Z.to_nat (Skip.cur_region reader i) = Some r ->
  S (Z.to_nat (Skip.cur_region reader i)) = length regions ->
  Skip.in_cur_region reader i = true ->
  Traced.Range.stop_instruction r <> 0 ->
  Traced.Range.stop_instruction r < ROI.get_instr_ordinal reader reader_instruction_ordinal i ->
  ROI.advance_region_of_interest reader reader_init reader_skip_instructions reader_at_end
    reader_instruction_ordinal regions i live record =
  if Skip.at_eof reader i then (ROI.roi_eof_or_idle, ROI.next_region reader i, regions, live, record)
  else (ROI.roi_status STATUS_SKIPPED,
        Skip.set_at_eof reader
          (Skip.set_queue reader (ROI.next_region reader i)
             (Skip.queue reader i ++ [ROI.create_thread_exit (Skip.tid reader i)])),
        regions, live - 1, record).
Proof.
  intros Hc Hr Hlen Hin Hstop Hlt.
  unfold ROI.advance_region_of_interest. rewrite Hr. cbn [from_option id].
  rewrite Hin. replace (Traced.Range.stop_instruction r =? 0) with false
    by (symmetry; apply Z.eqb_neq; exact Hstop).
  replace (Traced.Range.stop_instruction r <? _) with true by (symmetry; apply Z.ltb_lt; exact Hlt).
  cbn [andb negb].
  replace (Z.of_nat (length regions) <=? Skip.cur_region reader (ROI.next_region reader i)) with true
    by (symmetry; apply Z.leb_le; cbn; lia).
  cbn [ROI.next_region Skip.at_eof].
  destruct (Skip.at_eof reader i) eqn:Eof; [reflexivity|].
  unfold Skip.mark_input_eof. cbn. rewrite Eof. reflexivity.
Qed.

(** Extra X17: when the input is not in a region and has already reached
    the region's start, [advance_region_of_interest] enters the region
    with [STATUS_OK] and skips nothing; for a region after the first it
    queues the current record and replaces it by a region separator
    marker. *)
Theorem advance_region_back_to_back (regions : list Traced.Range.range_t)
  (i : Skip.input_info reader) (live : Z) (record : trace_record) (r : Traced.Range.range_t) :
  regions !! Z.to_nat (Skip.cur_region reader i) = Some r ->
  Skip.in_cur_region reader i = false ->
  Traced.Range.start_instruction r <= ROI.get_instr_ordinal reader reader_instruction_ordinal i ->
  ROI.advance_region_of_interest reader reader_init reader_skip_instructions reader_at_end
    reader_instruction_ordinal regions i live record =
  if 0 <? Skip.cur_region reader i
  then (ROI.roi_status STATUS_OK,
        Skip.set_queue reader (Skip.set_in_cur_region reader i) (Skip.queue reader i ++ [record]),
        regions, live,
        create_region_separator_marker (Skip.tid reader i) (Skip.cur_region reader i))
  else (ROI.roi_status STATUS_OK, Skip.set_in_cur_region reader i, regions, live, record).
Proof.
  intros Hr Hin Hle.
  unfold ROI.advance_region_of_interest. rewrite Hr. cbn [from_option id].
  rewrite Hin. cbn [andb]. unfold ROI.roi_enter. rewrite Hin. cbn [negb andb].
  replace (Traced.Range.start_instruction r <=? _) with true by (symmetry; apply Z.leb_le; exact Hle).
  reflexivity.
Qed.

(** Extra X18: when the input is before the next region's start,
    [advance_region_of_interest] fails with [STATUS_INVALID] if the reader
    is already past that start, and otherwise skips the start minus the
    reader's ordinal minus one instructions: a skip request of [u64_max]
    when the reader is exactly at the start. *)
Theorem advance_region_skip_request (regions : list Traced.Range.range_t)
  (i : Skip.input_info reader) (live : Z) (record : trace_record) (r : Traced.Range.range_t) :
  regions !! Z.to_nat (Skip.cur_region reader i) = Some r ->
  Skip.in_cur_region reader i = false ->
  ROI.get_instr_ordinal reader reader_instruction_ordinal i < Traced.Range.start_instruction r ->
  0 <= Traced.Range.start_instruction r < two64 ->
  0 <= reader_instruction_ordinal (Skip.rdr reader i) < two64 ->
  ROI.advance_region_of_interest reader reader_init reader_skip_instructions reader_at_end
    reader_instruction_ordinal regions i live record =
  if Traced.Range.start_instruction r <? reader_instruction_ordinal (Skip.rdr reader i)
  then (ROI.roi_status STATUS_INVALID, i, regions, live, record)
  else
    let '(s, i', live') :=
      Skip.skip_instructions reader reader_init reader_skip_instructions reader_at_end i live
        (if Traced.Range.start_instruction r =? reader_instruction_ordinal (Skip.rdr reader i)
         then u64_max
         else Traced.Range.start_instruction r - reader_instruction_ordinal (Skip.rdr reader i) - 1) in
    (ROI.roi_status s, i', regions, live', record).
Proof.
  intros Hr Hin Hlt Hs Hri.
  unfold ROI.advance_region_of_interest. rewrite Hr. cbn [from_option id].
  rewrite Hin. cbn [andb]. unfold ROI.roi_enter. rewrite Hin. cbn [negb andb].
  replace (Traced.Range.start_instruction r <=? _) with false by (symmetry; apply Z.leb_gt; exact Hlt).
  destruct (Z.ltb_spec (Traced.Range.start_instruction r)
              (reader_instruction_ordinal (Skip.rdr reader i))) as [Hb|Hb]; [reflexivity|].
  f_equal.
  destruct (Z.eqb_spec (Traced.Range.start_instruction r)
              (reader_instruction_ordinal (Skip.rdr reader i))) as [He|He].
  - rewrite He. unfold u64_sub. rewrite Z.sub_diag, Zmod_0_l.
    unfold u64_max. reflexivity.
  - rewrite (u64_sub_small (Traced.Range.start_instruction r)) by lia.
    rewrite u64_sub_small by lia. reflexivity.
Qed.

End ROIProofs.

(** Extra X19: [mark_input_eof] sets the input at EOF and decrements the
    live input count only when the input was not at EOF already, so
    marking twice is the same as marking once. *)
Theorem mark_input_eof_once (s : Sched.sched) (i : Z) :
  (Z.to_nat i < length (Sched.inputs s))%nat ->
  Sched.at_eof (Sched.inp (Sched.mark_input_eof s i) i) = true /\
  Sched.live_input_count (Sched.mark_input_eof s i) =
    (if Sched.at_eof (Sched.inp s i) then Sched.live_input_count s
     else Sched.live_input_count s - 1) /\
  Sched.mark_input_eof (Sched.mark_input_eof s i) i = Sched.mark_input_eof s i.
Proof.
  intros Hl. destruct (Sched.at_eof (Sched.inp s i)) eqn:E.
  - assert (Hm : Sched.mark_input_eof s i = s) by (unfold Sched.mark_input_eof; rewrite E; reflexivity).
    rewrite !Hm. auto.
  - set (s1 := Sched.with_live_input_count (Sched.upd_input s i (fun r => Sched.with_at_eof r true))
                 (Sched.live_input_count s - 1)).
    assert (Hm : Sched.mark_input_eof s i = s1) by (unfold Sched.mark_input_eof; rewrite E; reflexivity).
    rewrite !Hm.
    assert (Ha : Sched.at_eof (Sched.inp s1 i) = true).
    { subst s1. change (Sched.inp (Sched.with_live_input_count ?x ?v) i) with (Sched.inp x i).
      rewrite inp_upd_input_eq by exact Hl. reflexivity. }
    split; [exact Ha|]. split; [reflexivity|].
    unfold Sched.mark_input_eof. rewrite Ha. reflexivity.
Qed.

Lemma add_to_ready_queue_queues (s : Sched.sched) (i : Z) :
  Sched.outputs (Sched.add_to_ready_queue s i) = Sched.outputs s /\
  ((Sched.ready (Sched.add_to_ready_queue s i) = Sched.ready s ++ [i] /\
    Sched.unsched (Sched.add_to_ready_queue s i) = Sched.unsched s) \/
   (Sched.ready (Sched.add_to_ready_queue s i) = Sched.ready s /\
    Sched.unsched (Sched.add_to_ready_queue s i) = Sched.unsched s ++ [i])).
Proof.
  unfold Sched.add_to_ready_queue.
  destruct (Sched.unscheduled (Sched.inp s i) && _).
  - split; [reflexivity|]. right. split; reflexivity.
  - destruct (0 <? Sched.blocked_time (Sched.inp s i)); split; try reflexivity; left; split; reflexivity.
Qed.

(** Extra X20: [set_cur_input] returns [STATUS_OK] and makes [input] the
    output's current input, recording a valid previous input; that
    previous input goes back to the ready queue or to the unscheduled
    queue exactly when it differs from [input] and is not at EOF, and the
    queues are unchanged otherwise. *)
Theorem set_cur_input_requeues_previous (s : Sched.sched) (output input : Z) :
  (Z.to_nat output < length (Sched.outputs s))%nat ->
  let prev := Sched.cur_input (Sched.outp s output) in
  let '(st, s') := Sched.set_cur_input s output input in
  st = STATUS_OK /\
  Sched.cur_input (Sched.outp s' output) = input /\
  (0 <= prev -> Sched.prev_input (Sched.outp s' output) = prev) /\
  (if (0 <=? prev) && negb (prev =? input) && negb (Sched.at_eof (Sched.inp s prev)) then
     (Sched.ready s' = Sched.ready s ++ [prev] /\ Sched.unsched s' = Sched.unsched s) \/
     (Sched.ready s' = Sched.ready s /\ Sched.unsched s' = Sched.unsched s ++ [prev])
   else Sched.ready s' = Sched.ready s /\ Sched.unsched s' = Sched.unsched s).
Proof.
  intros Hl prev. unfold Sched.set_cur_input. fold prev.
  set (s1 := if 0 <=? prev then
               if negb (prev =? input) && negb (Sched.at_eof (Sched.inp s prev))
               then Sched.add_to_ready_queue s prev else s
             else s).
  assert (Ho1 : Sched.outputs s1 = Sched.outputs s).
  { subst s1. destruct (0 <=? prev); [|reflexivity].
    destruct (_ && _); [apply add_to_ready_queue_queues|reflexivity]. }
  assert (Hq1 : if (0 <=? prev) && negb (prev =? input) && negb (Sched.at_eof (Sched.inp s prev)) then
     (Sched.ready s1 = Sched.ready s ++ [prev] /\ Sched.unsched s1 = Sched.unsched s) \/
     (Sched.ready s1 = Sched.ready s /\ Sched.unsched s1 = Sched.unsched s ++ [prev])
   else Sched.ready s1 = Sched.ready s /\ Sched.unsched s1 = Sched.unsched s).
  { subst s1. destruct (0 <=? prev); cbn [andb]; [|auto].
    destruct (negb (prev =? input) && _); [apply add_to_ready_queue_queues|auto]. }
  assert (Hp1 : Sched.outp s1 output = Sched.outp s output)
    by (unfold Sched.outp; rewrite Ho1; reflexivity).
  rewrite Hp1. fold prev.
  set (s2 := if 0 <=? prev
             then Sched.upd_output s1 output (fun o => Sched.with_prev_input o (Sched.cur_input o))
             else s1).
  assert (Hl2 : (Z.to_nat output < length (Sched.outputs s2))%nat).
  { subst s2. destruct (0 <=? prev); [rewrite length_outputs_upd_output|]; rewrite Ho1; exact Hl. }
  assert (Hq2 : Sched.ready s2 = Sched.ready s1 /\ Sched.unsched s2 = Sched.unsched s1)
    by (subst s2; destruct (0 <=? prev); split; reflexivity).
  assert (Hp2 : 0 <= prev -> Sched.prev_input (Sched.outp s2 output) = prev).
  { intros Hp. subst s2. replace (0 <=? prev) with true by (symmetry; apply Z.leb_le; exact Hp).
    rewrite outp_upd_output_eq by (rewrite Ho1; exact Hl). rewrite Hp1. reflexivity. }
  set (s3 := Sched.upd_output s2 output (fun o => Sched.with_cur_input o input)).
  assert (Hc3 : Sched.cur_input (Sched.outp s3 output) = input)
    by (subst s3; rewrite outp_upd_output_eq by exact Hl2; reflexivity).
  assert (Hp3 : 0 <= prev -> Sched.prev_input (Sched.outp s3 output) = prev)
    by (intros Hp; subst s3; rewrite outp_upd_output_eq by exact Hl2; apply Hp2, Hp).
  assert (Hl3 : (Z.to_nat output < length (Sched.outputs s3))%nat)
    by (subst s3; rewrite length_outputs_upd_output; exact Hl2).
  destruct Hq2 as [Hr2 Hu2].
  assert (Hfinal : Sched.ready s3 = Sched.ready s1 /\ Sched.unsched s3 = Sched.unsched s1)
    by (subst s3; cbn; split; assumption).
  destruct (input <? 0).
  { split; [reflexivity|]. split; [exact Hc3|]. split; [exact Hp3|].
    destruct Hfinal as [-> ->]. exact Hq1. }
  destruct (prev =? input) eqn:Epi.
  { split; [reflexivity|]. split; [exact Hc3|]. split; [exact Hp3|].
    destruct Hfinal as [-> ->]. exact Hq1. }
  set (s4 := if negb (Sched.prev_output (Sched.inp s3 input) =? Sched.INVALID_OUTPUT_ORDINAL) &&
                negb (Sched.prev_output (Sched.inp s3 input) =? output)
             then Sched.upd_output s3 output (fun o => Sched.incr_stat o Sched.SCHED_STAT_MIGRATIONS)
             else s3).
  assert (Hc4 : Sched.cur_input (Sched.outp s4 output) = input /\
                (0 <= prev -> Sched.prev_input (Sched.outp s4 output) = prev) /\
                Sched.ready s4 = Sched.ready s3 /\ Sched.unsched s4 = Sched.unsched s3).
  { subst s4. destruct (negb (Sched.prev_output (Sched.inp s3 input) =? Sched.INVALID_OUTPUT_ORDINAL) && negb (Sched.prev_output (Sched.inp s3 input) =? output)); [|auto].
    rewrite outp_upd_output_eq by exact Hl3. cbn -[Sched.outp]. auto. }
  destruct Hc4 as (Hc4 & Hp4 & Hr4 & Hu4).
  split; [reflexivity|].
  change (Sched.outp (Sched.upd_input ?x ?i ?f) output) with (Sched.outp x output).
  change (Sched.outp (Sched.upd_input ?x ?i ?f) output) with (Sched.outp x output).
  split; [exact Hc4|]. split; [exact Hp4|].
  cbn [Sched.ready Sched.unsched Sched.upd_input Sched.with_inputs].
  rewrite Hr4, Hu4. destruct Hfinal as [-> ->]. exact Hq1.
Qed.

Lemma flush_unscheduled_outputs (n : nat) (s : Sched.sched) :
  Sched.outputs (Sched.flush_unscheduled n s) = Sched.outputs s.
Proof.
  revert s. induction n as [|n IH]; intros s; cbn; [reflexivity|].
  destruct (Sched.pq_top s (Sched.unsched s)); [|reflexivity]. rewrite IH. reflexivity.
Qed.

Lemma set_cur_input_to_none (s : Sched.sched) (output input : Z) :
  (Z.to_nat output < length (Sched.outputs s))%nat -> input < 0 ->
  Sched.waiting (Sched.outp (snd (Sched.set_cur_input s output input)) output) =
    Sched.waiting (Sched.outp s output) /\
  Sched.cur_input (Sched.outp (snd (Sched.set_cur_input s output input)) output) = input.
Proof.
  intros Hl Hin. unfold Sched.set_cur_input.
  set (s1 := if 0 <=? Sched.cur_input (Sched.outp s output) then _ else s).
  assert (Ho1 : Sched.outputs s1 = Sched.outputs s).
  { subst s1. destruct (0 <=? _); [|reflexivity].
    destruct (_ && _); [apply add_to_ready_queue_queues|reflexivity]. }
  assert (Hp1 : Sched.outp s1 output = Sched.outp s output)
    by (unfold Sched.outp; rewrite Ho1; reflexivity).
  rewrite Hp1.
  replace (input <? 0) with true by (symmetry; apply Z.ltb_lt; exact Hin). cbn [snd].
  destruct (0 <=? Sched.cur_input (Sched.outp s output)).
  - rewrite outp_upd_output_eq by (rewrite length_outputs_upd_output, Ho1; exact Hl).
    rewrite outp_upd_output_eq by (rewrite Ho1; exact Hl). rewrite Hp1. split; reflexivity.
  - rewrite outp_upd_output_eq by (rewrite Ho1; exact Hl). rewrite Hp1. split; reflexivity.
Qed.

(** Extra X21: [eof_or_idle] returns [STATUS_EOF] without changing
    anything when no input is live; otherwise it returns [STATUS_IDLE]
    with the output waiting and without a current input. *)
Theorem eof_or_idle_outcome (vo : Sched.options) (s : Sched.sched) (output prev_input : Z) :
  (Z.to_nat output < length (Sched.outputs s))%nat ->
  let '(st, s') := Sched.eof_or_idle vo s output prev_input in
  if Sched.live_input_count s =? 0 then st = STATUS_EOF /\ s' = s
  else st = STATUS_IDLE /\ Sched.waiting (Sched.outp s' output) = true /\
       Sched.cur_input (Sched.outp s' output) = Sched.INVALID_INPUT_ORDINAL.
Proof.
  intros Hl. unfold Sched.eof_or_idle.
  destruct (Sched.live_input_count s =? 0); [split; reflexivity|].
  match goal with
  | |- context [Sched.upd_output ?sa output (fun o => Sched.with_waiting o true)] =>
      set (s_a := sa)
  end.
  assert (Hla : (Z.to_nat output < length (Sched.outputs s_a))%nat).
  { subst s_a. destruct (Sched.empty_list _ && _).
    - destruct (_ =? 0); [rewrite length_outputs_upd_output; exact Hl|].
      destruct (dgt _ _); [|exact Hl].
      rewrite length_outputs_upd_output, flush_unscheduled_outputs, outputs_add_log. exact Hl.
    - rewrite length_outputs_upd_output. exact Hl. }
  set (s_b := Sched.upd_output s_a output (fun o => Sched.with_waiting o true)).
  assert (Hlb : (Z.to_nat output < length (Sched.outputs s_b))%nat)
    by (subst s_b; rewrite length_outputs_upd_output; exact Hla).
  assert (Hwb : Sched.waiting (Sched.outp s_b output) = true)
    by (subst s_b; rewrite outp_upd_output_eq by exact Hla; reflexivity).
  set (s_c := if negb (prev_input =? Sched.INVALID_INPUT_ORDINAL)
              then Sched.upd_output s_b output
                     (fun o => Sched.incr_stat o Sched.SCHED_STAT_SWITCH_INPUT_TO_IDLE)
              else s_b).
  assert (Hlc : (Z.to_nat output < length (Sched.outputs s_c))%nat)
    by (subst s_c; destruct (negb (prev_input =? Sched.INVALID_INPUT_ORDINAL)); [rewrite length_outputs_upd_output|]; exact Hlb).
  assert (Hwc : Sched.waiting (Sched.outp s_c output) = true).
  { subst s_c. destruct (negb (prev_input =? Sched.INVALID_INPUT_ORDINAL)); [|exact Hwb].
    rewrite outp_upd_output_eq by exact Hlb. exact Hwb. }
  pose proof (set_cur_input_to_none s_c output Sched.INVALID_INPUT_ORDINAL Hlc
                ltac:(unfold Sched.INVALID_INPUT_ORDINAL; lia)) as [Hw Hc].
  destruct (Sched.set_cur_input s_c output Sched.INVALID_INPUT_ORDINAL) as [st' s'].
  cbn [snd] in Hw, Hc. split; [reflexivity|]. split; [rewrite Hw; exact Hwc|exact Hc].
Qed.

(** Extra X3, witness. *)
Lemma close_schedule_segment_stop_witness :
  Record.type {| Record.type := Record.DEFAULT; Record.key_input := 1; Record.value := 0;
                 Record.stop_instruction := 0; Record.timestamp := 5 |} <> Record.SKIP /\
  Record.type {| Record.type := Record.DEFAULT; Record.key_input := 1; Record.value := 0;
                 Record.stop_instruction := 0; Record.timestamp := 5 |} <> Record.IDLE /\
  Recording.close_schedule_segment
    [{| Record.type := Record.DEFAULT; Record.key_input := 1; Record.value := 0;
        Record.stop_instruction := 0; Record.timestamp := 5 |}] 9
    {| Recording.reader_instr := 12; Recording.instrs_pre_read := 2;
       Recording.at_eof := false; Recording.reader_at_end := false;
       Recording.switching_pre_instruction := true |} =
  (STATUS_OK,
   [{| Record.type := Record.DEFAULT; Record.key_input := 1; Record.value := 0;
       Record.stop_instruction := 11; Record.timestamp := 5 |}],
   {| Recording.reader_instr := 12; Recording.instrs_pre_read := 2;
      Recording.at_eof := false; Recording.reader_at_end := false;
      Recording.switching_pre_instruction := false |}).
Proof.
  split; [discriminate|]. split; [discriminate|].
  exact (proj1 (close_schedule_segment_stop []
    {| Record.type := Record.DEFAULT; Record.key_input := 1; Record.value := 0;
       Record.stop_instruction := 0; Record.timestamp := 5 |} 9
    {| Recording.reader_instr := 12; Recording.instrs_pre_read := 2;
       Recording.at_eof := false; Recording.reader_at_end := false;
       Recording.switching_pre_instruction := true |}
    ltac:(discriminate) ltac:(discriminate))).
Defined.

(** Extra X5, witness. *)
Lemma time_tree_lookup_found_witness :
  Traced.keys_increasing [(10, 0); (20, 100)] = true /\
  Traced.time_tree_lookup [(10, 0); (20, 100)] 15 <> None.
Proof.
  split; [reflexivity|].
  apply (proj2 (time_tree_lookup_found [(10, 0); (20, 100)] 15 eq_refl)).
  exists 0%nat, 10, 0, 20, 100. split; [reflexivity|]. split; [reflexivity|]. lia.
Defined.

(** Extra X7, witness. *)
Lemma time_tree_lookup_at_key_witness :
  Traced.keys_increasing [(10, 0); (20, 100)] = true /\
  Traced.time_tree_lookup [(10, 0); (20, 100)] 10 = Some 0.
Proof.
  split; [reflexivity|].
  apply (time_tree_lookup_at_key [(10, 0); (20, 100)] 0 10 0 20 100 eq_refl eq_refl eq_refl);
    unfold two64; lia.
Defined.

(** Extra X8, witness. *)
Lemma tid_regions_separated_witness :
  Traced.tid_regions [(10, 0); (20, 100); (30, 200); (40, 300)]
    [{| Traced.start_timestamp := 15; Traced.stop_timestamp := 25 |};
     {| Traced.start_timestamp := 35; Traced.stop_timestamp := 0 |}] =
  Some (Some [Traced.Range.mk 50 150; Traced.Range.mk 250 0]) /\
  150 < 250.
Proof.
  split; [vm_compute; reflexivity|].
  destruct (tid_regions_separated [(10, 0); (20, 100); (30, 200); (40, 300)]
    [{| Traced.start_timestamp := 15; Traced.stop_timestamp := 25 |};
     {| Traced.start_timestamp := 35; Traced.stop_timestamp := 0 |}]
    [Traced.Range.mk 50 150; Traced.Range.mk 250 0] ltac:(vm_compute; reflexivity))
    as [_ H].
  exact (proj2 (H 0%nat _ _ eq_refl eq_refl)).
Defined.

(** Extra X9, witness. *)
Lemma fix_modulo_input_repairs_witness :
  Forall (fun s => 0 <= Traced.Tracker.start_instruction s < Traced.DEFAULT_CHUNK_SIZE)
    [Traced.Tracker.mk 0 0 100 1; Traced.Tracker.mk 1 0 9000000 2; Traced.Tracker.mk 0 1 50 3] /\
  Traced.fix_modulo_input
    [Traced.Tracker.mk 0 0 100 1; Traced.Tracker.mk 1 0 9000000 2; Traced.Tracker.mk 0 1 50 3] =
  inr ([Traced.Tracker.mk 0 0 100 1; Traced.Tracker.mk 1 0 9000000 2;
        Traced.Tracker.mk 0 1 10000050 3],
       [(1, 100); (2, 9000000); (3, 10000050)], true) /\
  StronglySorted Z.le [100; 9000000; 10000050].
Proof.
  assert (Hf : Forall (fun s => 0 <= Traced.Tracker.start_instruction s < Traced.DEFAULT_CHUNK_SIZE)
    [Traced.Tracker.mk 0 0 100 1; Traced.Tracker.mk 1 0 9000000 2; Traced.Tracker.mk 0 1 50 3])
    by (unfold Traced.DEFAULT_CHUNK_SIZE; repeat constructor; cbn; lia).
  split; [exact Hf|]. split; [vm_compute; reflexivity|].
  exact (proj1 (proj2 (fix_modulo_input_repairs
    [Traced.Tracker.mk 0 0 100 1; Traced.Tracker.mk 1 0 9000000 2; Traced.Tracker.mk 0 1 50 3]
    [Traced.Tracker.mk 0 0 100 1; Traced.Tracker.mk 1 0 9000000 2;
     Traced.Tracker.mk 0 1 10000050 3]
    [(1, 100); (2, 9000000); (3, 10000050)] true Hf ltac:(cbn; lia)
    ltac:(vm_compute; reflexivity)))).
Defined.

(** Extra X10, witness. *)
Lemma fix_modulo_input_distinct_timestamps_witness :
  Traced.fix_modulo_input [Traced.Tracker.mk 0 0 9000000 1; Traced.Tracker.mk 1 0 50 2] =
  inr ([Traced.Tracker.mk 0 0 9000000 1; Traced.Tracker.mk 1 0 10000050 2],
       [(1, 9000000); (2, 10000050)], true) /\
  NoDup [1; 2].
Proof.
  split; [vm_compute; reflexivity|].
  exact (fix_modulo_input_distinct_timestamps
    [Traced.Tracker.mk 0 0 9000000 1; Traced.Tracker.mk 1 0 50 2] _
    ltac:(vm_compute; reflexivity)).
Defined.

(** Extra X12, witness. *)
Lemma read_traced_entries_no_repeat_witness :
  exists st,
    Traced.read_traced_entries (Some 2) [100; 200]
      [Traced.Entry.mk 100 1 0 0; Traced.Entry.mk 100 2 0 0; Traced.Entry.mk 200 3 0 0;
       Traced.Entry.mk 100 4 1 50] = inr st /\
    Forall (fun out => forall j a b, out !! j = Some a -> out !! S j = Some b ->
              ~ (Traced.Segment.input b = Traced.Segment.input a /\
                 Traced.Segment.start_instruction b = Traced.Segment.start_instruction a))
      (Traced.all_sched st).
Proof.
  eexists. split; [reflexivity|].
  exact (read_traced_entries_no_repeat (Some 2) [100; 200]
    [Traced.Entry.mk 100 1 0 0; Traced.Entry.mk 100 2 0 0; Traced.Entry.mk 200 3 0 0;
     Traced.Entry.mk 100 4 1 50] _ eq_refl).
Defined.

(** Extra X13, witness. *)
Lemma read_traced_entries_output_limit_witness :
  1 <= 2 /\
  exists st,
    Traced.read_traced_entries (Some 2) [100; 200]
      [Traced.Entry.mk 100 1 0 0; Traced.Entry.mk 200 3 0 0; Traced.Entry.mk 100 4 1 50] = inr st /\
    Z.of_nat (length (Traced.all_sched st)) <= 2.
Proof.
  split; [lia|]. eexists. split; [reflexivity|].
  exact (proj1 (read_traced_entries_output_limit 2 [100; 200]
    [Traced.Entry.mk 100 1 0 0; Traced.Entry.mk 200 3 0 0; Traced.Entry.mk 100 4 1 50] _
    ltac:(lia) eq_refl)).
Defined.

(** Extra X14, witness. *)
Lemma read_traced_entries_cross_index_witness :
  exists st,
    Traced.read_traced_entries None [100; 200]
      [Traced.Entry.mk 100 1 0 0; Traced.Entry.mk 200 3 0 0; Traced.Entry.mk 100 4 1 50] = inr st /\
    exists out seg,
      Traced.all_sched st !! 1%nat = Some out /\ out !! 0%nat = Some seg /\
      Traced.Segment.valid seg = true /\ Traced.Segment.input seg = 0 /\
      Traced.Segment.start_instruction seg = 50.
Proof.
  eexists. split; [reflexivity|].
  destruct (read_traced_entries_cross_index None [100; 200]
    [Traced.Entry.mk 100 1 0 0; Traced.Entry.mk 200 3 0 0; Traced.Entry.mk 100 4 1 50] _
    eq_refl 0%nat _ 1%nat _ eq_refl eq_refl) as (out & seg & H1 & H2 & H3 & H4 & H5 & _).
  exists out, seg. repeat split; assumption.
Defined.

(** Extra X15, witness. *)
Lemma advance_region_overwrites_finished_slot_witness :
  Traced.Range.stop_instruction (Traced.Range.mk 0 5) <
    ROI.get_instr_ordinal Z (fun r => r)
      {| Skip.queue := []; Skip.rdr := 10; Skip.needs_init := false;
         Skip.instrs_pre_read := 0; Skip.at_eof := false; Skip.in_cur_region := true;
         Skip.cur_region := 0; Skip.tid := 7 |} /\
  let '(_, _, regions', _, _) :=
    ROI.advance_region_of_interest Z (fun r => r) (fun r n => r + n) (fun r => 100 <=? r)
      (fun r => r) [Traced.Range.mk 0 5; Traced.Range.mk 20 30]
      {| Skip.queue := []; Skip.rdr := 10; Skip.needs_init := false;
         Skip.instrs_pre_read := 0; Skip.at_eof := false; Skip.in_cur_region := true;
         Skip.cur_region := 0; Skip.tid := 7 |} 3 (rec_instr 10) in
  regions' = [Traced.Range.mk 20 30; Traced.Range.mk 20 30].
Proof.
  split; [vm_compute; reflexivity|].
  pose proof (advance_region_overwrites_finished_slot Z (fun r => r) (fun r n => r + n)
    (fun r => 100 <=? r) (fun r => r) [Traced.Range.mk 0 5; Traced.Range.mk 20 30]
    {| Skip.queue := []; Skip.rdr := 10; Skip.needs_init := false;
       Skip.instrs_pre_read := 0; Skip.at_eof := false; Skip.in_cur_region := true;
       Skip.cur_region := 0; Skip.tid := 7 |} 3 (rec_instr 10)
    (Traced.Range.mk 0 5) (Traced.Range.mk 20 30)
    ltac:(cbn; lia) eq_refl eq_refl eq_refl ltac:(discriminate)
    ltac:(vm_compute; reflexivity)) as H.
  destruct (ROI.advance_region_of_interest _ _ _ _ _ _ _ _ _) as [[[[o i'] rg] l'] rc].
  destruct H as [H _]. rewrite H. reflexivity.
Defined.

(** Extra X16, witness. *)
Lemma advance_region_past_last_region_witness :
  Traced.Range.stop_instruction (Traced.Range.mk 0 5) <
    ROI.get_instr_ordinal Z (fun r => r)
      {| Skip.queue := []; Skip.rdr := 10; Skip.needs_init := false;
         Skip.instrs_pre_read := 0; Skip.at_eof := false; Skip.in_cur_region := true;
         Skip.cur_region := 0; Skip.tid := 7 |} /\
  let '(o, i', _, live', _) :=
    ROI.advance_region_of_interest Z (fun r => r) (fun r n => r + n) (fun r => 100 <=? r)
      (fun r => r) [Traced.Range.mk 0 5]
      {| Skip.queue := []; Skip.rdr := 10; Skip.needs_init := false;
         Skip.instrs_pre_read := 0; Skip.at_eof := false; Skip.in_cur_region := true;
         Skip.cur_region := 0; Skip.tid := 7 |} 3 (rec_instr 10) in
  o = ROI.roi_status STATUS_SKIPPED /\ live' = 2 /\ Skip.at_eof Z i' = true /\
  Skip.queue Z i' = [ROI.create_thread_exit 7].
Proof.
  split; [vm_compute; reflexivity|].
  rewrite (advance_region_past_last_region Z (fun r => r) (fun r n => r + n)
    (fun r => 100 <=? r) (fun r => r) [Traced.Range.mk 0 5]
    {| Skip.queue := []; Skip.rdr := 10; Skip.needs_init := false;
       Skip.instrs_pre_read := 0; Skip.at_eof := false; Skip.in_cur_region := true;
       Skip.cur_region := 0; Skip.tid := 7 |} 3 (rec_instr 10) (Traced.Range.mk 0 5)
    ltac:(cbn; lia) eq_refl eq_refl eq_refl ltac:(discriminate)
    ltac:(vm_compute; reflexivity)).
  repeat split.
Defined.

(** Extra X17, witness. *)
Lemma advance_region_back_to_back_witness :
  Traced.Range.start_instruction (Traced.Range.mk 8 30) <=
    ROI.get_instr_ordinal Z (fun r => r)
      {| Skip.queue := []; Skip.rdr := 10; Skip.needs_init := false;
         Skip.instrs_pre_read := 0; Skip.at_eof := false; Skip.in_cur_region := false;
         Skip.cur_region := 1; Skip.tid := 7 |} /\
  let '(o, i', _, _, record') :=
    ROI.advance_region_of_interest Z (fun r => r) (fun r n => r + n) (fun r => 100 <=? r)
      (fun r => r) [Traced.Range.mk 0 5; Traced.Range.mk 8 30]
      {| Skip.queue := []; Skip.rdr := 10; Skip.needs_init := false;
         Skip.instrs_pre_read := 0; Skip.at_eof := false; Skip.in_cur_region := false;
         Skip.cur_region := 1; Skip.tid := 7 |} 3 (rec_instr 10) in
  o = ROI.roi_status STATUS_OK /\ Skip.queue Z i' = [rec_instr 10] /\
  record' = create_region_separator_marker 7 1.
Proof.
  split; [vm_compute; discriminate|].
  rewrite (advance_region_back_to_back Z (fun r => r) (fun r n => r + n)
    (fun r => 100 <=? r) (fun r => r) [Traced.Range.mk 0 5; Traced.Range.mk 8 30]
    {| Skip.queue := []; Skip.rdr := 10; Skip.needs_init := false;
       Skip.instrs_pre_read := 0; Skip.at_eof := false; Skip.in_cur_region := false;
       Skip.cur_region := 1; Skip.tid := 7 |} 3 (rec_instr 10) (Traced.Range.mk 8 30)
    eq_refl eq_refl ltac:(vm_compute; discriminate)).
  repeat split.
Defined.

(** Extra X18, witness. *)
Lemma advance_region_skip_request_witness :
  ROI.get_instr_ordinal Z (fun r => r)
    {| Skip.queue := []; Skip.rdr := 10; Skip.needs_init := false;
       Skip.instrs_pre_read := 0; Skip.at_eof := false; Skip.in_cur_region := false;
       Skip.cur_region := 0; Skip.tid := 7 |} < Traced.Range.start_instruction (Traced.Range.mk 50 60) /\
  ROI.advance_region_of_interest Z (fun r => r) (fun r n => r + n) (fun r => 100 <=? r)
    (fun r => r) [Traced.Range.mk 50 60]
    {| Skip.queue := []; Skip.rdr := 10; Skip.needs_init := false;
       Skip.instrs_pre_read := 0; Skip.at_eof := false; Skip.in_cur_region := false;
       Skip.cur_region := 0; Skip.tid := 7 |} 3 (rec_instr 10) =
  (let '(s, i', live') :=
     Skip.skip_instructions Z (fun r => r) (fun r n => r + n) (fun r => 100 <=? r)
       {| Skip.queue := []; Skip.rdr := 10; Skip.needs_init := false;
          Skip.instrs_pre_read := 0; Skip.at_eof := false; Skip.in_cur_region := false;
          Skip.cur_region := 0; Skip.tid := 7 |} 3 39 in
   (ROI.roi_status s, i', [Traced.Range.mk 50 60], live', rec_instr 10)).
Proof.
  split; [vm_compute; reflexivity|].
  rewrite (advance_region_skip_request Z (fun r => r) (fun r n => r + n)
    (fun r => 100 <=? r) (fun r => r) [Traced.Range.mk 50 60]
    {| Skip.queue := []; Skip.rdr := 10; Skip.needs_init := false;
       Skip.instrs_pre_read := 0; Skip.at_eof := false; Skip.in_cur_region := false;
       Skip.cur_region := 0; Skip.tid := 7 |} 3 (rec_instr 10) (Traced.Range.mk 50 60)
    eq_refl eq_refl ltac:(vm_compute; reflexivity) ltac:(unfold two64; cbn; lia)
    ltac:(unfold two64; cbn; lia)).
  reflexivity.
Defined.

(** Extra X19, witness. *)
Lemma mark_input_eof_once_witness :
  (Z.to_nat 1 < length (Sched.inputs
     (Sched.mk_sched [Sched.default_input; Sched.default_input]
        [Sched.with_cur_input Sched.default_output 0] [] [] 0 0 0 2 0 [])))%nat /\
  Sched.live_input_count (Sched.mark_input_eof
     (Sched.mk_sched [Sched.default_input; Sched.default_input]
        [Sched.with_cur_input Sched.default_output 0] [] [] 0 0 0 2 0 []) 1) = 1 /\
  Sched.mark_input_eof (Sched.mark_input_eof
     (Sched.mk_sched [Sched.default_input; Sched.default_input]
        [Sched.with_cur_input Sched.default_output 0] [] [] 0 0 0 2 0 []) 1) 1 =
  Sched.mark_input_eof
     (Sched.mk_sched [Sched.default_input; Sched.default_input]
        [Sched.with_cur_input Sched.default_output 0] [] [] 0 0 0 2 0 []) 1.
Proof.
  destruct (mark_input_eof_once
     (Sched.mk_sched [Sched.default_input; Sched.default_input]
        [Sched.with_cur_input Sched.default_output 0] [] [] 0 0 0 2 0 []) 1
     ltac:(cbn; lia)) as (_ & H2 & H3).
  split; [cbn; lia|]. split; [exact H2 | exact H3].
Defined.

(** Extra X20, witness. *)
Lemma set_cur_input_requeues_previous_witness :
  (Z.to_nat 0 < length (Sched.outputs
     (Sched.mk_sched [Sched.default_input; Sched.default_input]
        [Sched.with_cur_input Sched.default_output 0] [] [] 0 0 0 2 0 [])))%nat /\
  let '(st, s') := Sched.set_cur_input
     (Sched.mk_sched [Sched.default_input; Sched.default_input]
        [Sched.with_cur_input Sched.default_output 0] [] [] 0 0 0 2 0 []) 0 1 in
  st = STATUS_OK /\ (Sched.ready s' = [0] \/ Sched.unsched s' = [0]).
Proof.
  split; [cbn; lia|].
  pose proof (set_cur_input_requeues_previous
     (Sched.mk_sched [Sched.default_input; Sched.default_input]
        [Sched.with_cur_input Sched.default_output 0] [] [] 0 0 0 2 0 []) 0 1
     ltac:(cbn; lia)) as H.
  cbv zeta in H.
  destruct (Sched.set_cur_input _ 0 1) as [st s'].
  destruct H as (H1 & _ & _ & H4). simpl in H4.
  split; [exact H1|].
  destruct H4 as [[Hr _] | [_ Hu]]; [left; exact Hr | right; exact Hu].
Defined.

(** Extra X21, witness. *)
Lemma eof_or_idle_outcome_witness :
  (Z.to_nat 0 < length (Sched.outputs
     (Sched.mk_sched [Sched.default_input; Sched.default_input]
        [Sched.with_cur_input Sched.default_output 0] [] [] 0 0 0 2 0 [])))%nat /\
  let '(st, s') := Sched.eof_or_idle
     {| Sched.randomize_next_input := false; Sched.verbosity := 1;
        Sched.quantum_unit := Sched.QUANTUM_INSTRUCTIONS;
        Sched.time_units_per_us := double_of_u64 1; Sched.block_time_max_us := 1000 |}
     (Sched.mk_sched [Sched.default_input; Sched.default_input]
        [Sched.with_cur_input Sched.default_output 0] [] [] 0 0 0 2 0 []) 0 0 in
  st = STATUS_IDLE /\ Sched.waiting (Sched.outp s' 0) = true.
Proof.
  split; [cbn; lia|].
  pose proof (eof_or_idle_outcome
     {| Sched.randomize_next_input := false; Sched.verbosity := 1;
        Sched.quantum_unit := Sched.QUANTUM_INSTRUCTIONS;
        Sched.time_units_per_us := double_of_u64 1; Sched.block_time_max_us := 1000 |}
     (Sched.mk_sched [Sched.default_input; Sched.default_input]
        [Sched.with_cur_input Sched.default_output 0] [] [] 0 0 0 2 0 []) 0 0
     ltac:(cbn; lia)) as H.
  destruct (Sched.eof_or_idle _ _ 0 0) as [st s'].
  simpl in H. destruct H as (H1 & H2 & _). split; assumption.
Defined.
